(** * A voice-dialogue turn controller: shallow embedding and properties

    The development follows the Python sources of the application:

    - [app/core/state.py]                  the shared [AppState] flags;
    - [app/handlers/websocket_handler.py]  framing of inbound audio, the
                                           per-frame decision and the
                                           connection loop;
    - [app/services/bedrock_service.py]    the chunk generator and the
                                           response turn;
    - [app/services/polly_service.py]      [speak_text] and the paced relay
                                           of synthesized audio;
    - [app/services/langchain_service.py]  the response stream;
    - [app/services/transcribe_service.py] the transcript handler;
    - [app/config/settings.py], [app/core/utils.py]
                                           the settings and [printer].

    Conventions.  Python [str] values are lists of 8-bit characters
    (code points 0..255).  The floats of the silence limit are binary64
    values with the arithmetic of IEEE 754 (round to nearest, ties to even),
    as the standard library specifies it in [SpecFloat]; the probability of
    the classifier and its threshold are only compared, and are rationals.
    Coroutines run on one event loop: between two [await]s nothing else
    runs, so a stretch of code without [await] is one function on the state,
    and what other tasks and the collaborators do at an [await] is an
    explicit input of the model. *)

From Stdlib Require Import Ascii String.
From Stdlib Require Import List Bool Arith ZArith QArith Qround Lia.
From Stdlib Require Import SpecFloat.
Import ListNotations.

Close Scope Q_scope.
Open Scope nat_scope.


(* ================================================================== *)
(** * Definitions *)
(* ================================================================== *)

(** ** [core/state.py]: AppState *)

(** [threading.Event] is a boolean; the lock only serialises accesses and
    carries no data. *)
Record AppState : Type := mkAppState {
  _is_bot_speaking : bool;
  interrupt_event : bool
}.

(** [AppState.__init__] *)
Definition AppState_init : AppState :=
  {| _is_bot_speaking := false; interrupt_event := false |}.

Definition is_bot_speaking (st : AppState) : bool := _is_bot_speaking st.

Definition start_bot_speech (st : AppState) : AppState :=
  {| _is_bot_speaking := true; interrupt_event := false |}.

Definition stop_bot_speech (st : AppState) : AppState :=
  {| _is_bot_speaking := false; interrupt_event := false |}.

Definition interrupt (st : AppState) : AppState :=
  if is_bot_speaking st
  then {| _is_bot_speaking := _is_bot_speaking st; interrupt_event := true |}
  else st.

Definition was_interrupted (st : AppState) : bool := interrupt_event st.

(** The five operations, as a client may issue them in any order.  The two
    queries leave the state as it is. *)
Inductive state_op : Type :=
| OpStart
| OpStop
| OpInterrupt
| OpIsSpeaking
| OpWasInterrupted.

Definition apply_op (st : AppState) (o : state_op) : AppState :=
  match o with
  | OpStart => start_bot_speech st
  | OpStop => stop_bot_speech st
  | OpInterrupt => interrupt st
  | OpIsSpeaking => st
  | OpWasInterrupted => st
  end.

Definition run_ops (ops : list state_op) (st : AppState) : AppState :=
  fold_left apply_op ops st.

(** ** [handlers/websocket_handler.py]: framing of the inbound bytes *)

Definition bytes : Type := list Byte.byte.

(** The inner [while] of [handle_connection], lines 69-71, with the frames it
    cuts collected in order.  [fuel] bounds the iterations; [length buf]
    always suffices when the frame size is positive (see
    [take_frames_fuel]), as it is in the source (512).  With a frame size
    of zero the source's loop never ends; the function stops with its
    fuel. *)
Fixpoint take_frames (fuel : nat) (size : nat) (buf : bytes)
  : list bytes * bytes :=
  match fuel with
  | O => ([], buf)
  | S fuel' =>
      if size <=? length buf
      then
        let chunk_to_process := firstn size buf in
        let audio_buffer := skipn size buf in
        let '(frames, rest) := take_frames fuel' size audio_buffer in
        (chunk_to_process :: frames, rest)
      else ([], buf)
  end.

(** One iteration of [async for raw_chunk in self.websocket]: append, then
    cut every whole frame. *)
Definition on_raw_chunk (size : nat) (audio_buffer raw_chunk : bytes)
  : list bytes * bytes :=
  let audio_buffer := audio_buffer ++ raw_chunk in
  take_frames (length audio_buffer) size audio_buffer.

(** All the inbound chunks of a connection, in arrival order. *)
Fixpoint frames_of_chunks (size : nat) (audio_buffer : bytes)
  (chunks : list bytes) : list bytes * bytes :=
  match chunks with
  | [] => ([], audio_buffer)
  | raw_chunk :: later =>
      let '(frames, audio_buffer) := on_raw_chunk size audio_buffer raw_chunk in
      let '(frames', audio_buffer) := frames_of_chunks size audio_buffer later in
      (frames ++ frames', audio_buffer)
  end.

(** ** Text: Python [str], [str.strip] and the two regular expressions *)

Definition str : Type := list ascii.

(** A literal of the source. *)
Definition lit (s : String.string) : str := String.list_ascii_of_string s.
Arguments lit s%_string.

(** [str.isspace] on one character, which is also the regex class [\s] on
    [str] patterns: TAB..CR, FS..US, SPACE, NEL and NBSP below 256. *)
Definition isspace (c : ascii) : bool :=
  let n := nat_of_ascii c in
  ((9 <=? n) && (n <=? 13)) || ((28 <=? n) && (n <=? 32))
  || (n =? 133) || (n =? 160).

Fixpoint lstrip (s : str) : str :=
  match s with
  | [] => []
  | c :: t => if isspace c then lstrip t else s
  end.

Definition rstrip (s : str) : str := rev (lstrip (rev s)).

(** [s.strip()] *)
Definition strip (s : str) : str := rstrip (lstrip s).

(** Python truthiness of a [str]. *)
Definition truthy (s : str) : bool :=
  match s with [] => false | _ :: _ => true end.

(** The greedy [\s*]: the longest run of whitespace at the front, and what
    follows it. *)
Fixpoint span_space (s : str) : str * str :=
  match s with
  | [] => ([], [])
  | c :: t =>
      if isspace c
      then let '(run, rest) := span_space t in (c :: run, rest)
      else ([], s)
  end.

Definition is_terminator (c : ascii) : bool :=
  Ascii.eqb c "."%char || Ascii.eqb c "?"%char || Ascii.eqb c "!"%char.

Definition comma : ascii := ","%char.
Definition newline : ascii := ascii_of_nat 10.
Definition asterisk : ascii := "*"%char.

(** One attempt of [([.?!]\s*|\s*,\s*|\n)] at the front of [s]: the text
    matched and the text after it.  The alternatives are tried in order;
    [\s*] is greedy, and giving whitespace back never helps the second
    alternative, whose next character must be a comma. *)
Definition match_split_pattern (s : str) : option (str * str) :=
  match s with
  | [] => None
  | c :: t =>
      if is_terminator c
      then let '(run, rest) := span_space t in Some (c :: run, rest)
      else
        let '(before, rest) := span_space s in
        match rest with
        | d :: rest' =>
            if Ascii.eqb d comma
            then let '(after, rest'') := span_space rest' in
                 Some (before ++ d :: after, rest'')
            else if Ascii.eqb c newline then Some ([c], t) else None
        | [] => if Ascii.eqb c newline then Some ([c], t) else None
        end
  end.

(** [split_pattern.split(s)]: the pattern has one capturing group around
    all of it, so the result alternates text and delimiter and ends with the
    text after the last match.  The scan takes the leftmost match, then goes
    on after it; a match is never empty.  [fuel] bounds the scan,
    [S (length s)] suffices. *)
Fixpoint re_split_fuel (fuel : nat) (s : str) : list str :=
  match fuel with
  | O => [s]
  | S fuel' =>
      match s with
      | [] => [[]]
      | c :: t =>
          match match_split_pattern s with
          | Some (delimiter, rest) =>
              [] :: delimiter :: re_split_fuel fuel' rest
          | None =>
              match re_split_fuel fuel' t with
              | head :: parts => (c :: head) :: parts
              | [] => [[c]]
              end
          end
      end
  end.

Definition re_split (s : str) : list str := re_split_fuel (S (length s)) s.

(** The text after the first asterisk of [s], if there is one: the rest of
    a match of [\*[^*]*\*] whose opening asterisk was just read. *)
Fixpoint after_asterisk (s : str) : option str :=
  match s with
  | [] => None
  | c :: t => if Ascii.eqb c asterisk then Some t else after_asterisk t
  end.

(** [re.sub(r'\*[^*]*\*', '', s)]: leftmost matches, one after the other,
    each replaced by nothing. *)
Fixpoint re_sub_fuel (fuel : nat) (s : str) : str :=
  match fuel with
  | O => s
  | S fuel' =>
      match s with
      | [] => []
      | c :: t =>
          if Ascii.eqb c asterisk
          then match after_asterisk t with
               | Some rest => re_sub_fuel fuel' rest
               | None => c :: re_sub_fuel fuel' t
               end
          else c :: re_sub_fuel fuel' t
      end
  end.

Definition re_sub_starred (s : str) : str := re_sub_fuel (length s) s.

(** ** [services/bedrock_service.py]: the pure part of the chunk generator *)

(** The [for i in range(0, len(processed_parts), 2)] loop: what it yields,
    in order. *)
Fixpoint emit_pairs (processed_parts : list str) : list str :=
  match processed_parts with
  | [] => []
  | sentence :: [] =>
      if truthy (strip sentence)
      then [strip sentence ++ strip []]
      else []
  | sentence :: delimiter :: later =>
      if truthy (strip sentence)
      then (strip sentence ++ strip delimiter) :: emit_pairs later
      else emit_pairs later
  end.

(** Lines 38-47 for one non-empty fragment: the chunks to yield and the
    buffer kept for the next fragment ([parts[-1] or ""]). *)
Definition split_buffer (buffer : str) : list str * str :=
  let parts := re_split buffer in
  let processed_parts := removelast parts in
  (emit_pairs processed_parts, last parts []).

(** ** The response turn: effects *)

(** What a turn does that others can see: its calls on the state, on the
    synthesis collaborator and on the connection, and the lines it logs. *)
Inductive event : Type :=
| SpeechStarted                 (* start_bot_speech *)
| SpeechStopped                 (* stop_bot_speech *)
| Yielded (chunk : str)         (* the generator hands a chunk over *)
| Synthesize (text : str)       (* polly.synthesize_speech(Text=text) *)
| PollyFailed                   (* "[ERROR] Polly synthesis failed" *)
| Send (data : bytes)           (* websocket.send(data) *)
| CloseAudio                    (* audio_data_stream.close() *)
| TaskCancelled                 (* "[BEDROCK] Task was cancelled ..." *)
| BedrockError.                 (* the [except Exception] block is entered *)

(** The two kinds of exception the handlers tell apart. *)
Inductive exn : Type :=
| CancelledError
| Exception.

Inductive result (A : Type) : Type :=
| Ok (a : A)
| Raised (e : exn).
Arguments Ok {A} a.
Arguments Raised {A} e.

(** The state a turn runs in: the shared flags, the number of synthesis
    calls made so far, and the events so far, oldest first. *)
Record world : Type := mkWorld {
  app_state : AppState;
  polly_calls : nat;
  trace : list event
}.

Definition M (A : Type) : Type := world -> result A * world.

Definition ret {A : Type} (a : A) : M A := fun w => (Ok a, w).

Definition bind {A B : Type} (m : M A) (k : A -> M B) : M B :=
  fun w =>
    match m w with
    | (Ok a, w') => k a w'
    | (Raised e, w') => (Raised e, w')
    end.

Definition raise {A : Type} (e : exn) : M A := fun w => (Raised e, w).

(** [try: body  except CancelledError: on_cancel  except Exception: on_error] *)
Definition try_except (body on_cancel on_error : M unit) : M unit :=
  fun w =>
    match body w with
    | (Ok tt, w') => (Ok tt, w')
    | (Raised CancelledError, w') => on_cancel w'
    | (Raised Exception, w') => on_error w'
    end.

(** [try: body  finally: cleanup]: the cleanup runs on every outcome, and an
    exception of the body goes on after it. *)
Definition try_finally (body cleanup : M unit) : M unit :=
  fun w =>
    match body w with
    | (Ok tt, w') => cleanup w'
    | (Raised e, w') =>
        match cleanup w' with
        | (Ok tt, w'') => (Raised e, w'')
        | (Raised e', w'') => (Raised e', w'')
        end
    end.

Declare Scope turn_scope.
Delimit Scope turn_scope with turn.
Notation "x <- m ;; k" := (bind m (fun x => k))
  (at level 61, m at next level, right associativity) : turn_scope.
Notation "m ;; k" := (bind m (fun _ => k))
  (at level 61, right associativity) : turn_scope.
Open Scope turn_scope.

Definition log (e : event) : M unit :=
  fun w => (Ok tt, {| app_state := app_state w;
                      polly_calls := polly_calls w;
                      trace := trace w ++ [e] |}).

Definition on_state (f : AppState -> AppState) : M unit :=
  fun w => (Ok tt, {| app_state := f (app_state w);
                      polly_calls := polly_calls w;
                      trace := trace w |}).

Definition ask_state {A : Type} (f : AppState -> A) : M A :=
  fun w => (Ok (f (app_state w)), w).

Definition next_polly_call : M nat :=
  fun w => (Ok (polly_calls w),
            {| app_state := app_state w;
               polly_calls := S (polly_calls w);
               trace := trace w |}).

(** ** [services/polly_service.py] *)

(** One turn of the relay loop of [_send_audio_to_client], as the
    collaborators and the other task decide it. *)
Inductive relay_step : Type :=
| Block (data : bytes) (barged : bool)
    (* [read] gives [data], the send and the pause go through; [barged]:
       the ingestion loop ran [interrupt()] meanwhile *)
| ConnectionClosed (data : bytes)
    (* [read] gives [data], the send raises ConnectionClosed *)
| RelayCancelled
    (* the task is cancelled at one of the awaits *)
| RelayFails.
    (* any other exception, of [read] or of the send *)

(** What [polly.synthesize_speech] does on one call. *)
Inductive synth_result : Type :=
| SynthRaises
| AudioStream (steps : list relay_step).

(** [while not app_state.was_interrupted(): ...] with its handlers; the
    [finally] closes the stream on every way out.  A stream with no step
    left reads as empty. *)
Fixpoint relay_loop (steps : list relay_step) : M unit :=
  i <- ask_state was_interrupted ;;
  if i then ret tt
  else
    match steps with
    | [] => ret tt
    | Block data barged :: later =>
        if (length data =? 0) then ret tt
        else
          log (Send data) ;;
          (if barged then on_state interrupt else ret tt) ;;
          relay_loop later
    | ConnectionClosed data :: _ =>
        if (length data =? 0) then ret tt
        else on_state interrupt
    | RelayCancelled :: _ => ret tt
    | RelayFails :: _ => ret tt
    end.

Definition _send_audio_to_client (steps : list relay_step) : M unit :=
  try_finally (relay_loop steps) (log CloseAudio).

Section Turn.

(** The synthesis collaborator: its answer to the [n]-th call, made with
    [text]. *)
Variable polly : nat -> str -> synth_result.

Definition speak_text (text : str) : M unit :=
  let cleaned_text := re_sub_starred text in
  if negb (truthy (strip cleaned_text)) then ret tt
  else
    n <- next_polly_call ;;
    log (Synthesize cleaned_text) ;;
    match polly n cleaned_text with
    | SynthRaises => log PollyFailed
    | AudioStream steps => _send_audio_to_client steps
    end.

(** ** [services/bedrock_service.py] *)

(** What happens while the turn awaits the next fragment of the generation
    stream. *)
Inductive stream_step : Type :=
| Fragment (text_chunk : str)   (* the stream yields a fragment *)
| BargeIn                       (* the ingestion loop runs [interrupt()] *)
| StreamRaises                  (* the collaborator raises *)
| StreamCancelled.              (* the task is cancelled at this await *)

(** The consumer's verdict after one chunk. *)
Inductive control : Type :=
| Continue
| Break.

Section Generator.

(** The body of the [async for] that consumes the generator. *)
Variable consume : str -> M control.

(** The generator yields [chunks] one by one; a consumer that breaks leaves
    it suspended at that [yield]. *)
Fixpoint yield_all (chunks : list str) : M control :=
  match chunks with
  | [] => ret Continue
  | chunk :: later =>
      log (Yielded chunk) ;;
      c <- consume chunk ;;
      match c with
      | Break => ret Break
      | Continue => yield_all later
      end
  end.

(** Lines 50-52: flush what is left if not interrupted. *)
Definition flush (buffer : str) : M control :=
  i <- ask_state was_interrupted ;;
  if truthy (strip buffer) && negb i
  then yield_all [strip buffer]
  else ret Continue.

Fixpoint _to_chunk_generator (text_chunk_stream : list stream_step)
  (buffer : str) : M control :=
  match text_chunk_stream with
  | [] => flush buffer
  | BargeIn :: later =>
      on_state interrupt ;; _to_chunk_generator later buffer
  | StreamRaises :: _ => raise Exception
  | StreamCancelled :: _ => raise CancelledError
  | Fragment text_chunk :: later =>
      i <- ask_state was_interrupted ;;
      if i then flush buffer
      else if negb (truthy text_chunk)
      then _to_chunk_generator later buffer
      else
        let buffer := buffer ++ text_chunk in
        let '(chunks, buffer) := split_buffer buffer in
        c <- yield_all chunks ;;
        match c with
        | Break => ret Break
        | Continue => _to_chunk_generator later buffer
        end
  end.

End Generator.

Definition apology : str := lit "I'm sorry, a communication error occurred.".

(** The body of [async for chunk in chunk_stream] in [invoke_bedrock]. *)
Definition speak_chunk (chunk : str) : M control :=
  i <- ask_state was_interrupted ;;
  if i then ret Break
  else
    (if truthy chunk && truthy (strip chunk)
     then speak_text chunk
     else ret tt) ;;
    ret Continue.

(** The [except Exception] block of [invoke_bedrock]. *)
Definition on_error : M unit :=
  log BedrockError ;;
  i <- ask_state was_interrupted ;;
  if negb i then speak_text apology else ret tt.

(** [invoke_bedrock]: [text_stream] is what
    [langchain_service.get_response_stream(text)] does for this turn. *)
Definition invoke_bedrock (text_stream : list stream_step) : M unit :=
  on_state start_bot_speech ;; log SpeechStarted ;;
  try_finally
    (try_except
       (_to_chunk_generator speak_chunk text_stream [] ;; ret tt)
       (log TaskCancelled)
       on_error)
    (on_state stop_bot_speech ;; log SpeechStopped).

End Turn.

(** A world with nothing done yet. *)
Definition fresh (st : AppState) : world :=
  {| app_state := st; polly_calls := 0; trace := [] |}.

(** The chunks a run yielded, in order. *)
Fixpoint yielded (t : list event) : list str :=
  match t with
  | [] => []
  | Yielded chunk :: later => chunk :: yielded later
  | _ :: later => yielded later
  end.

(** The generator on its own: a consumer that takes every chunk and does
    nothing else, and a stream that only yields fragments. *)
Definition take_chunk (chunk : str) : M control := ret Continue.

Definition chunks_of (st : AppState) (fragments : list str) : list str :=
  yielded (trace (snd (_to_chunk_generator take_chunk
                         (map Fragment fragments) [] (fresh st)))).

(** ** [config/settings.py] and the handler's constants *)

(** A Python [float]: a binary64 value. *)
Definition float : Type := spec_float.

Definition prec : Z := 53.
Definition emax : Z := 1024.

(** The float nearest to [m * 2^e]. *)
Definition nearest (m e : Z) : float := binary_normalize prec emax m e false.

(** A float that an operation on ints is to return: a result too large
    raises OverflowError ([None]). *)
Definition in_range (x : float) : option float :=
  match x with
  | S754_infinity _ => None
  | _ => Some x
  end.

(** [float(n)] on an int, as the arithmetic applies it to an int operand. *)
Definition float_of_int (n : Z) : option float := in_range (nearest n 0).

(** [x / y] on floats: ZeroDivisionError ([None]) when [y] is zero. *)
Definition truediv (x y : float) : option float :=
  match y with
  | S754_zero _ => None
  | _ => Some (SFdiv prec emax x y)
  end.

(** [x * y] on floats: it never raises. *)
Definition mul (x y : float) : float := SFmul prec emax x y.

(** Python's [int(x)] on a float: rounding toward zero; OverflowError on an
    infinity and ValueError on a NaN ([None]). *)
Definition int (x : float) : option Z :=
  match x with
  | S754_zero _ => Some 0%Z
  | S754_finite s m e =>
      let magnitude := Z.shiftl (Z.pos m) e in
      Some (if s then (- magnitude)%Z else magnitude)
  | S754_infinity _ => None
  | S754_nan => None
  end.

(** The rational a finite float stands for. *)
Definition value (x : float) : Q :=
  match x with
  | S754_finite s m e =>
      let magnitude :=
        match e with
        | Z0 => inject_Z (Z.pos m)
        | Z.pos k => inject_Z (Z.pos m * 2 ^ Z.pos k)
        | Z.neg k => (Z.pos m # Pos.pow 2 k)%Q
        end in
      if s then Qopp magnitude else magnitude
  | _ => 0%Q
  end.

Record settings : Type := mkSettings {
  samplerate : Z;                (* int(config['polly']['SampleRate']) *)
  VAD_CHUNK_SIZE_BYTES : nat;    (* the frame size *)
  vad_threshold : Q;             (* config['vad']['threshold'] *)
  silence_sec : float            (* config['vad']['silence_sec'] *)
}.

(** The configuration as shipped; the silence of 1.5 seconds is the float
    [3 * 2^-1]. *)
Definition shipped : settings :=
  {| samplerate := 8000;
     VAD_CHUNK_SIZE_BYTES := 512;
     vad_threshold := (1 # 2)%Q;
     silence_sec := nearest 3 (-1) |}.

(** [self.VAD_CHUNK_SIZE_BYTES / 2], a true division of two ints: the
    float nearest to the quotient, here to [size * 2^-1]. *)
Definition half_frame (cfg : settings) : option float :=
  in_range (nearest (Z.of_nat (VAD_CHUNK_SIZE_BYTES cfg)) (-1)).

(** [self.samplerate / (self.VAD_CHUNK_SIZE_BYTES / 2)]: an int by a
    float. *)
Definition chunks_per_second (cfg : settings) : option float :=
  match half_frame cfg with
  | None => None
  | Some half =>
      match float_of_int (samplerate cfg) with
      | None => None
      | Some rate => truediv rate half
      end
  end.

(** [int(chunks_per_second * config['vad']['silence_sec'])]; [None] when
    one of the operations raises. *)
Definition silence_limit (cfg : settings) : option Z :=
  match chunks_per_second cfg with
  | None => None
  | Some per_second => int (mul per_second (silence_sec cfg))
  end.

(** ** [handlers/websocket_handler.py]: the per-frame decision *)

(** An asyncio task as its owner sees it: [cancel()] only asks, and
    [done()] holds once the task has unwound. *)
Inductive task_state : Type :=
| Running
| CancelRequested
| Done.

Definition done (t : task_state) : bool :=
  match t with Done => true | _ => false end.

(** One inbound message of the connection: the iterator yields [bytes] for
    a binary frame and [str] for a text frame. *)
Inductive message : Type :=
| Binary (data : bytes)
| Text (text : str).

(** What the handler does that others can see.  A call on the
    transcription transport is recorded when it returns; the one call that
    is made again after it raised, [end_stream()], is recorded also when it
    raises. *)
Inductive action : Type :=
| CreateTask (text : str)          (* create_task(invoke_bedrock(ws, text)) *)
| Receive (raw_chunk : message)    (* one inbound message *)
| BargeInDetected
| CancelBotTask
| CancelTranscriptTask
| EndStream                        (* input_stream.end_stream() returned *)
| EndStreamFailed                  (* input_stream.end_stream() raised *)
| SendAudioEvent (chunk : bytes)
| EndOfSpeech
| AwaitTranscriptTask
| StartTranscription (rate : Z)
| HandlerError
| Cleanup.

(** The handler's fields, the locals of [handle_connection], and the state
    it shares with the turns.  [bot_response_task] is the task the field
    names, with the text it was created for. *)
Record handler : Type := mkHandler {
  ws_app_state : AppState;
  audio_buffer : bytes;
  bot_response_task : option (str * task_state);
  is_transcribing : bool;
  transcribe_stream : option Z;
  transcript_handler : bool;
  transcript_task : option task_state;
  silence_frames : Z;
  actions : list action
}.

(** [WebSocketHandler.__init__] and the first locals. *)
Definition handler_init : handler :=
  {| ws_app_state := AppState_init;
     audio_buffer := [];
     bot_response_task := None;
     is_transcribing := false;
     transcribe_stream := None;
     transcript_handler := false;
     transcript_task := None;
     silence_frames := 0%Z;
     actions := [] |}.

Definition act (a : action) (h : handler) : handler :=
  {| ws_app_state := ws_app_state h; audio_buffer := audio_buffer h;
     bot_response_task := bot_response_task h;
     is_transcribing := is_transcribing h;
     transcribe_stream := transcribe_stream h;
     transcript_handler := transcript_handler h;
     transcript_task := transcript_task h;
     silence_frames := silence_frames h;
     actions := actions h ++ [a] |}.

Definition set_app (st : AppState) (h : handler) : handler :=
  {| ws_app_state := st; audio_buffer := audio_buffer h;
     bot_response_task := bot_response_task h;
     is_transcribing := is_transcribing h;
     transcribe_stream := transcribe_stream h;
     transcript_handler := transcript_handler h;
     transcript_task := transcript_task h;
     silence_frames := silence_frames h;
     actions := actions h |}.

Definition set_buffer (b : bytes) (h : handler) : handler :=
  {| ws_app_state := ws_app_state h; audio_buffer := b;
     bot_response_task := bot_response_task h;
     is_transcribing := is_transcribing h;
     transcribe_stream := transcribe_stream h;
     transcript_handler := transcript_handler h;
     transcript_task := transcript_task h;
     silence_frames := silence_frames h;
     actions := actions h |}.

Definition set_bot_task (t : option (str * task_state)) (h : handler)
  : handler :=
  {| ws_app_state := ws_app_state h; audio_buffer := audio_buffer h;
     bot_response_task := t;
     is_transcribing := is_transcribing h;
     transcribe_stream := transcribe_stream h;
     transcript_handler := transcript_handler h;
     transcript_task := transcript_task h;
     silence_frames := silence_frames h;
     actions := actions h |}.

Definition set_transcript_task (t : option task_state) (h : handler)
  : handler :=
  {| ws_app_state := ws_app_state h; audio_buffer := audio_buffer h;
     bot_response_task := bot_response_task h;
     is_transcribing := is_transcribing h;
     transcribe_stream := transcribe_stream h;
     transcript_handler := transcript_handler h;
     transcript_task := t;
     silence_frames := silence_frames h;
     actions := actions h |}.

Definition set_silence_frames (n : Z) (h : handler) : handler :=
  {| ws_app_state := ws_app_state h; audio_buffer := audio_buffer h;
     bot_response_task := bot_response_task h;
     is_transcribing := is_transcribing h;
     transcribe_stream := transcribe_stream h;
     transcript_handler := transcript_handler h;
     transcript_task := transcript_task h;
     silence_frames := n;
     actions := actions h |}.

(** [is_transcribing, transcribe_stream, transcript_handler, transcript_task
    = ...] *)
Definition set_session (on : bool) (stream : option Z) (th : bool)
  (task : option task_state) (h : handler) : handler :=
  {| ws_app_state := ws_app_state h; audio_buffer := audio_buffer h;
     bot_response_task := bot_response_task h;
     is_transcribing := on;
     transcribe_stream := stream;
     transcript_handler := th;
     transcript_task := task;
     silence_frames := silence_frames h;
     actions := actions h |}.

(** What another task does while the handler is suspended.  The turns
    share the [AppState] with the handler, and the handler holds only the
    task it created last: an earlier turn, whose task the field no longer
    names, goes on running.
    - [TurnStarts]: a turn reaches its [start_bot_speech];
    - [TurnEnds]: the turn the handler holds unwinds through its
      [stop_bot_speech], and its task is done;
    - [OrphanTurnEnds]: an earlier turn unwinds through its
      [stop_bot_speech];
    - [TurnInterrupts]: the relay of a turn finds the connection closed and
      runs [interrupt()];
    - [TurnNeverRuns]: the task the handler holds, cancelled before its
      first step, is done without having run;
    - [TranscriptTaskEnds]: the transcript task comes to its end. *)
Inductive background : Type :=
| TurnStarts
| TurnEnds
| TranscriptTaskEnds
| OrphanTurnEnds
| TurnInterrupts
| TurnNeverRuns.

Definition apply_background (h : handler) (b : background) : handler :=
  match b with
  | TurnStarts => set_app (start_bot_speech (ws_app_state h)) h
  | TurnEnds =>
      let h := set_app (stop_bot_speech (ws_app_state h)) h in
      match bot_response_task h with
      | Some (text, _) => set_bot_task (Some (text, Done)) h
      | None => h
      end
  | TranscriptTaskEnds =>
      match transcript_task h with
      | Some _ => set_transcript_task (Some Done) h
      | None => h
      end
  | OrphanTurnEnds => set_app (stop_bot_speech (ws_app_state h)) h
  | TurnInterrupts => set_app (interrupt (ws_app_state h)) h
  | TurnNeverRuns =>
      match bot_response_task h with
      | Some (text, CancelRequested) => set_bot_task (Some (text, Done)) h
      | _ => h
      end
  end.

(** The moves of the other tasks during one suspension of the handler. *)
Definition other_tasks (moves : list background) (h : handler) : handler :=
  fold_left apply_background moves h.

(** What the surroundings decide for one frame: what other tasks did before
    it is examined; what they do during the [k]-th [await] of the frame;
    what the classifier answers ([None]: the conversion or the model
    raised); the final transcripts the transcription service has delivered
    by the time its task is awaited; and whether the [k]-th awaited call of
    the frame (on the transcription transport, or the wait for the
    transcript task) raises. *)
Record frame_env : Type := mkFrameEnv {
  before : list background;
  during : nat -> list background;
  speech_prob : option Q;
  full_transcript : list str;
  transport_fails : nat -> bool
}.

(** [_is_speech] *)
Definition _is_speech (cfg : settings) (chunk : bytes) (e : frame_env)
  : bool :=
  if length chunk <? VAD_CHUNK_SIZE_BYTES cfg then false
  else
    match speech_prob e with
    | Some p => negb (Qle_bool p (vad_threshold cfg))
    | None => false
    end.

(** [" ".join(parts)] *)
Fixpoint join_spaces (parts : list str) : str :=
  match parts with
  | [] => []
  | [p] => p
  | p :: later => p ++ " "%char :: join_spaces later
  end.

(** [_handle_transcription] *)
Definition _handle_transcription (final_transcript : str) (h : handler)
  : handler :=
  if truthy final_transcript
  then act (CreateTask final_transcript)
         (set_bot_task (Some (final_transcript, Running)) h)
  else h.

(** [TranscriptHandler.get_full_transcript], whose callback is
    [_handle_transcription]. *)
Definition get_full_transcript (transcripts : list str) (h : handler)
  : handler :=
  let full := strip (join_spaces transcripts) in
  if truthy full then _handle_transcription full h else h.

(** How a stretch of the handler's code ends: normally, or by an exception
    that leaves the loop (the state is the one reached when it was raised). *)
Inductive status : Type :=
| Normal
| Raises.

(** Lines 74-80 of the barge-in branch, which have no [await]: the turn
    is cancelled and the interrupt event raised, the transcript task is
    cancelled. *)
Definition request_cancellations (h : handler) : handler :=
  let h := act BargeInDetected h in
  let h :=
    match bot_response_task h with
    | Some (text, t) =>
        if negb (done t)
        then set_app (interrupt (ws_app_state h))
               (act CancelBotTask
                  (set_bot_task (Some (text, CancelRequested)) h))
        else h
    | None => h
    end in
  match transcript_task h with
  | Some t =>
      if negb (done t)
      then act CancelTranscriptTask
             (set_transcript_task (Some CancelRequested) h)
      else h
  | None => h
  end.

(** Lines 74-84: the barge-in branch.  Its one [await] is the end of the
    transcription stream, taken when a stream is open: the other tasks move
    there, and if the call raises, the locals are not reset. *)
Definition barge_in (e : frame_env) (h : handler) : handler * status :=
  let h := request_cancellations h in
  match transcribe_stream h with
  | Some _ =>
      let h := other_tasks (during e 0) h in
      if transport_fails e 0 then (act EndStreamFailed h, Raises)
      else (set_session false None false None (act EndStream h), Normal)
  | None => (set_session false None false None h, Normal)
  end.

(** Lines 86-99: the branch taken while transcribing.  The stream is used
    without a test: with none, the attribute access raises; so does the
    computation of the limit, made on every silent frame, when one of its
    operations raises.  The awaits are the sending of the frame, the end of
    the stream and the wait for the transcript task. *)
Definition listening (cfg : settings) (chunk : bytes) (e : frame_env)
  (is_speech_chunk : bool) (h : handler) : handler * status :=
  match transcribe_stream h with
  | None => (h, Raises)
  | Some _ =>
      let h := other_tasks (during e 0) h in
      if transport_fails e 0 then (h, Raises)
      else
        let h := act (SendAudioEvent chunk) h in
        if negb is_speech_chunk
        then
          let h := set_silence_frames (silence_frames h + 1)%Z h in
          match silence_limit cfg with
          | None => (h, Raises)
          | Some limit =>
              if (limit <=? silence_frames h)%Z
              then
                let h := act EndOfSpeech h in
                let h := other_tasks (during e 1) h in
                if transport_fails e 1 then (act EndStreamFailed h, Raises)
                else
                  let h := act EndStream h in
                  let h := other_tasks (during e 2) h in
                  if transport_fails e 2 then (h, Raises)
                  else
                    let h := act AwaitTranscriptTask h in
                    let h := get_full_transcript (full_transcript e) h in
                    (set_session false None false None h, Normal)
              else (h, Normal)
          end
        else (set_silence_frames 0%Z h, Normal)
  end.

(** Lines 101-108: speech while idle opens a transcription.  The awaits are
    the opening of the stream and the sending of the frame. *)
Definition start_listening (cfg : settings) (chunk : bytes) (e : frame_env)
  (h : handler) : handler * status :=
  let h := set_session true (transcribe_stream h) (transcript_handler h)
             (transcript_task h) h in
  let h := set_silence_frames 0%Z h in
  let h := other_tasks (during e 0) h in
  if transport_fails e 0 then (h, Raises)
  else
    let h := act (StartTranscription (samplerate cfg)) h in
    let h := set_session true (Some (samplerate cfg)) true (Some Running) h in
    let h := other_tasks (during e 1) h in
    if transport_fails e 1 then (h, Raises)
    else (act (SendAudioEvent chunk) h, Normal).

(** Lines 72-108: one frame. *)
Definition process_frame (cfg : settings) (chunk : bytes) (e : frame_env)
  (h : handler) : handler * status :=
  let h := fold_left apply_background (before e) h in
  let is_speech_chunk := _is_speech cfg chunk e in
  if is_bot_speaking (ws_app_state h) && is_speech_chunk then barge_in e h
  else if is_transcribing h then listening cfg chunk e is_speech_chunk h
  else if is_speech_chunk then start_listening cfg chunk e h
  else (h, Normal).

(** The frames of one inbound message, in order; [n] numbers the
    surroundings of the connection, for the frames to tell them apart: the
    number returned is that of the first surroundings not yet used. *)
Fixpoint process_frames (cfg : settings) (env : nat -> frame_env)
  (frames : list bytes) (n : nat) (h : handler) : handler * status * nat :=
  match frames with
  | [] => (h, Normal, n)
  | chunk :: later =>
      match process_frame cfg chunk (env n) h with
      | (h', Normal) => process_frames cfg env later (S n) h'
      | (h', Raises) => (h', Raises, S n)
      end
  end.

(** [async for raw_chunk in self.websocket]: the messages until the
    connection closes.  A text message makes [self.audio_buffer +=
    raw_chunk] raise (bytes and str do not add), after whatever the other
    tasks did while the handler waited for it.  The frames of a binary
    message are cut first and examined next; the source cuts one, examines
    it, and cuts the next, which makes a difference only to the buffer left
    behind when a frame raises, and nothing reads the buffer after that.
    The frame size is not zero: with a size of zero the source's inner loop
    never ends, where [on_raw_chunk] stops with its fuel. *)
Fixpoint receive_loop (cfg : settings) (env : nat -> frame_env)
  (inbound : list message) (n : nat) (h : handler)
  : handler * status * nat :=
  match inbound with
  | [] => (h, Normal, n)
  | Text text :: _ =>
      let h := act (Receive (Text text)) h in
      (other_tasks (before (env n)) h, Raises, S n)
  | Binary raw_chunk :: later =>
      let h := act (Receive (Binary raw_chunk)) h in
      let '(frames, rest) :=
        on_raw_chunk (VAD_CHUNK_SIZE_BYTES cfg) (audio_buffer h) raw_chunk in
      let h := set_buffer rest h in
      match process_frames cfg env frames n h with
      | (h', Normal, n') => receive_loop cfg env later n' h'
      | (h', Raises, n') => (h', Raises, n')
      end
  end.

(** The [finally] of [handle_connection].  When the loop ended with the
    connection, the other tasks moved while the handler waited for the
    message that did not come; after an exception the [finally] follows
    with no [await] between.  An [end_stream()] that raises here is
    swallowed by the bare [except]. *)
Definition cleanup (e : frame_env) (after : status) (h : handler)
  : handler :=
  let h :=
    match after with
    | Normal => other_tasks (before e) h
    | Raises => h
    end in
  let h := act Cleanup h in
  let h :=
    match bot_response_task h with
    | Some (text, t) =>
        if negb (done t)
        then act CancelBotTask (set_bot_task (Some (text, CancelRequested)) h)
        else h
    | None => h
    end in
  let h :=
    match transcript_task h with
    | Some t =>
        if negb (done t)
        then act CancelTranscriptTask
               (set_transcript_task (Some CancelRequested) h)
        else h
    | None => h
    end in
  match transcribe_stream h with
  | Some _ =>
      if transport_fails e 0 then act EndStreamFailed h
      else act EndStream h
  | None => h
  end.

(** The greeting of line 59. *)
Definition greeting : str := lit "User said hello.".

(** [handle_connection]: the greeting, the loop, and the [finally]; an
    exception of the loop is logged first.  The surroundings of the
    [finally] are the first that the loop has not used. *)
Definition handle_connection (cfg : settings) (env : nat -> frame_env)
  (inbound : list message) : handler :=
  let h := _handle_transcription greeting handler_init in
  match receive_loop cfg env inbound 0 h with
  | (h', Normal, n) => cleanup (env n) Normal h'
  | (h', Raises, n) => cleanup (env n) Raises (act HandlerError h')
  end.

(** How often the end of an utterance has been detected so far. *)
Fixpoint detections (l : list action) : nat :=
  match l with
  | [] => 0
  | EndOfSpeech :: later => S (detections later)
  | _ :: later => detections later
  end.

(** The frames of a stretch of the connection, each with what the
    surroundings decide for it. *)
Fixpoint feed (cfg : settings) (frames : list (bytes * frame_env))
  (h : handler) : handler * status :=
  match frames with
  | [] => (h, Normal)
  | (chunk, e) :: later =>
      match process_frame cfg chunk e h with
      | (h', Normal) => feed cfg later h'
      | (h', Raises) => (h', Raises)
      end
  end.

(** [task and not task.done()] *)
Definition live (t : option task_state) : bool :=
  match t with
  | Some t => negb (done t)
  | None => false
  end.

(** Surroundings in which no awaited call raises. *)
Definition transport_works (e : frame_env) : Prop :=
  forall k, transport_fails e k = false.

(** A frame that the classifier takes for silence and on which no awaited
    call raises. *)
Definition silence (cfg : settings) (f : bytes * frame_env) : Prop :=
  _is_speech cfg (fst f) (snd f) = false /\ transport_works (snd f).

(** The number of silence frames that ends an utterance: the limit the
    code computes in floats, [int(R / (FRAME_SIZE / 2) * S)], and one frame
    at least. *)
Definition frames_to_end (cfg : settings) : option Z :=
  match silence_limit cfg with
  | Some limit => Some (Z.max 1 limit)
  | None => None
  end.

(** A whole frame of the shipped size, all zero bytes. *)
Definition zero_frame : bytes := repeat Byte.x00 512.

(** Surroundings in which the other tasks do nothing during the awaits of
    the frame and no awaited call raises. *)
Definition calm (moves : list background) (p : option Q)
  (transcripts : list str) : frame_env :=
  {| before := moves; during := fun _ => []; speech_prob := p;
     full_transcript := transcripts; transport_fails := fun _ => false |}.

(** Surroundings in which the classifier answers [p] and nothing else
    happens. *)
Definition heard (p : Q) : frame_env := calm [] (Some p) [].

(** Surroundings in which the other tasks make no move. *)
Definition still (e : frame_env) : Prop :=
  before e = [] /\ forall k, during e k = [].

(** [self.bot_response_task and not self.bot_response_task.done()] *)
Definition bot_live (h : handler) : bool :=
  match bot_response_task h with
  | Some (_, t) => negb (done t)
  | None => false
  end.

(** The handler after the first frame of an utterance, with the shipped
    configuration: listening, no silence counted yet. *)
Definition listening_start : handler :=
  fst (process_frame shipped zero_frame (heard (9 # 10)%Q) handler_init).

(** The handler while its greeting turn speaks. *)
Definition greeting_launched : handler :=
  _handle_transcription greeting handler_init.

(** Surroundings of a barge-in: the turn has started to speak, and the
    classifier hears speech. *)
Definition speech_over_turn : frame_env :=
  calm [TurnStarts] (Some (9 # 10)%Q) [].

(** [grows_by h h']: the handler went from [h] to [h'] by doing more. *)
Definition grows_by (h h' : handler) : Prop :=
  exists t, actions h' = actions h ++ t.

(** ** Comparing texts *)

(** A text without its whitespace. *)
Definition nospace (s : str) : str := filter (fun c => negb (isspace c)) s.

(** The punctuation the split pattern matches. *)
Definition is_punctuation (c : ascii) : bool :=
  is_terminator c || Ascii.eqb c comma.

(** [deletes P short long]: [short] is [long] with some of its elements
    that satisfy [P] left out, and nothing else changed. *)
Inductive deletes {A : Type} (P : A -> bool) : list A -> list A -> Prop :=
| deletes_nil : deletes P [] []
| deletes_keep (x : A) (short long : list A) :
    deletes P short long -> deletes P (x :: short) (x :: long)
| deletes_drop (x : A) (short long : list A) :
    P x = true -> deletes P short long -> deletes P short (x :: long).

(** The generator with nothing interrupting it, as a function of the
    fragments and of the buffer it starts from. *)
Fixpoint chunks_from (fragments : list str) (buffer : str) : list str :=
  match fragments with
  | [] => if truthy (strip buffer) then [strip buffer] else []
  | text_chunk :: later =>
      if negb (truthy text_chunk) then chunks_from later buffer
      else
        let '(chunks, buffer) := split_buffer (buffer ++ text_chunk) in
        chunks ++ chunks_from later buffer
  end.

(** A world after some more events. *)
Definition extend (t : list event) (w : world) : world :=
  {| app_state := app_state w;
     polly_calls := polly_calls w;
     trace := trace w ++ t |}.

(** ** Classes of events and of collaborators *)

(** The events of relaying one synthesized stream. *)
Definition relay_event (e : event) : bool :=
  match e with
  | Send _ | CloseAudio => true
  | _ => false
  end.

(** The events of speaking one text, after the synthesis call itself. *)
Definition after_synthesis (e : event) : bool :=
  match e with
  | PollyFailed | Send _ | CloseAudio => true
  | _ => false
  end.

(** The events of the generator and of speaking its chunks: everything a
    turn does inside its [try]. *)
Definition inside_try (e : event) : bool :=
  match e with
  | Yielded _ | Synthesize _ | PollyFailed | Send _ | CloseAudio => true
  | _ => false
  end.

(** [grows allowed w w']: from [w] to [w'] the trace got longer by events
    of the class [allowed]. *)
Definition grows (allowed : event -> bool) (w w' : world) : Prop :=
  exists t, trace w' = trace w ++ t /\ forallb allowed t = true.

(** A relay step that leaves the interrupt event alone. *)
Definition quiet_step (s : relay_step) : bool :=
  match s with
  | Block _ false | RelayCancelled | RelayFails => true
  | _ => false
  end.

(** A synthesis collaborator during whose streams nobody interrupts: no
    barge-in, and the connection stays open. *)
Definition quiet (polly : nat -> str -> synth_result) : Prop :=
  forall n text,
    match polly n text with
    | SynthRaises => True
    | AudioStream steps => forallb quiet_step steps = true
    end.

(** The events of a turn between its first and its last, when its error
    handler is not entered. *)
Definition without_error (e : event) : bool :=
  match e with
  | BedrockError | SpeechStarted | SpeechStopped => false
  | _ => true
  end.

(** ** Predicates of the statements *)

(** The flag invariant: the event is set only while the bot speaks. *)
Definition quiet_means_clear (st : AppState) : Prop :=
  is_bot_speaking st = false -> was_interrupted st = false.

(** A character of a delimiter is whitespace or punctuation. *)
Definition delimiter_char (c : ascii) : bool := isspace c || is_punctuation c.

(** The shape of a split: text, then delimiter and text any number of
    times. *)
Inductive alternating : list str -> Prop :=
| alt_last (text : str) : alternating [text]
| alt_pair (text delimiter : str) (later : list str) :
    Forall (fun c => delimiter_char c = true) delimiter ->
    alternating later ->
    alternating (text :: delimiter :: later).

(** A text without an asterisk. *)
Definition no_asterisk (s : str) : Prop :=
  Forall (fun c => Ascii.eqb c asterisk = false) s.

(** ** [services/langchain_service.py]: the response stream *)

Definition chunk_size : nat := 160.

(** What stands in for an empty reply. *)
Definition no_reply : str := lit "...".

(** What the stream yields when the model run raises. *)
Definition stream_error : str :=
  lit "I'm sorry, I encountered an error. Please try again.".

(** [for i in range(0, len(output), size): yield output[i : i + size]],
    for a positive [size]; [fuel] bounds the iterations, [length output]
    suffices. *)
Fixpoint slices (fuel size : nat) (output : str) : list str :=
  match fuel with
  | O => []
  | S fuel' =>
      match output with
      | [] => []
      | _ :: _ => firstn size output :: slices fuel' size (skipn size output)
      end
  end.

(** [get_response_stream], given what [run_turn] does: the steps of the
    stream it is.  The generator awaits nothing, and its [except Exception]
    turns a failure of the run into one fragment; an exception that is no
    [Exception] goes through. *)
Definition get_response_stream (run_turn : result str) : list stream_step :=
  match run_turn with
  | Ok output =>
      let output := if truthy output then output else no_reply in
      map Fragment (slices (length output) chunk_size output)
  | Raised Exception => [Fragment stream_error]
  | Raised CancelledError => [StreamCancelled]
  end.

(** ** [services/transcribe_service.py]: the transcript handler *)

(** One result of a transcript event: the transcripts of its alternatives
    and whether it is partial. *)
Record transcript_result : Type := mkResult {
  alternatives : list str;
  is_partial : bool
}.

(** [handle_transcript_event], on the results of the event and the list
    [self.full_transcript]. *)
Definition handle_transcript_event (results : list transcript_result)
  (transcripts : list str) : list str :=
  match results with
  | [] => transcripts
  | first :: _ =>
      match alternatives first with
      | [] => transcripts
      | transcript :: _ =>
          if negb (is_partial first)
          then transcripts ++ [transcript]
          else transcripts
      end
  end.

(** The events of one transcription, in order (the library's
    [handle_events] calls [handle_transcript_event] on each). *)
Definition handle_events (events : list (list transcript_result))
  (transcripts : list str) : list str :=
  fold_left (fun acc results => handle_transcript_event results acc)
    events transcripts.

(** The final transcript of an event, if it has one. *)
Definition final_of (results : list transcript_result) : list str :=
  handle_transcript_event results [].

(** The texts of the response tasks created, in order. *)
Fixpoint launches (l : list action) : list str :=
  match l with
  | [] => []
  | CreateTask text :: later => text :: launches later
  | _ :: later => launches later
  end.

(** Surroundings of a silent frame by which the transcription service has
    delivered [transcripts]. *)
Definition silent_with (transcripts : list str) : frame_env :=
  calm [] (Some 0%Q) transcripts.

(** The transcription streams as the actions show them: [open] tells
    whether a stream has been opened and not yet ended.  Opening a stream
    while another is open gives [None]; a call of [end_stream()] that
    raises leaves the stream as it is. *)
Fixpoint stream_open (l : list action) (open : bool) : option bool :=
  match l with
  | [] => Some open
  | StartTranscription _ :: later =>
      if open then None else stream_open later true
  | EndStream :: later => stream_open later false
  | _ :: later => stream_open later open
  end.

Definition is_some {A : Type} (o : option A) : bool :=
  match o with
  | Some _ => true
  | None => false
  end.

(** The handler's stream variable tells what the actions show. *)
Definition tracked (h : handler) : Prop :=
  stream_open (actions h) false = Some (is_some (transcribe_stream h)).

(** Between two frames, moreover, the handler listens exactly when it holds
    a stream. *)
Definition settled (h : handler) : Prop :=
  tracked h /\ is_transcribing h = is_some (transcribe_stream h).

(** Streams were opened one at a time, and the handler still holds the one
    that is open, if one is. *)
Definition held (h : handler) : Prop :=
  exists open,
    stream_open (actions h) false = Some open
    /\ (open = true -> transcribe_stream h <> None).

(** The last of a list of actions. *)
Definition ends_with (a : action) (l : list action) : Prop :=
  exists l', l = l' ++ [a].

(** A binary message. *)
Definition binary (m : message) : Prop :=
  match m with
  | Binary _ => True
  | Text _ => False
  end.

(** A handler that holds no transcription, and the greeting turn. *)
Definition idle (h : handler) : Prop :=
  is_transcribing h = false
  /\ transcribe_stream h = None
  /\ transcript_task h = None
  /\ exists t, bot_response_task h = Some (greeting, t).

(** Surroundings in which the classifier raises on every frame, the turn
    ends, and the transcription transport is down. *)
Definition deaf : frame_env :=
  {| before := [TurnEnds]; during := fun _ => []; speech_prob := None;
     full_transcript := []; transport_fails := fun _ => true |}.

(** Surroundings in which speech is heard and the transport is down. *)
Definition speech_transport_down : frame_env :=
  {| before := []; during := fun _ => []; speech_prob := Some (9 # 10)%Q;
     full_transcript := []; transport_fails := fun _ => true |}.

(** ** [core/utils.py] *)

(** [==] on strings. *)
Fixpoint str_eqb (a b : str) : bool :=
  match a, b with
  | [], [] => true
  | x :: a', y :: b' => Ascii.eqb x y && str_eqb a' b'
  | _, _ => false
  end.

(** [printer]: the lines it prints, [log_level] being
    [config['log_level']]. *)
Definition printer (log_level text level : str) : list str :=
  if (str_eqb log_level (lit "info") || str_eqb log_level (lit "debug"))
     && str_eqb level (lit "info")
  then [text]
  else if str_eqb log_level (lit "debug") && str_eqb level (lit "debug")
  then [text]
  else [].

(** ** Further functions of the statements *)

(** The audio a synthesized stream delivers before its relay fails, is
    cancelled, or reads the end of the stream: the data of its leading
    blocks. *)
Fixpoint block_data (steps : list relay_step) : list bytes :=
  match steps with
  | Block data _ :: later =>
      if length data =? 0 then [] else data :: block_data later
  | _ => []
  end.

(** An event of the generator alone. *)
Definition is_yield (e : event) : bool :=
  match e with
  | Yielded _ => true
  | _ => false
  end.

(** A text without punctuation. *)
Definition punct_free (s : str) : Prop :=
  Forall (fun c => is_punctuation c = false) s.

(** A text that does not start with whitespace. *)
Definition starts_clean (s : str) : Prop :=
  match s with
  | [] => True
  | c :: _ => isspace c = false
  end.

(** A text with no whitespace at either end. *)
Definition stripped (s : str) : Prop :=
  starts_clean s /\ starts_clean (rev s).

(** What is left of a delimiter once stripped: nothing, or one punctuation
    mark. *)
Definition tail_mark (tail : str) : Prop :=
  tail = [] \/ exists p, is_punctuation p = true /\ tail = [p].

(** The shape of a chunk: a sentence without punctuation and without
    whitespace at its ends, not empty, then at most one punctuation mark. *)
Definition chunk_shape (c : str) : Prop :=
  exists body tail,
    c = body ++ tail
    /\ body <> []
    /\ punct_free body
    /\ stripped body
    /\ tail_mark tail.

(** The shape of a split whose scan had fuel enough: the texts hold no
    punctuation, the delimiters strip to at most one mark. *)
Inductive split_shape : list str -> Prop :=
| shape_last (text : str) : punct_free text -> split_shape [text]
| shape_pair (text delimiter : str) (later : list str) :
    punct_free text ->
    tail_mark (strip delimiter) ->
    split_shape later ->
    split_shape (text :: delimiter :: later).

(** A text in which the split pattern finds nothing: no punctuation and no
    newline. *)
Definition no_delimiter (s : str) : Prop :=
  Forall (fun c => is_punctuation c = false /\ Ascii.eqb c newline = false) s.

(** A text of whitespace and punctuation only. *)
Definition only_delimiters (s : str) : Prop :=
  Forall (fun c => delimiter_char c = true) s.

(** A text of whitespace only. *)
Definition blank (s : str) : Prop := Forall (fun c => isspace c = true) s.

(** Whitespace without a newline. *)
Definition spaces (s : str) : Prop :=
  Forall (fun c => isspace c = true /\ Ascii.eqb c newline = false) s.

(** A delimiter with the whitespace around it: a terminator ([.] [?] [!])
    after whitespace that holds no newline, or a comma after any
    whitespace, or a newline after whitespace that holds none; whitespace
    follows. *)
Inductive gap : str -> Prop :=
| gap_terminator (ws : str) (p : ascii) (ws' : str) :
    spaces ws -> is_terminator p = true -> blank ws' ->
    gap (ws ++ p :: ws')
| gap_comma (ws ws' : str) :
    blank ws -> blank ws' -> gap (ws ++ comma :: ws')
| gap_newline (ws ws' : str) :
    spaces ws -> blank ws' -> gap (ws ++ newline :: ws').

(** A character of a word: neither whitespace nor punctuation. *)
Definition plain (c : ascii) : Prop :=
  isspace c = false /\ is_punctuation c = false.

(** A sentence as it is spoken: not empty, no whitespace at its ends, and
    nothing in it that the split pattern matches. *)
Definition sentence (body : str) : Prop :=
  body <> [] /\ stripped body /\ no_delimiter body.

(** [rebuilds chunks text]: the text is the chunks, in order, each as it
    stands, but for
    - the whitespace before a sentence, between a sentence and the mark
      that ends it, and after that mark: a sentence [body] followed by the
      delimiter [d] gives the chunk [body ++ strip d], which is [body] with
      the mark of [d] if it has one;
    - the delimiters that come where a sentence is to start, with nothing
      but whitespace before them: these give no chunk, and their mark, if
      they have one, is lost. *)
Inductive rebuilds : list str -> str -> Prop :=
| rebuilds_end (ws : str) :
    blank ws -> rebuilds [] ws
| rebuilds_last (ws body ws' : str) :
    blank ws -> sentence body -> blank ws' ->
    rebuilds [body] (ws ++ body ++ ws')
| rebuilds_spoken (ws body d rest : str) (chunks : list str) :
    blank ws -> sentence body -> gap d ->
    rebuilds chunks rest ->
    rebuilds ((body ++ strip d) :: chunks) (ws ++ body ++ d ++ rest)
| rebuilds_dropped (d rest : str) (chunks : list str) :
    gap d ->
    rebuilds chunks rest ->
    rebuilds chunks (d ++ rest).

(** The shape of a split, delimiters as gaps: the texts hold nothing the
    pattern matches. *)
Inductive split_gaps : list str -> Prop :=
| gaps_last (text : str) : no_delimiter text -> split_gaps [text]
| gaps_pair (text delimiter : str) (later : list str) :
    no_delimiter text ->
    gap delimiter ->
    split_gaps later ->
    split_gaps (text :: delimiter :: later).

(** The chunks the uninterrupted generator yields while the stream lasts,
    and the buffer it holds when the stream ends. *)
Fixpoint emitted (fragments : list str) (buffer : str) : list str * str :=
  match fragments with
  | [] => ([], buffer)
  | text_chunk :: later =>
      if negb (truthy text_chunk) then emitted later buffer
      else
        let '(chunks, buffer) := split_buffer (buffer ++ text_chunk) in
        let '(chunks', buffer) := emitted later buffer in
        (chunks ++ chunks', buffer)
  end.

(** [adds_no_apology w w']: from [w] to [w'] the trace got longer, and not
    by a submission of the apology. *)
Definition adds_no_apology (w w' : world) : Prop :=
  exists t, trace w' = trace w ++ t /\ ~ In (Synthesize apology) t.

(* ================================================================== *)
(** * Properties *)
(* ================================================================== *)

(** ** AppState *)

Lemma apply_op_keeps_invariant (st : AppState) (o : state_op) :
  quiet_means_clear st -> quiet_means_clear (apply_op st o).
Proof.
  unfold quiet_means_clear.
  destruct st as [[|] ev], o; unfold interrupt; cbn; intros H1 H2;
    auto; discriminate.
Qed.

Lemma run_ops_keeps_invariant (ops : list state_op) :
  forall st, quiet_means_clear st -> quiet_means_clear (run_ops ops st).
Proof.
  induction ops as [|o ops IH]; intros st Hst; cbn; auto.
  apply IH. now apply apply_op_keeps_invariant.
Qed.

(** C4. For every sequence of AppState operations issued from a fresh state:
    whenever the speaking flag is false, [was_interrupted] answers false;
    [interrupt] changes nothing when the bot is not speaking; and
    [start_bot_speech] and [stop_bot_speech] each leave the interrupt event
    cleared. *)
Theorem C4_turn_state_invariant :
  forall ops : list state_op,
    let st := run_ops ops AppState_init in
    (is_bot_speaking st = false -> was_interrupted st = false)
    /\ (is_bot_speaking st = false -> interrupt st = st)
    /\ was_interrupted (start_bot_speech st) = false
    /\ was_interrupted (stop_bot_speech st) = false
    /\ is_bot_speaking (start_bot_speech st) = true
    /\ is_bot_speaking (stop_bot_speech st) = false.
Proof.
  intros ops st. repeat split; try reflexivity.
  - apply (run_ops_keeps_invariant ops AppState_init).
    intros _. reflexivity.
  - intros Hq. unfold interrupt. now rewrite Hq.
Qed.

(** ** Framing of the inbound bytes *)

Section Framing.

Variable size : nat.
Hypothesis size_pos : 0 < size.

(** Beyond [length buf] the fuel plays no part: the loop leaves by its own
    test. *)
Lemma take_frames_fuel (fuel : nat) :
  forall (buf : bytes) (fuel' : nat),
    length buf <= fuel -> length buf <= fuel' ->
    take_frames fuel size buf = take_frames fuel' size buf.
Proof.
  induction fuel as [|fuel IH]; intros buf fuel' Hf Hf'.
  - destruct buf; [|cbn in Hf; lia].
    destruct fuel'; cbn; [reflexivity|].
    destruct size; [lia|reflexivity].
  - destruct fuel' as [|fuel'].
    + destruct buf; [|cbn in Hf'; lia].
      cbn. destruct size; [lia|reflexivity].
    + cbn. destruct (size <=? length buf) eqn:Hle; [|reflexivity].
      apply Nat.leb_le in Hle.
      rewrite (IH (skipn size buf) fuel'); [reflexivity| |];
        rewrite length_skipn; lia.
Qed.

Lemma take_frames_step (buf : bytes) :
  take_frames (length buf) size buf =
  if size <=? length buf
  then let '(frames, rest) :=
         take_frames (length (skipn size buf)) size (skipn size buf) in
       (firstn size buf :: frames, rest)
  else ([], buf).
Proof.
  destruct buf as [|b buf].
  - cbn. destruct size; [lia|reflexivity].
  - cbn [length take_frames].
    destruct (size <=? S (length buf)) eqn:Hle; [|reflexivity].
    apply Nat.leb_le in Hle.
    rewrite (take_frames_fuel (length buf)
               (skipn size (b :: buf)) (length (skipn size (b :: buf))));
      [reflexivity| |lia].
    rewrite length_skipn. cbn [length]. lia.
Qed.

(** What the loop returns: whole frames, in order, and a short remainder,
    together exactly the bytes it was given. *)
Lemma take_frames_sound :
  forall (n : nat) (buf : bytes), length buf <= n ->
    let '(frames, rest) := take_frames (length buf) size buf in
    concat frames ++ rest = buf
    /\ Forall (fun f => length f = size) frames
    /\ length rest < size.
Proof.
  induction n as [|n IH]; intros buf Hn.
  - destruct buf; [|cbn in Hn; lia]. cbn. repeat split; auto.
  - rewrite take_frames_step.
    destruct (size <=? length buf) eqn:Hle.
    + apply Nat.leb_le in Hle.
      specialize (IH (skipn size buf)).
      destruct (take_frames (length (skipn size buf)) size (skipn size buf))
        as [frames rest].
      destruct IH as (Hcat & Hall & Hshort);
        [rewrite length_skipn; lia|].
      repeat split; auto.
      * cbn [concat]. rewrite <- app_assoc, Hcat. apply firstn_skipn.
      * constructor; auto. rewrite length_firstn. lia.
    + apply Nat.leb_gt in Hle. cbn. repeat split; auto.
Qed.

(** Bytes that arrive later do not change the frames already cut: the loop
    on [buf ++ more] cuts the frames of [buf], then goes on with what [buf]
    left over followed by [more]. *)
Lemma take_frames_app (more : bytes) :
  forall (n : nat) (buf : bytes), length buf <= n ->
    forall frames rest,
      take_frames (length buf) size buf = (frames, rest) ->
      take_frames (length (buf ++ more)) size (buf ++ more) =
      let '(frames', rest') :=
        take_frames (length (rest ++ more)) size (rest ++ more) in
      (frames ++ frames', rest').
Proof.
  induction n as [|n IH]; intros buf Hn frames rest Hcut.
  - destruct buf; [|cbn in Hn; lia].
    cbn in Hcut. injection Hcut as <- <-.
    cbn [app].
    now destruct (take_frames (length more) size more).
  - rewrite take_frames_step in Hcut.
    destruct (size <=? length buf) eqn:Hle.
    + apply Nat.leb_le in Hle.
      destruct (take_frames (length (skipn size buf)) size (skipn size buf))
        as [frames0 rest0] eqn:Hcut0.
      injection Hcut as <- <-.
      rewrite (take_frames_step (buf ++ more)).
      replace (size <=? length (buf ++ more)) with true
        by (symmetry; apply Nat.leb_le; rewrite length_app; lia).
      rewrite skipn_app, firstn_app.
      replace (size - length buf) with 0 by lia.
      cbn [skipn firstn]. rewrite app_nil_r.
      rewrite (IH (skipn size buf)) with (frames := frames0) (rest := rest0);
        [|rewrite length_skipn; lia|exact Hcut0].
      now destruct (take_frames (length (rest0 ++ more)) size (rest0 ++ more)).
    + injection Hcut as <- <-. cbn [app].
      now destruct (take_frames (length (buf ++ more)) size (buf ++ more)).
Qed.

(** The connection loop over any chunking equals one cut of everything
    received, provided the buffer it starts from holds no whole frame. *)
Lemma frames_of_chunks_concat (chunks : list bytes) :
  forall audio_buffer : bytes, length audio_buffer < size ->
    frames_of_chunks size audio_buffer chunks =
    on_raw_chunk size audio_buffer (concat chunks).
Proof.
  unfold on_raw_chunk.
  induction chunks as [|c chunks IH]; intros buf Hbuf.
  - cbn [frames_of_chunks concat]. rewrite app_nil_r, take_frames_step.
    replace (size <=? length buf) with false; [reflexivity|].
    symmetry. apply Nat.leb_gt. lia.
  - cbn [frames_of_chunks concat]. unfold on_raw_chunk.
    destruct (take_frames (length (buf ++ c)) size (buf ++ c))
      as [frames rest] eqn:Hcut.
    pose proof (take_frames_sound (length (buf ++ c)) (buf ++ c)
                  (le_n _)) as Hs.
    rewrite Hcut in Hs. destruct Hs as (_ & _ & Hshort).
    rewrite (IH rest Hshort).
    rewrite app_assoc.
    rewrite (take_frames_app (concat chunks) (length (buf ++ c))
               (buf ++ c) (le_n _) frames rest Hcut).
    reflexivity.
Qed.

End Framing.

(** C5. For every byte string and every way of cutting it into inbound
    chunks, appending the chunks to the buffer and taking frames of the
    frame size from its front gives the frames, and leaves the remainder,
    that one chunk holding all the bytes gives; the frames are whole, the
    remainder is shorter than a frame, and frames and remainder together are
    the bytes received, in order. *)
Theorem C5_chunk_boundary_independence :
  forall (size : nat) (chunks : list bytes),
    0 < size ->
    frames_of_chunks size [] chunks = frames_of_chunks size [] [concat chunks]
    /\ (let '(frames, rest) := frames_of_chunks size [] chunks in
        concat frames ++ rest = concat chunks
        /\ Forall (fun f => length f = size) frames
        /\ length rest < size).
Proof.
  intros size chunks Hpos.
  assert (Hone : frames_of_chunks size [] chunks =
                 on_raw_chunk size [] (concat chunks))
    by (apply frames_of_chunks_concat; cbn; lia).
  split.
  - rewrite Hone. cbn [frames_of_chunks].
    destruct (on_raw_chunk size [] (concat chunks)) as [frames rest].
    now rewrite app_nil_r.
  - rewrite Hone. unfold on_raw_chunk. cbn [app].
    apply (take_frames_sound size Hpos (length (concat chunks))). lia.
Qed.

(** An instance: nine bytes that arrive as 3 + 2 + 4, cut into frames of
    four. *)
Lemma C5_three_chunks_frames_of_four :
  let chunks := [[Byte.x01; Byte.x02; Byte.x03];
                 [Byte.x04; Byte.x05];
                 [Byte.x06; Byte.x07; Byte.x08; Byte.x09]] in
  frames_of_chunks 4 [] chunks = frames_of_chunks 4 [] [concat chunks]
  /\ (let '(frames, rest) := frames_of_chunks 4 [] chunks in
      concat frames ++ rest = concat chunks
      /\ Forall (fun f => length f = 4) frames
      /\ length rest < 4).
Proof.
  apply (C5_chunk_boundary_independence 4
           [[Byte.x01; Byte.x02; Byte.x03];
            [Byte.x04; Byte.x05];
            [Byte.x06; Byte.x07; Byte.x08; Byte.x09]]).
  lia.
Defined.

(** ** Text *)

Lemma span_space_app (s : str) :
  forall run rest, span_space s = (run, rest) -> s = run ++ rest.
Proof.
  induction s as [|c t IH]; intros run rest H; cbn in H.
  - now injection H as <- <-.
  - destruct (isspace c).
    + destruct (span_space t) as [run' rest'].
      injection H as <- <-. cbn. f_equal. now apply IH.
    + now injection H as <- <-.
Qed.

Lemma span_space_run (s : str) :
  forall run rest, span_space s = (run, rest) ->
    Forall (fun c => isspace c = true) run.
Proof.
  induction s as [|c t IH]; intros run rest H; cbn in H.
  - injection H as <- <-. constructor.
  - destruct (isspace c) eqn:Hc.
    + destruct (span_space t) as [run' rest'] eqn:Ht.
      injection H as <- <-. constructor; [exact Hc|]. now apply (IH run' rest').
    + injection H as <- <-. constructor.
Qed.

Lemma space_is_delimiter_char (l : str) :
  Forall (fun c => isspace c = true) l ->
  Forall (fun c => delimiter_char c = true) l.
Proof.
  intros H. eapply Forall_impl; [|exact H].
  intros c Hc. unfold delimiter_char. now rewrite Hc.
Qed.

(** A match of the split pattern is a prefix of the text, is not empty, and
    holds whitespace and punctuation only. *)
Lemma match_split_pattern_sound (s : str) :
  forall delimiter rest,
    match_split_pattern s = Some (delimiter, rest) ->
    s = delimiter ++ rest
    /\ delimiter <> []
    /\ Forall (fun c => delimiter_char c = true) delimiter.
Proof.
  destruct s as [|c t]; intros delimiter rest H; [discriminate|].
  unfold match_split_pattern in H.
  destruct (is_terminator c) eqn:Hterm.
  - destruct (span_space t) as [run rest0] eqn:Hs.
    injection H as <- <-.
    repeat split.
    + cbn. f_equal. now apply span_space_app.
    + discriminate.
    + constructor.
      * unfold delimiter_char, is_punctuation. rewrite Hterm.
        now rewrite orb_true_r.
      * apply space_is_delimiter_char. now apply (span_space_run t run rest0).
  - destruct (span_space (c :: t)) as [before0 rest0] eqn:Hs.
    assert (Hnl : forall d r,
               (if Ascii.eqb c newline then Some ([c], t) else None)
               = Some (d, r) ->
               c :: t = d ++ r /\ d <> []
               /\ Forall (fun c => delimiter_char c = true) d).
    { intros d r Hd. destruct (Ascii.eqb c newline) eqn:Hc; [|discriminate].
      injection Hd as <- <-. repeat split; [discriminate|].
      constructor; [|constructor].
      apply Ascii.eqb_eq in Hc. subst c. reflexivity. }
    destruct rest0 as [|d rest'].
    + now apply Hnl.
    + destruct (Ascii.eqb d comma) eqn:Hd; [|now apply Hnl].
      destruct (span_space rest') as [after0 rest''] eqn:Hs'.
      injection H as <- <-.
      pose proof (span_space_app _ _ _ Hs) as E.
      pose proof (span_space_app _ _ _ Hs') as E'.
      repeat split.
      * rewrite E, E', <- app_assoc. reflexivity.
      * destruct before0; discriminate.
      * apply Forall_app. split.
        -- apply space_is_delimiter_char.
           now apply (span_space_run (c :: t) before0 (d :: rest')).
        -- constructor.
           ++ unfold delimiter_char, is_punctuation. rewrite Hd.
              now rewrite !orb_true_r.
           ++ apply space_is_delimiter_char.
              now apply (span_space_run rest' after0 rest'').
Qed.

Lemma alternating_cons_head (c : ascii) (head : str) (parts : list str) :
  alternating (head :: parts) -> alternating ((c :: head) :: parts).
Proof. intros H. inversion H; subst; now constructor. Qed.

Lemma re_split_fuel_alternating (fuel : nat) :
  forall s : str, alternating (re_split_fuel fuel s).
Proof.
  induction fuel as [|fuel IH]; intros s; cbn; [constructor|].
  destruct s as [|c t]; [constructor|].
  destruct (match_split_pattern (c :: t)) as [[delimiter rest]|] eqn:Hm.
  - apply match_split_pattern_sound in Hm. destruct Hm as (_ & _ & Hd).
    constructor; auto.
  - specialize (IH t).
    destruct (re_split_fuel fuel t) as [|head parts]; [inversion IH|].
    now apply alternating_cons_head.
Qed.

(** Splitting loses nothing: the parts, put together, are the text. *)
Lemma re_split_fuel_concat (fuel : nat) :
  forall s : str, concat (re_split_fuel fuel s) = s.
Proof.
  induction fuel as [|fuel IH]; intros s; cbn; [apply app_nil_r|].
  destruct s as [|c t]; [reflexivity|].
  destruct (match_split_pattern (c :: t)) as [[delimiter rest]|] eqn:Hm.
  - apply match_split_pattern_sound in Hm. destruct Hm as (E & _ & _).
    cbn. rewrite IH. now rewrite E.
  - specialize (IH t).
    pose proof (re_split_fuel_alternating fuel t) as Halt.
    destruct (re_split_fuel fuel t) as [|head parts]; [inversion Halt|].
    cbn in *. now rewrite IH.
Qed.

Lemma match_split_pattern_shorter (s delimiter rest : str) :
  match_split_pattern s = Some (delimiter, rest) -> length rest < length s.
Proof.
  intros H. apply match_split_pattern_sound in H.
  destruct H as (-> & Hne & _). rewrite length_app.
  destruct delimiter; [contradiction|cbn; lia].
Qed.

Lemma re_split_fuel_step (fuel : nat) (c : ascii) (t : str) :
  re_split_fuel (S fuel) (c :: t) =
  match match_split_pattern (c :: t) with
  | Some (delimiter, rest) => [] :: delimiter :: re_split_fuel fuel rest
  | None =>
      match re_split_fuel fuel t with
      | head :: parts => (c :: head) :: parts
      | [] => [[c]]
      end
  end.
Proof. reflexivity. Qed.

(** The scan never runs out of fuel: beyond the length of the text, more
    fuel changes nothing. *)
Lemma re_split_fuel_enough (fuel : nat) :
  forall (fuel' : nat) (s : str),
    length s < fuel -> length s < fuel' ->
    re_split_fuel fuel s = re_split_fuel fuel' s.
Proof.
  induction fuel as [|fuel IH]; intros fuel' s Hf Hf'; [lia|].
  destruct fuel' as [|fuel']; [lia|].
  destruct s as [|c t]; [reflexivity|].
  rewrite !re_split_fuel_step. cbn [length] in Hf, Hf'.
  destruct (match_split_pattern (c :: t)) as [[delimiter rest]|] eqn:Hm.
  - apply match_split_pattern_shorter in Hm. cbn [length] in Hm.
    do 2 f_equal. apply IH; lia.
  - rewrite (IH fuel' t) by lia. reflexivity.
Qed.

(** The scan, one step at a time. *)
Lemma re_split_cons (c : ascii) (t : str) :
  re_split (c :: t) =
  match match_split_pattern (c :: t) with
  | Some (delimiter, rest) => [] :: delimiter :: re_split rest
  | None =>
      match re_split t with
      | head :: parts => (c :: head) :: parts
      | [] => [[c]]
      end
  end.
Proof.
  unfold re_split. cbn [length]. rewrite re_split_fuel_step.
  destruct (match_split_pattern (c :: t)) as [[delimiter rest]|] eqn:Hm.
  - apply match_split_pattern_shorter in Hm. cbn [length] in Hm.
    do 2 f_equal. apply re_split_fuel_enough; lia.
  - reflexivity.
Qed.

Example re_split_sentences :
  re_split (lit "One. Two , three?  Four")
  = [lit "One"; lit ". "; lit "Two"; lit " , "; lit "three"; lit "?  ";
     lit "Four"].
Proof. reflexivity. Qed.

Example re_split_repeated_marks :
  re_split (lit "Hi!!") = [lit "Hi"; lit "!"; []; lit "!"; []].
Proof. reflexivity. Qed.

Example split_buffer_keeps_the_tail :
  split_buffer (lit "Hello, world. How are")
  = ([lit "Hello,"; lit "world."], lit "How are").
Proof. reflexivity. Qed.

Example re_sub_starred_spans :
  re_sub_starred (lit "a *b* c *d e* f * g") = lit "a  c  f * g".
Proof. reflexivity. Qed.

Lemma nospace_app (a b : str) : nospace (a ++ b) = nospace a ++ nospace b.
Proof. apply filter_app. Qed.

Lemma nospace_lstrip (s : str) : nospace (lstrip s) = nospace s.
Proof.
  induction s as [|c t IH]; cbn; [reflexivity|].
  destruct (isspace c) eqn:Hc; cbn; [exact IH|now rewrite Hc].
Qed.

Lemma nospace_rev (s : str) : nospace (rev s) = rev (nospace s).
Proof.
  induction s as [|c t IH]; cbn; [reflexivity|].
  rewrite nospace_app, IH. cbn.
  destruct (isspace c); cbn; [apply app_nil_r|reflexivity].
Qed.

(** Stripping removes whitespace only. *)
Lemma nospace_strip (s : str) : nospace (strip s) = nospace s.
Proof.
  unfold strip, rstrip.
  now rewrite nospace_rev, nospace_lstrip, nospace_rev, rev_involutive,
    nospace_lstrip.
Qed.

Lemma blank_nospace (s : str) : truthy (strip s) = false -> nospace s = [].
Proof.
  intros H. rewrite <- nospace_strip.
  destruct (strip s); [reflexivity|discriminate].
Qed.

Lemma nospace_delimiter (d : str) :
  Forall (fun c => delimiter_char c = true) d ->
  Forall (fun c => is_punctuation c = true) (nospace d).
Proof.
  induction 1 as [|c d Hc _ IH]; cbn; [constructor|].
  destruct (isspace c) eqn:Hs; cbn; [exact IH|].
  constructor; [|exact IH].
  unfold delimiter_char in Hc. now rewrite Hs in Hc.
Qed.

(** ** Deleting elements *)

Section Deletes.

Context {A : Type}.
Variable P : A -> bool.

Lemma deletes_refl (l : list A) : deletes P l l.
Proof. induction l; constructor; auto. Qed.

Lemma deletes_all (l : list A) :
  Forall (fun x => P x = true) l -> deletes P [] l.
Proof. induction 1; constructor; auto. Qed.

Lemma deletes_app (a b c d : list A) :
  deletes P a b -> deletes P c d -> deletes P (a ++ c) (b ++ d).
Proof. induction 1; intros Hcd; cbn; try constructor; auto. Qed.

Lemma deletes_trans (b c : list A) :
  deletes P b c -> forall a, deletes P a b -> deletes P a c.
Proof.
  induction 1 as [|x b c Hbc IH|x b c Hx Hbc IH]; intros a Hab.
  - exact Hab.
  - inversion Hab; subst.
    + constructor. now apply IH.
    + apply deletes_drop; [assumption|]. now apply IH.
  - apply deletes_drop; [assumption|]. now apply IH.
Qed.

End Deletes.

(** ** The chunk generator *)

(** The emit loop on a split: what it yields, followed by the text kept,
    is the text that was split, but for whitespace, and for the
    punctuation of a delimiter whose sentence is blank. *)
Lemma emit_pairs_deletes (parts : list str) :
  alternating parts ->
  deletes is_punctuation
    (nospace (concat (emit_pairs (removelast parts)) ++ last parts []))
    (nospace (concat parts)).
Proof.
  induction 1 as [text|text delimiter later Hd Halt IH].
  - cbn. rewrite app_nil_r. apply deletes_refl.
  - assert (Hne : later <> []) by (destruct Halt; discriminate).
    change (removelast (text :: delimiter :: later))
      with (text :: removelast (delimiter :: later)).
    change (removelast (delimiter :: later))
      with (match later with
            | [] => []
            | _ :: _ => delimiter :: removelast later
            end).
    change (last (text :: delimiter :: later) [])
      with (match later with [] => delimiter | _ :: _ => last later [] end).
    destruct later as [|l0 later0]; [contradiction|].
    set (later := l0 :: later0) in *.
    cbn [emit_pairs concat].
    rewrite (nospace_app text), (nospace_app delimiter).
    destruct (truthy (strip text)) eqn:Ht.
    + cbn [concat]. rewrite <- !app_assoc, !nospace_app, !nospace_strip.
      apply deletes_app; [apply deletes_refl|].
      apply deletes_app; [apply deletes_refl|].
      rewrite <- nospace_app. exact IH.
    + rewrite (blank_nospace text Ht). cbn [app].
      apply (deletes_app is_punctuation [] (nospace delimiter)
               (nospace (concat (emit_pairs (removelast later))
                         ++ last later []))
               (nospace (concat later))); [|exact IH].
      apply deletes_all. now apply nospace_delimiter.
Qed.

Lemma split_buffer_deletes (buffer : str) :
  forall chunks kept, split_buffer buffer = (chunks, kept) ->
    deletes is_punctuation (nospace (concat chunks ++ kept)) (nospace buffer).
Proof.
  intros chunks kept H. unfold split_buffer in H. injection H as <- <-.
  rewrite <- (re_split_fuel_concat (S (length buffer)) buffer) at 3.
  apply emit_pairs_deletes. apply re_split_fuel_alternating.
Qed.

Lemma chunks_from_deletes (fragments : list str) :
  forall buffer : str,
    deletes is_punctuation
      (nospace (concat (chunks_from fragments buffer)))
      (nospace (buffer ++ concat fragments)).
Proof.
  induction fragments as [|f later IH]; intros buffer; cbn [chunks_from concat].
  - rewrite app_nil_r. destruct (truthy (strip buffer)) eqn:Hb.
    + cbn [concat]. rewrite app_nil_r, nospace_strip. apply deletes_refl.
    + cbn. rewrite (blank_nospace buffer Hb). constructor.
  - destruct f as [|c f'].
    + cbn [truthy negb app]. apply IH.
    + change (negb (truthy (c :: f'))) with false. cbv iota.
      set (f := c :: f').
      destruct (split_buffer (buffer ++ f)) as [chunks kept] eqn:Hs.
      rewrite concat_app, nospace_app, app_assoc, (nospace_app (buffer ++ f)).
      apply split_buffer_deletes in Hs.
      apply deletes_trans
        with (b := nospace (concat chunks ++ kept) ++ nospace (concat later)).
      * apply deletes_app; [exact Hs|apply deletes_refl].
      * rewrite nospace_app, <- app_assoc, <- (nospace_app kept).
        apply deletes_app; [apply deletes_refl|apply IH].
Qed.

Lemma extend_nil (w : world) : extend [] w = w.
Proof. destruct w; unfold extend; cbn. now rewrite app_nil_r. Qed.

Lemma extend_extend (t t' : list event) (w : world) :
  extend t' (extend t w) = extend (t ++ t') w.
Proof. unfold extend; cbn. now rewrite app_assoc. Qed.

Lemma yielded_map (chunks : list str) : yielded (map Yielded chunks) = chunks.
Proof. induction chunks; cbn; congruence. Qed.

Lemma yielded_app (t t' : list event) :
  yielded (t ++ t') = yielded t ++ yielded t'.
Proof.
  induction t as [|e t IH]; cbn; [reflexivity|].
  destruct e; cbn; now rewrite IH.
Qed.

Lemma yielded_after_synthesis (t : list event) :
  forallb after_synthesis t = true -> yielded t = [].
Proof.
  induction t as [|e t IH]; cbn; [reflexivity|].
  destruct e; cbn; try discriminate; exact IH.
Qed.

Lemma yield_all_take_chunk (chunks : list str) :
  forall w : world,
    yield_all take_chunk chunks w
    = (Ok Continue, extend (map Yielded chunks) w).
Proof.
  induction chunks as [|c later IH]; intros w; cbn [yield_all map].
  - unfold ret. now rewrite extend_nil.
  - unfold bind, log, take_chunk, ret. rewrite IH.
    fold (extend [Yielded c] w). now rewrite extend_extend.
Qed.

(** With nothing interrupting it, the generator yields [chunks_from]. *)
Lemma generator_uninterrupted (fragments : list str) :
  forall (buffer : str) (w : world),
    was_interrupted (app_state w) = false ->
    _to_chunk_generator take_chunk (map Fragment fragments) buffer w
    = (Ok Continue, extend (map Yielded (chunks_from fragments buffer)) w).
Proof.
  induction fragments as [|f later IH]; intros buffer w Hw;
    cbn [map _to_chunk_generator chunks_from].
  - unfold flush, bind, ask_state. rewrite Hw, andb_true_r.
    destruct (truthy (strip buffer)).
    + apply yield_all_take_chunk.
    + unfold ret. now rewrite extend_nil.
  - unfold bind at 1. unfold ask_state at 1. rewrite Hw.
    destruct (negb (truthy f)); [now apply IH|].
    destruct (split_buffer (buffer ++ f)) as [chunks kept].
    unfold bind. rewrite yield_all_take_chunk.
    rewrite IH by exact Hw.
    now rewrite extend_extend, map_app.
Qed.

Lemma chunks_of_uninterrupted (st : AppState) (fragments : list str) :
  was_interrupted st = false ->
  chunks_of st fragments = chunks_from fragments [].
Proof.
  intros Hst. unfold chunks_of.
  rewrite generator_uninterrupted by exact Hst.
  cbn. apply yielded_map.
Qed.

(** C6, as stated, fails: of the one fragment [Hi!!] the generator yields
    the one chunk [Hi!], so the chunks do not rebuild the text, whitespace
    apart. *)
Lemma C6_second_mark_is_lost :
  chunks_of (start_bot_speech AppState_init) [lit "Hi!!"] = [lit "Hi!"]
  /\ nospace (concat (chunks_of (start_bot_speech AppState_init)
                        [lit "Hi!!"]))
     <> nospace (concat [lit "Hi!!"]).
Proof. split; [reflexivity|]. vm_compute. discriminate. Qed.

(** C7. When the generation stream yields the two fragments [Hello, ] and
    [world.] and nothing interrupts, the generator yields exactly the two
    chunks [Hello,] and [world.], in that order, and a turn submits these
    two texts to synthesis, in that order. *)
Theorem C7_hello_world :
  forall speaking : bool,
    chunks_of {| _is_bot_speaking := speaking; interrupt_event := false |}
      [lit "Hello, "; lit "world."]
    = [lit "Hello,"; lit "world."]
    /\ trace (snd (invoke_bedrock (fun _ _ => AudioStream [])
                     [Fragment (lit "Hello, "); Fragment (lit "world.")]
                     (fresh {| _is_bot_speaking := speaking;
                               interrupt_event := false |})))
       = [SpeechStarted;
          Yielded (lit "Hello,"); Synthesize (lit "Hello,"); CloseAudio;
          Yielded (lit "world."); Synthesize (lit "world."); CloseAudio;
          SpeechStopped].
Proof. intros [|]; split; vm_compute; reflexivity. Qed.

(** ** Removing the starred spans *)

Lemma after_asterisk_some (s : str) :
  forall rest, after_asterisk s = Some rest ->
    exists mid, s = mid ++ asterisk :: rest /\ no_asterisk mid.
Proof.
  induction s as [|c t IH]; intros rest H; cbn in H; [discriminate|].
  destruct (Ascii.eqb c asterisk) eqn:Hc.
  - injection H as <-. apply Ascii.eqb_eq in Hc. subst c.
    exists []. split; [reflexivity|constructor].
  - destruct (IH rest H) as (mid & E & Hmid).
    exists (c :: mid). split; [cbn; now rewrite E|now constructor].
Qed.

Lemma after_asterisk_none (s : str) :
  no_asterisk s -> after_asterisk s = None.
Proof.
  induction 1 as [|c t Hc _ IH]; cbn; [reflexivity|]. now rewrite Hc.
Qed.

Lemma after_asterisk_found (mid rest : str) :
  no_asterisk mid -> after_asterisk (mid ++ asterisk :: rest) = Some rest.
Proof.
  induction 1 as [|c t Hc _ IH]; cbn; [reflexivity|]. now rewrite Hc.
Qed.

Lemma after_asterisk_shorter (s rest : str) :
  after_asterisk s = Some rest -> length rest < length s.
Proof.
  intros H. destruct (after_asterisk_some s rest H) as (mid & -> & _).
  rewrite length_app. cbn. lia.
Qed.

Lemma re_sub_fuel_enough (fuel : nat) :
  forall (fuel' : nat) (s : str),
    length s <= fuel -> length s <= fuel' ->
    re_sub_fuel fuel s = re_sub_fuel fuel' s.
Proof.
  induction fuel as [|fuel IH]; intros fuel' s Hf Hf'.
  - destruct s; [|cbn in Hf; lia]. now destruct fuel'.
  - destruct fuel' as [|fuel'].
    + destruct s; [reflexivity|cbn in Hf'; lia].
    + destruct s as [|c t]; [reflexivity|]. cbn in Hf, Hf'. cbn.
      destruct (Ascii.eqb c asterisk).
      * destruct (after_asterisk t) as [rest|] eqn:Ha.
        -- apply after_asterisk_shorter in Ha. apply IH; lia.
        -- f_equal. apply IH; lia.
      * f_equal. apply IH; lia.
Qed.

(** The scan, one character at a time. *)
Lemma re_sub_starred_cons (c : ascii) (t : str) :
  re_sub_starred (c :: t) =
  if Ascii.eqb c asterisk
  then match after_asterisk t with
       | Some rest => re_sub_starred rest
       | None => c :: re_sub_starred t
       end
  else c :: re_sub_starred t.
Proof.
  unfold re_sub_starred. cbn [length re_sub_fuel].
  destruct (Ascii.eqb c asterisk).
  - destruct (after_asterisk t) as [rest|] eqn:Ha; [|reflexivity].
    apply after_asterisk_shorter in Ha. apply re_sub_fuel_enough; lia.
  - reflexivity.
Qed.

Lemma re_sub_starred_plain (s : str) :
  no_asterisk s -> re_sub_starred s = s.
Proof.
  induction 1 as [|c t Hc _ IH]; [reflexivity|].
  rewrite re_sub_starred_cons, Hc. now rewrite IH.
Qed.

(** A span between two asterisks goes, asterisks included, and the scan
    resumes after it. *)
Lemma re_sub_starred_span (before inside later : str) :
  no_asterisk before -> no_asterisk inside ->
  re_sub_starred (before ++ asterisk :: inside ++ asterisk :: later)
  = before ++ re_sub_starred later.
Proof.
  intros Hb Hi. induction Hb as [|c t Hc _ IH]; cbn [app].
  - rewrite re_sub_starred_cons. cbn [Ascii.eqb].
    change (Ascii.eqb asterisk asterisk) with true. cbv iota.
    now rewrite after_asterisk_found.
  - rewrite re_sub_starred_cons, Hc. now rewrite IH.
Qed.

(** An asterisk with none after it stays. *)
Lemma re_sub_starred_lone (before later : str) :
  no_asterisk before -> no_asterisk later ->
  re_sub_starred (before ++ asterisk :: later) = before ++ asterisk :: later.
Proof.
  intros Hb Hl. induction Hb as [|c t Hc _ IH]; cbn [app].
  - rewrite re_sub_starred_cons.
    change (Ascii.eqb asterisk asterisk) with true. cbv iota.
    rewrite after_asterisk_none by exact Hl.
    now rewrite re_sub_starred_plain.
  - rewrite re_sub_starred_cons, Hc. now rewrite IH.
Qed.

(** What is left holds at most one asterisk: no starred span remains. *)
Lemma re_sub_starred_no_span (s : str) :
  forall n, length s <= n ->
    exists before later,
      re_sub_starred s = before ++ later
      /\ no_asterisk before
      /\ (later = [] \/ exists rest, later = asterisk :: rest
                                     /\ no_asterisk rest).
Proof.
  intros n. revert s.
  induction n as [|n IH]; intros s Hn.
  - destruct s; [|cbn in Hn; lia].
    exists [], []. split; [reflexivity|]. split; [constructor|now left].
  - destruct s as [|c t].
    + exists [], []. split; [reflexivity|]. split; [constructor|now left].
    + cbn in Hn. rewrite re_sub_starred_cons.
      destruct (Ascii.eqb c asterisk) eqn:Hc.
      * destruct (after_asterisk t) as [rest|] eqn:Ha.
        -- apply IH. apply after_asterisk_shorter in Ha. lia.
        -- apply Ascii.eqb_eq in Hc. subst c.
           assert (Ht : no_asterisk t).
           { clear - Ha. induction t as [|d t IHt]; [constructor|].
             cbn in Ha. destruct (Ascii.eqb d asterisk) eqn:Hd;
               [discriminate|]. constructor; [exact Hd|now apply IHt]. }
           rewrite re_sub_starred_plain by exact Ht.
           exists [], (asterisk :: t).
           split; [reflexivity|]. split; [constructor|].
           right. now exists t.
      * destruct (IH t ltac:(lia)) as (before & later & E & Hb & Hl).
        exists (c :: before), later. rewrite E.
        split; [reflexivity|]. split; [now constructor|exact Hl].
Qed.

(** ** Growth of the trace *)

Lemma grows_refl (allowed : event -> bool) (w : world) : grows allowed w w.
Proof. exists []. now rewrite app_nil_r. Qed.

Lemma grows_trans (allowed : event -> bool) (w1 w2 w3 : world) :
  grows allowed w1 w2 -> grows allowed w2 w3 -> grows allowed w1 w3.
Proof.
  intros (t & E & H) (t' & E' & H'). exists (t ++ t').
  rewrite E', E, app_assoc, forallb_app, H, H'. now split.
Qed.

Lemma grows_log (allowed : event -> bool) (e : event) (w : world) :
  allowed e = true -> grows allowed w (snd (log e w)).
Proof. intros He. exists [e]. cbn. now rewrite He. Qed.

Lemma grows_on_state (allowed : event -> bool) (f : AppState -> AppState)
  (w : world) : grows allowed w (snd (on_state f w)).
Proof. exists []. cbn. now rewrite app_nil_r. Qed.

(** ** [_send_audio_to_client] and [speak_text] *)

Lemma relay_loop_unfold (steps : list relay_step) :
  relay_loop steps =
  (i <- ask_state was_interrupted ;;
   if i then ret tt
   else
     match steps with
     | [] => ret tt
     | Block data barged :: later =>
         if (length data =? 0) then ret tt
         else
           log (Send data) ;;
           (if barged then on_state interrupt else ret tt) ;;
           relay_loop later
     | ConnectionClosed data :: _ =>
         if (length data =? 0) then ret tt
         else on_state interrupt
     | RelayCancelled :: _ => ret tt
     | RelayFails :: _ => ret tt
     end).
Proof. destruct steps; reflexivity. Qed.

(** The relay loop never raises, makes no synthesis call, and adds relay
    events only; with quiet steps it leaves the flags as they are. *)
Lemma relay_loop_spec (steps : list relay_step) :
  forall w : world,
    exists w',
      relay_loop steps w = (Ok tt, w')
      /\ polly_calls w' = polly_calls w
      /\ grows relay_event w w'
      /\ (forallb quiet_step steps = true -> app_state w' = app_state w).
Proof.
  assert (Hstay : forall (w : world) (q : Prop),
             exists w', (Ok tt, w) = (Ok tt, w')
                        /\ polly_calls w' = polly_calls w
                        /\ grows relay_event w w'
                        /\ (q -> app_state w' = app_state w)).
  { intros w q. exists w. auto using grows_refl. }
  induction steps as [|s later IH]; intros w; rewrite relay_loop_unfold;
    unfold bind, ask_state;
    destruct (was_interrupted (app_state w)) eqn:Hi; try apply Hstay.
  destruct s as [data barged|data| |]; try apply Hstay.
  - destruct (length data =? 0); [apply Hstay|].
    cbn [log fst snd].
    set (w1 := {| app_state := app_state w; polly_calls := polly_calls w;
                  trace := trace w ++ [Send data] |}).
    assert (G1 : grows relay_event w w1) by (exists [Send data]; now split).
    destruct barged.
    + cbn [on_state].
      set (w2 := {| app_state := interrupt (app_state w1);
                    polly_calls := polly_calls w1; trace := trace w1 |}).
      destruct (IH w2) as (w' & E & Hn & G & _).
      exists w'. rewrite E.
      split; [reflexivity|]. split; [exact Hn|]. split.
      * apply grows_trans with (w2 := w2); [|exact G].
        destruct G1 as (t & Et & Ht). exists t. now split.
      * cbn. discriminate.
    + cbn [ret].
      destruct (IH w1) as (w' & E & Hn & G & Hq).
      exists w'. rewrite E.
      split; [reflexivity|]. split; [exact Hn|]. split.
      * now apply grows_trans with (w2 := w1).
      * cbn. intros Hquiet. now rewrite (Hq Hquiet).
  - destruct (length data =? 0); [apply Hstay|].
    eexists. split; [reflexivity|]. split; [reflexivity|]. split.
    + apply (grows_on_state relay_event interrupt w).
    + cbn. discriminate.
Qed.

Lemma send_audio_spec (steps : list relay_step) (w : world) :
  exists w',
    _send_audio_to_client steps w = (Ok tt, w')
    /\ polly_calls w' = polly_calls w
    /\ grows relay_event w w'
    /\ (forallb quiet_step steps = true -> app_state w' = app_state w).
Proof.
  unfold _send_audio_to_client, try_finally.
  destruct (relay_loop_spec steps w) as (w1 & E & Hn & G & Hq).
  rewrite E. eexists. split; [reflexivity|]. repeat split.
  - exact Hn.
  - apply grows_trans with (w2 := w1); [exact G|].
    now apply (grows_log relay_event CloseAudio w1).
  - exact Hq.
Qed.

Section SpeakText.

Variable polly : nat -> str -> synth_result.

(** A text that is blank once its starred spans are removed is skipped:
    nothing happens at all. *)
Lemma speak_text_blank (text : str) (w : world) :
  truthy (strip (re_sub_starred text)) = false ->
  speak_text polly text w = (Ok tt, w).
Proof. intros H. unfold speak_text. now rewrite H. Qed.

(** Any other text is submitted once, cleaned, and what follows is the
    relay of its audio or the log of the failure. *)
Lemma speak_text_spoken (text : str) (w : world) :
  truthy (strip (re_sub_starred text)) = true ->
  exists w' t,
    speak_text polly text w = (Ok tt, w')
    /\ polly_calls w' = S (polly_calls w)
    /\ trace w' = trace w ++ Synthesize (re_sub_starred text) :: t
    /\ forallb after_synthesis t = true
    /\ (quiet polly -> app_state w' = app_state w).
Proof.
  intros H. unfold speak_text. rewrite H. cbn [negb].
  unfold bind, next_polly_call, log. cbn [trace app_state polly_calls].
  destruct (polly (polly_calls w) (re_sub_starred text)) as [|steps] eqn:Hp.
  - eexists. exists [PollyFailed]. cbn.
    rewrite <- app_assoc. repeat split.
  - match goal with |- context [_send_audio_to_client steps ?w1] =>
      destruct (send_audio_spec steps w1) as (w' & E & Hn & (t & Et & Ht) & Hq)
    end.
    exists w', t. rewrite E. cbn in Hn, Et, Hq. repeat split; auto.
    + rewrite Et, <- app_assoc. reflexivity.
    + rewrite forallb_forall in *. intros e He. specialize (Ht e He).
      destruct e; auto; discriminate.
    + intros Hquiet. apply Hq. specialize (Hquiet (polly_calls w)
                                             (re_sub_starred text)).
      now rewrite Hp in Hquiet.
Qed.

(** Both cases at once. *)
Lemma speak_text_spec (text : str) (w : world) :
  exists w',
    speak_text polly text w = (Ok tt, w')
    /\ grows inside_try w w'
    /\ (quiet polly -> app_state w' = app_state w).
Proof.
  destruct (truthy (strip (re_sub_starred text))) eqn:H.
  - destruct (speak_text_spoken text w H) as (w' & t & E & _ & Et & Ht & Hq).
    exists w'. repeat split; auto.
    exists (Synthesize (re_sub_starred text) :: t). split; [exact Et|].
    cbn. rewrite forallb_forall in *. intros e He. specialize (Ht e He).
    destruct e; auto; discriminate.
  - exists w. rewrite speak_text_blank by exact H.
    repeat split; auto using grows_refl.
Qed.

End SpeakText.

(** C10. Before a text is submitted to synthesis, each starred span (an
    asterisk, characters other than an asterisk, an asterisk), taken from the
    left, is removed from it, so that what is submitted holds no such span;
    when what is left is empty or whitespace only, the chunk is skipped: no
    synthesis call is made and nothing is sent. *)
Theorem C10_starred_spans_removed_blank_skipped :
  forall (polly : nat -> str -> synth_result) (text : str) (w : world),
    (* the removal *)
    (forall before inside later,
        no_asterisk before -> no_asterisk inside ->
        re_sub_starred (before ++ asterisk :: inside ++ asterisk :: later)
        = before ++ re_sub_starred later)
    /\ (no_asterisk text -> re_sub_starred text = text)
    /\ (exists before later,
           re_sub_starred text = before ++ later
           /\ no_asterisk before
           /\ (later = [] \/ exists rest, later = asterisk :: rest
                                          /\ no_asterisk rest))
    (* a blank text is skipped *)
    /\ (truthy (strip (re_sub_starred text)) = false ->
        speak_text polly text w = (Ok tt, w))
    (* any other is submitted cleaned, once *)
    /\ (truthy (strip (re_sub_starred text)) = true ->
        exists w' t,
          speak_text polly text w = (Ok tt, w')
          /\ polly_calls w' = S (polly_calls w)
          /\ trace w' = trace w ++ Synthesize (re_sub_starred text) :: t
          /\ forallb after_synthesis t = true).
Proof.
  intros polly text w. repeat apply conj.
  - apply re_sub_starred_span.
  - apply re_sub_starred_plain.
  - apply (re_sub_starred_no_span text (length text)). lia.
  - apply speak_text_blank.
  - intros H.
    destruct (speak_text_spoken polly text w H)
      as (w' & t & E & Hn & Et & Ht & _).
    now exists w', t.
Qed.

(** ** The generator under the turn's consumer *)

Section TurnProperties.

Variable polly : nat -> str -> synth_result.

Lemma speak_chunk_spec (chunk : str) (w : world) :
  exists c w',
    speak_chunk polly chunk w = (Ok c, w')
    /\ grows inside_try w w'
    /\ (quiet polly -> app_state w' = app_state w)
    /\ (was_interrupted (app_state w) = false -> c = Continue).
Proof.
  unfold speak_chunk, bind, ask_state.
  destruct (was_interrupted (app_state w)) eqn:Hi.
  - exists Break, w. repeat split; auto using grows_refl. discriminate.
  - destruct (truthy chunk && truthy (strip chunk)).
    + destruct (speak_text_spec polly chunk w) as (w' & E & G & Hq).
      rewrite E. exists Continue, w'. now repeat split.
    + exists Continue, w. repeat split; auto using grows_refl.
Qed.

Lemma yield_all_spec (chunks : list str) :
  forall w : world,
    exists c w',
      yield_all (speak_chunk polly) chunks w = (Ok c, w')
      /\ grows inside_try w w'
      /\ (quiet polly -> app_state w' = app_state w)
      /\ (quiet polly -> was_interrupted (app_state w) = false ->
          c = Continue).
Proof.
  induction chunks as [|chunk later IH]; intros w; cbn [yield_all].
  - exists Continue, w. repeat split; auto using grows_refl.
  - unfold bind at 1. cbn [log].
    set (w0 := {| app_state := app_state w; polly_calls := polly_calls w;
                  trace := trace w ++ [Yielded chunk] |}).
    assert (G0 : grows inside_try w w0) by (exists [Yielded chunk]; now split).
    unfold bind.
    destruct (speak_chunk_spec chunk w0) as (c & w1 & E & G1 & Hq1 & Hc1).
    rewrite E. destruct c.
    + destruct (IH w1) as (c' & w2 & E2 & G2 & Hq2 & Hc2).
      exists c', w2. rewrite E2. split; [reflexivity|]. split; [|split].
      * eauto using grows_trans.
      * intros Hq. now rewrite (Hq2 Hq), (Hq1 Hq).
      * intros Hq Hi. apply (Hc2 Hq). now rewrite (Hq1 Hq).
    + exists Break, w1. split; [reflexivity|]. split; [|split].
      * eauto using grows_trans.
      * exact Hq1.
      * intros _ Hi. now apply Hc1.
Qed.

Lemma flush_spec (buffer : str) (w : world) :
  exists c w',
    flush (speak_chunk polly) buffer w = (Ok c, w')
    /\ grows inside_try w w'
    /\ (quiet polly -> app_state w' = app_state w).
Proof.
  unfold flush, bind, ask_state.
  destruct (truthy (strip buffer) && negb (was_interrupted (app_state w))).
  - destruct (yield_all_spec [strip buffer] w) as (c & w' & E & G & Hq & _).
    exists c, w'. now repeat split.
  - exists Continue, w. repeat split; auto using grows_refl.
Qed.

(** On every stream the generator ends, adds events of the [try] only, and
    raises [Exception] only when the stream does. *)
Lemma generator_spec (stream : list stream_step) :
  forall (buffer : str) (w : world),
    exists r w',
      _to_chunk_generator (speak_chunk polly) stream buffer w = (r, w')
      /\ grows inside_try w w'
      /\ (r = Raised Exception -> In StreamRaises stream).
Proof.
  induction stream as [|s later IH]; intros buffer w;
    cbn [_to_chunk_generator].
  - destruct (flush_spec buffer w) as (c & w' & E & G & _).
    exists (Ok c), w'. repeat split; auto. discriminate.
  - destruct s as [f| | |].
    + unfold bind at 1. unfold ask_state at 1.
      destruct (was_interrupted (app_state w)).
      * destruct (flush_spec buffer w) as (c & w' & E & G & _).
        exists (Ok c), w'. repeat split; auto. discriminate.
      * destruct (negb (truthy f)).
        -- destruct (IH buffer w) as (r & w' & E & G & Hr).
           exists r, w'. repeat split; auto. intros Hx. right. auto.
        -- destruct (split_buffer (buffer ++ f)) as [chunks kept].
           unfold bind.
           destruct (yield_all_spec chunks w) as (c & w1 & E1 & G1 & _).
           rewrite E1. destruct c.
           ++ destruct (IH kept w1) as (r & w' & E & G & Hr).
              exists r, w'. repeat split; auto.
              ** eauto using grows_trans.
              ** intros Hx. right. auto.
           ++ exists (Ok Break), w1. repeat split; auto. discriminate.
    + unfold bind. cbn [on_state].
      match goal with |- context [_to_chunk_generator _ later buffer ?w0] =>
        destruct (IH buffer w0) as (r & w' & E & (t & Et & Ht) & Hr)
      end.
      exists r, w'. repeat split; auto.
      * exists t. now split.
      * intros Hx. right. auto.
    + exists (Raised Exception), w. repeat split; auto using grows_refl.
      intros _. now left.
    + exists (Raised CancelledError), w. repeat split; auto using grows_refl.
      discriminate.
Qed.

(** With a quiet synthesis collaborator, a stream that yields fragments
    and then raises makes the generator raise, not interrupted. *)
Lemma generator_raises (Hquiet : quiet polly) (fragments : list str)
  (later : list stream_step) :
  forall (buffer : str) (w : world),
    was_interrupted (app_state w) = false ->
    exists w',
      _to_chunk_generator (speak_chunk polly)
        (map Fragment fragments ++ StreamRaises :: later) buffer w
      = (Raised Exception, w')
      /\ grows inside_try w w'
      /\ app_state w' = app_state w.
Proof.
  induction fragments as [|f fragments IH]; intros buffer w Hi;
    cbn [map app _to_chunk_generator].
  - exists w. repeat split; auto using grows_refl.
  - unfold bind at 1. unfold ask_state at 1. rewrite Hi.
    destruct (negb (truthy f)); [now apply IH|].
    destruct (split_buffer (buffer ++ f)) as [chunks kept].
    unfold bind.
    destruct (yield_all_spec chunks w) as (c & w1 & E1 & G1 & Hq1 & Hc1).
    rewrite E1, (Hc1 Hquiet Hi).
    destruct (IH kept w1) as (w' & E & G & Hs).
    { now rewrite (Hq1 Hquiet). }
    exists w'. rewrite E. repeat split.
    + eauto using grows_trans.
    + now rewrite Hs, (Hq1 Hquiet).
Qed.

(** Speaking yields nothing: only the generator does. *)
Lemma speak_text_yielded (text : str) (w : world) :
  yielded (trace (snd (speak_text polly text w))) = yielded (trace w).
Proof.
  destruct (truthy (strip (re_sub_starred text))) eqn:H.
  - destruct (speak_text_spoken polly text w H) as (w' & t & E & _ & Et & Ht & _).
    rewrite E. cbn [snd]. rewrite Et, yielded_app. cbn [yielded].
    now rewrite (yielded_after_synthesis t Ht), app_nil_r.
  - now rewrite speak_text_blank.
Qed.

(** With a quiet synthesis collaborator and no interruption, every chunk is
    handed over and spoken, and the flags stay as they are. *)
Lemma yield_all_quiet (Hquiet : quiet polly) (chunks : list str) :
  forall w : world,
    was_interrupted (app_state w) = false ->
    exists w',
      yield_all (speak_chunk polly) chunks w = (Ok Continue, w')
      /\ app_state w' = app_state w
      /\ yielded (trace w') = yielded (trace w) ++ chunks.
Proof.
  induction chunks as [|chunk later IH]; intros w Hi; cbn [yield_all].
  - exists w. now rewrite app_nil_r.
  - unfold bind at 1. cbn [log].
    set (w0 := {| app_state := app_state w; polly_calls := polly_calls w;
                  trace := trace w ++ [Yielded chunk] |}).
    unfold bind.
    assert (Hy : yielded (trace (snd (speak_chunk polly chunk w0)))
                 = yielded (trace w) ++ [chunk]).
    { unfold speak_chunk, bind, ask_state. cbn [app_state w0]. rewrite Hi.
      destruct (truthy chunk && truthy (strip chunk)).
      - pose proof (speak_text_yielded chunk w0) as Hs.
        destruct (speak_text polly chunk w0) as [[[]|x] w1];
          cbn [snd fst ret] in *; rewrite Hs; subst w0; cbn [trace];
          now rewrite yielded_app.
      - cbn. now rewrite yielded_app. }
    destruct (speak_chunk_spec chunk w0) as (c & w1 & E & _ & Hq & Hc).
    rewrite E in *. cbn [snd] in Hy. rewrite (Hc Hi).
    destruct (IH w1) as (w' & E' & Hs & Hy').
    { now rewrite (Hq Hquiet). }
    exists w'. rewrite E'. split; [reflexivity|]. split.
    + now rewrite Hs, (Hq Hquiet).
    + now rewrite Hy', Hy, <- app_assoc.
Qed.

(** With a quiet synthesis collaborator, the generator under the turn's
    consumer yields what it yields on its own. *)
Lemma generator_fragments_quiet (Hquiet : quiet polly)
  (fragments : list str) :
  forall (buffer : str) (w : world),
    was_interrupted (app_state w) = false ->
    exists c w',
      _to_chunk_generator (speak_chunk polly) (map Fragment fragments)
        buffer w = (Ok c, w')
      /\ yielded (trace w')
         = yielded (trace w) ++ chunks_from fragments buffer.
Proof.
  induction fragments as [|f fragments IH]; intros buffer w Hi;
    cbn [map _to_chunk_generator chunks_from].
  - unfold flush, bind, ask_state. rewrite Hi, andb_true_r.
    destruct (truthy (strip buffer)).
    + destruct (yield_all_quiet Hquiet [strip buffer] w Hi)
        as (w' & E & _ & Hy).
      exists Continue, w'. now split.
    + exists Continue, w. now rewrite app_nil_r.
  - unfold bind at 1. unfold ask_state at 1. rewrite Hi.
    destruct (negb (truthy f)); [now apply IH|].
    destruct (split_buffer (buffer ++ f)) as [chunks kept].
    unfold bind.
    destruct (yield_all_quiet Hquiet chunks w Hi) as (w1 & E1 & Hs1 & Hy1).
    rewrite E1.
    destruct (IH kept w1) as (c & w' & E & Hy).
    { now rewrite Hs1. }
    exists c, w'. rewrite E. split; [reflexivity|].
    now rewrite Hy, Hy1, <- app_assoc.
Qed.

(** The error handler: one submission of the apology when the turn is not
    interrupted. *)
Lemma on_error_spec (w : world) :
  was_interrupted (app_state w) = false ->
  exists w' t,
    on_error polly w = (Ok tt, w')
    /\ trace w' = trace w ++ BedrockError :: Synthesize apology :: t
    /\ forallb after_synthesis t = true.
Proof.
  intros Hi. unfold on_error, bind at 1. cbn [log].
  unfold bind, ask_state. cbn [app_state]. rewrite Hi. cbn [negb].
  match goal with |- context [speak_text polly apology ?w0] =>
    destruct (speak_text_spoken polly apology w0 eq_refl)
      as (w' & t & E & _ & Et & Ht & _)
  end.
  exists w', t. rewrite E. repeat split; auto.
  rewrite Et. cbn [trace]. rewrite <- app_assoc. reflexivity.
Qed.

Lemma on_error_any (w : world) :
  exists w' t, on_error polly w = (Ok tt, w') /\ trace w' = trace w ++ t.
Proof.
  unfold on_error, bind at 1. cbn [log].
  unfold bind, ask_state. cbn [app_state].
  destruct (was_interrupted (app_state w)); cbn [negb].
  - eexists. exists [BedrockError]. split; reflexivity.
  - match goal with |- context [speak_text polly apology ?w0] =>
      destruct (speak_text_spec polly apology w0) as (w' & E & (t & Et & _) & _)
    end.
    exists w', (BedrockError :: t). rewrite E. split; [reflexivity|].
    rewrite Et. cbn [trace]. now rewrite <- app_assoc.
Qed.

End TurnProperties.

(** ** The response turn *)

(** The world a turn's [try] starts in. *)
Lemma invoke_bedrock_unfold (polly : nat -> str -> synth_result)
  (stream : list stream_step) (w : world) :
  invoke_bedrock polly stream w =
  try_finally
    (try_except
       (_to_chunk_generator (speak_chunk polly) stream [] ;; ret tt)
       (log TaskCancelled)
       (on_error polly))
    (on_state stop_bot_speech ;; log SpeechStopped)
    {| app_state := start_bot_speech (app_state w);
       polly_calls := polly_calls w;
       trace := trace w ++ [SpeechStarted] |}.
Proof. reflexivity. Qed.

Ltac open_turn polly stream w w0 r w1 E G Hr :=
  rewrite invoke_bedrock_unfold;
  match goal with |- context [try_finally _ _ ?w'] => set (w0 := w') end;
  destruct (generator_spec polly stream [] w0) as (r & w1 & E & G & Hr);
  unfold try_finally, try_except, bind at 1; rewrite E.

(** Every turn returns normally; its first event is the start of speech, its
    last the stop of speech, after which both flags are down. *)
Lemma turn_shape (polly : nat -> str -> synth_result)
  (stream : list stream_step) (w : world) :
  exists w' t,
    invoke_bedrock polly stream w = (Ok tt, w')
    /\ trace w' = trace w ++ SpeechStarted :: t ++ [SpeechStopped]
    /\ app_state w' = stop_bot_speech (app_state w').
Proof.
  open_turn polly stream w w0 r w1 E G Hr.
  destruct G as (t & Et & _).
  destruct r as [c|[|]].
  - cbn. eexists. exists t. split; [reflexivity|]. cbn.
    rewrite Et. subst w0. cbn. rewrite <- !app_assoc. now split.
  - cbn. eexists. exists (t ++ [TaskCancelled]). split; [reflexivity|]. cbn.
    rewrite Et. subst w0. cbn. rewrite <- !app_assoc. now split.
  - destruct (on_error_any polly w1) as (w2 & t2 & E2 & Et2).
    rewrite E2. cbn. eexists. exists (t ++ t2). split; [reflexivity|]. cbn.
    rewrite Et2, Et. subst w0. cbn. rewrite <- !app_assoc. now split.
Qed.

(** C8. Every run of a response turn, whatever the generation stream and
    the synthesis collaborator do (completion, interruption, cancellation,
    errors, a closed connection), returns normally and ends by calling
    [stop_bot_speech]: the call is the last thing it does, and the speaking
    flag is false afterwards. *)
Theorem C8_turn_always_stops_speaking :
  forall (polly : nat -> str -> synth_result) (stream : list stream_step)
         (w : world),
    exists w' t,
      invoke_bedrock polly stream w = (Ok tt, w')
      /\ trace w' = trace w ++ SpeechStarted :: t ++ [SpeechStopped]
      /\ app_state w' = stop_bot_speech (app_state w')
      /\ is_bot_speaking (app_state w') = false
      /\ was_interrupted (app_state w') = false.
Proof.
  intros polly stream w.
  destruct (turn_shape polly stream w) as (w' & t & E & Et & Hs).
  exists w', t. rewrite Hs. now repeat split.
Qed.

(** C2, as the code has it. A failure of the synthesis collaborator is
    logged by [speak_text] and goes no further: whatever the collaborator
    does, a turn whose generation stream does not raise never enters its
    error handler, the only place that speaks the apology.  The apology is
    submitted to synthesis, once, when the generation stream raises and the
    turn is not interrupted.  Either way the speaking flag is false in the
    end. *)
Theorem C2_apology_only_for_a_generation_error :
  forall (polly : nat -> str -> synth_result) (st : AppState),
    (forall stream : list stream_step,
        ~ In StreamRaises stream ->
        exists w' t,
          invoke_bedrock polly stream (fresh st) = (Ok tt, w')
          /\ trace w' = SpeechStarted :: t ++ [SpeechStopped]
          /\ forallb without_error t = true
          /\ is_bot_speaking (app_state w') = false)
    /\ (quiet polly ->
        forall (fragments : list str) (later : list stream_step),
        exists w' t1 t2,
          invoke_bedrock polly
            (map Fragment fragments ++ StreamRaises :: later) (fresh st)
          = (Ok tt, w')
          /\ trace w' = SpeechStarted :: t1
                        ++ BedrockError :: Synthesize apology :: t2
                        ++ [SpeechStopped]
          /\ forallb inside_try t1 = true
          /\ forallb after_synthesis t2 = true
          /\ is_bot_speaking (app_state w') = false).
Proof.
  intros polly st. split.
  - intros stream Hno.
    open_turn polly stream (fresh st) w0 r w1 E G Hr.
    destruct G as (t & Et & Ht).
    assert (Ht' : forallb without_error t = true).
    { rewrite forallb_forall in *. intros e He. specialize (Ht e He).
      destruct e; auto; discriminate. }
    destruct r as [c|[|]].
    + cbn. eexists. exists t. split; [reflexivity|]. cbn.
      rewrite Et. subst w0. cbn. now repeat split.
    + cbn. eexists. exists (t ++ [TaskCancelled]). split; [reflexivity|]. cbn.
      rewrite Et. subst w0. cbn. rewrite <- !app_assoc.
      repeat split. rewrite forallb_app, Ht'. reflexivity.
    + exfalso. now apply Hno, Hr.
  - intros Hquiet fragments later.
    rewrite invoke_bedrock_unfold.
    match goal with |- context [try_finally _ _ ?w'] => set (w0 := w') end.
    destruct (generator_raises polly Hquiet fragments later [] w0 eq_refl)
      as (w1 & E & (t1 & Et1 & Ht1) & Hs).
    unfold try_finally, try_except, bind at 1. rewrite E.
    destruct (on_error_spec polly w1) as (w2 & t2 & E2 & Et2 & Ht2).
    { now rewrite Hs. }
    rewrite E2. cbn. eexists. exists t1, t2. split; [reflexivity|]. cbn.
    rewrite Et2, Et1. subst w0. cbn. rewrite <- !app_assoc. cbn.
    now repeat split.
Qed.

(** C2, as stated, fails: the synthesis collaborator raises on the one
    chunk of the turn, which is not interrupted; the failure is logged, no
    apology is submitted, and the turn ends. *)
Lemma C2_synthesis_error_gets_no_apology :
  invoke_bedrock (fun _ _ => SynthRaises) [Fragment (lit "Hi.")]
    (fresh AppState_init)
  = (Ok tt,
     {| app_state := AppState_init;
        polly_calls := 1;
        trace := [SpeechStarted; Yielded (lit "Hi."); Synthesize (lit "Hi.");
                  PollyFailed; SpeechStopped] |})
  /\ ~ In (Synthesize apology)
         (trace (snd (invoke_bedrock (fun _ _ => SynthRaises)
                        [Fragment (lit "Hi.")] (fresh AppState_init)))).
Proof.
  split; [reflexivity|].
  vm_compute. intros H.
  repeat (destruct H as [H|H]; [discriminate H|]). exact H.
Qed.

(** The second half of C2 on an instance: the stream raises after one
    fragment, the collaborator answers every call with one block of audio. *)
Example C2_generation_error_gets_one_apology :
  trace (snd (invoke_bedrock (fun _ _ => AudioStream [Block [Byte.x00] false])
                [Fragment (lit "Hi."); StreamRaises] (fresh AppState_init)))
  = [SpeechStarted;
     Yielded (lit "Hi."); Synthesize (lit "Hi."); Send [Byte.x00]; CloseAudio;
     BedrockError; Synthesize apology; Send [Byte.x00]; CloseAudio;
     SpeechStopped].
Proof. reflexivity. Qed.

(** ** The handler: what a frame leaves alone *)

Lemma background_keeps (bs : list background) :
  forall h : handler,
    let h' := fold_left apply_background bs h in
    is_transcribing h' = is_transcribing h
    /\ transcribe_stream h' = transcribe_stream h
    /\ silence_frames h' = silence_frames h
    /\ actions h' = actions h
    /\ audio_buffer h' = audio_buffer h.
Proof.
  induction bs as [|b bs IH]; intros h; cbn [fold_left]; [now repeat split|].
  destruct (IH (apply_background h b)) as (H1 & H2 & H3 & H4 & H5).
  cbv zeta. rewrite H1, H2, H3, H4, H5.
  destruct b; cbn; try now repeat split.
  - destruct (bot_response_task h) as [[text t]|]; now repeat split.
  - destruct (transcript_task h); now repeat split.
  - destruct (bot_response_task h) as [[text [| |]]|]; now repeat split.
Qed.

Lemma detections_app (l l' : list action) :
  detections (l ++ l') = detections l + detections l'.
Proof.
  induction l as [|a l IH]; cbn; [reflexivity|].
  destruct a; cbn; rewrite IH; reflexivity.
Qed.

Lemma get_full_transcript_keeps (transcripts : list str) (h : handler) :
  let h' := get_full_transcript transcripts h in
  detections (actions h') = detections (actions h)
  /\ silence_frames h' = silence_frames h.
Proof.
  unfold get_full_transcript, _handle_transcription.
  destruct (truthy (strip (join_spaces transcripts))); cbn;
    [|now split].
  rewrite detections_app. cbn. split; [lia|reflexivity].
Qed.

Lemma other_tasks_actions (moves : list background) (h : handler) :
  actions (other_tasks moves h) = actions h.
Proof. now destruct (background_keeps moves h) as (_ & _ & _ & H & _). Qed.

Lemma other_tasks_silence_frames (moves : list background) (h : handler) :
  silence_frames (other_tasks moves h) = silence_frames h.
Proof. now destruct (background_keeps moves h) as (_ & _ & H & _). Qed.

Lemma other_tasks_stream (moves : list background) (h : handler) :
  transcribe_stream (other_tasks moves h) = transcribe_stream h.
Proof. now destruct (background_keeps moves h) as (_ & H & _). Qed.

Lemma other_tasks_transcribing (moves : list background) (h : handler) :
  is_transcribing (other_tasks moves h) = is_transcribing h.
Proof. now destruct (background_keeps moves h) as (H & _). Qed.

Lemma get_full_transcript_actions (transcripts : list str) (h : handler) :
  actions (get_full_transcript transcripts h)
  = actions h
    ++ (if truthy (strip (join_spaces transcripts))
        then [CreateTask (strip (join_spaces transcripts))] else []).
Proof.
  unfold get_full_transcript, _handle_transcription.
  destruct (truthy (strip (join_spaces transcripts))); cbn;
    [reflexivity|now rewrite app_nil_r].
Qed.

Lemma get_full_transcript_task (transcripts : list str) (h : handler) :
  truthy (strip (join_spaces transcripts)) = true ->
  bot_response_task (get_full_transcript transcripts h)
  = Some (strip (join_spaces transcripts), Running).
Proof.
  intros H. unfold get_full_transcript, _handle_transcription.
  now rewrite H.
Qed.

(** ** One frame while listening *)

Ltac through_awaits :=
  repeat (cbn [actions silence_frames is_transcribing transcribe_stream
                 transcript_task transcript_handler act set_silence_frames
                 set_session];
          rewrite ?other_tasks_actions, ?other_tasks_silence_frames,
            ?other_tasks_stream, ?other_tasks_transcribing).

Section ListeningFrame.

Variables (cfg : settings) (limit : Z).
Hypothesis limit_computed : silence_limit cfg = Some limit.

Variables (chunk : bytes) (e : frame_env) (h : handler).
Hypothesis stream_open_now : transcribe_stream h <> None.

(** A frame of speech is forwarded and brings the count back to zero. *)
Lemma listening_speech :
  transport_fails e 0 = false ->
  listening cfg chunk e true h
  = (set_silence_frames 0%Z
       (act (SendAudioEvent chunk) (other_tasks (during e 0) h)), Normal).
Proof.
  intros Ht. unfold listening.
  destruct (transcribe_stream h); [|congruence]. now rewrite Ht.
Qed.

(** A frame of silence below the limit is forwarded and counted. *)
Lemma listening_below :
  transport_works e ->
  (silence_frames h + 1 < limit)%Z ->
  listening cfg chunk e false h
  = (set_silence_frames (silence_frames h + 1)%Z
       (act (SendAudioEvent chunk) (other_tasks (during e 0) h)), Normal).
Proof.
  intros Ht Hlt. unfold listening.
  destruct (transcribe_stream h); [|congruence].
  rewrite (Ht 0), limit_computed. through_awaits. cbn [negb].
  replace (limit <=? silence_frames h + 1)%Z with false
    by (symmetry; apply Z.leb_gt; lia).
  reflexivity.
Qed.

(** The frame of silence that reaches the limit ends the utterance: the
    stream is ended, the transcript task awaited, the transcript handed
    over, the session forgotten. *)
Lemma listening_ends :
  transport_works e ->
  (limit <= silence_frames h + 1)%Z ->
  exists h',
    listening cfg chunk e false h = (h', Normal)
    /\ is_transcribing h' = false
    /\ transcribe_stream h' = None
    /\ transcript_task h' = None
    /\ actions h'
       = actions h
         ++ [SendAudioEvent chunk; EndOfSpeech; EndStream;
             AwaitTranscriptTask]
         ++ (if truthy (strip (join_spaces (full_transcript e)))
             then [CreateTask (strip (join_spaces (full_transcript e)))]
             else [])
    /\ (truthy (strip (join_spaces (full_transcript e))) = true ->
        bot_response_task h'
        = Some (strip (join_spaces (full_transcript e)), Running)).
Proof.
  intros Ht Hle. unfold listening.
  destruct (transcribe_stream h); [|congruence].
  rewrite (Ht 0), limit_computed. through_awaits. cbn [negb].
  replace (limit <=? silence_frames h + 1)%Z with true
    by (symmetry; apply Z.leb_le; lia).
  rewrite (Ht 1), (Ht 2).
  eexists. split; [reflexivity|].
  split; [reflexivity|]. split; [reflexivity|]. split; [reflexivity|].
  split.
  - cbn [actions set_session]. rewrite get_full_transcript_actions.
    through_awaits. now rewrite <- !app_assoc.
  - intros Hfull. cbn [bot_response_task set_session].
    now apply get_full_transcript_task.
Qed.

End ListeningFrame.

(** A frame of silence, as [process_frame] treats it. *)
Lemma process_frame_silent (cfg : settings) (chunk : bytes) (e : frame_env)
  (h : handler) :
  _is_speech cfg chunk e = false ->
  process_frame cfg chunk e h
  = if is_transcribing h
    then listening cfg chunk e false (other_tasks (before e) h)
    else (other_tasks (before e) h, Normal).
Proof.
  intros Hs. unfold process_frame. fold (other_tasks (before e) h).
  now rewrite Hs, andb_false_r, other_tasks_transcribing.
Qed.

(** ** Silence while idle and silence while listening *)

Section SilenceRun.

Variables (cfg : settings) (limit : Z).
Hypothesis limit_computed : silence_limit cfg = Some limit.

(** While the handler is idle, silence changes nothing that counts. *)
Lemma feed_silence_idle (frames : list (bytes * frame_env)) :
  forall h : handler,
    is_transcribing h = false ->
    Forall (silence cfg) frames ->
    exists h',
      feed cfg frames h = (h', Normal)
      /\ is_transcribing h' = false
      /\ actions h' = actions h.
Proof.
  induction frames as [|[chunk e] later IH]; intros h Hidle Hall.
  - exists h. now repeat split.
  - inversion Hall as [|f l [Hs _] Hl]; subst. cbn [fst snd] in Hs.
    cbn [feed]. rewrite (process_frame_silent cfg chunk e h Hs), Hidle.
    destruct (IH (other_tasks (before e) h)) as (h' & E & Hi & Ha);
      [now rewrite other_tasks_transcribing|exact Hl|].
    exists h'. rewrite E, Ha, other_tasks_actions. now repeat split.
Qed.

(** While the handler listens: the run of silence is counted, and the end
    of the utterance is detected when the count reaches the limit, once. *)
Lemma feed_silence_listening (frames : list (bytes * frame_env)) :
  forall h : handler,
    is_transcribing h = true ->
    transcribe_stream h <> None ->
    (0 <= silence_frames h < Z.max 1 limit)%Z ->
    Forall (silence cfg) frames ->
    exists h',
      feed cfg frames h = (h', Normal)
      /\ is_transcribing h'
         = (silence_frames h + Z.of_nat (length frames)
            <? Z.max 1 limit)%Z
      /\ detections (actions h')
         = detections (actions h)
           + (if (silence_frames h + Z.of_nat (length frames)
                  <? Z.max 1 limit)%Z then 0 else 1).
Proof.
  induction frames as [|[chunk e] later IH]; intros h Hon Hstream Hcount Hall.
  - exists h. cbn [length Z.of_nat]. rewrite Z.add_0_r.
    replace (silence_frames h <? Z.max 1 limit)%Z with true
      by (symmetry; apply Z.ltb_lt; lia).
    split; [reflexivity|]. split; [exact Hon|lia].
  - inversion Hall as [|f l [Hs Ht] Hl]; subst. cbn [fst snd] in Hs, Ht.
    cbn [feed]. rewrite (process_frame_silent cfg chunk e h Hs), Hon.
    set (h1 := other_tasks (before e) h).
    assert (Hst1 : transcribe_stream h1 <> None)
      by (unfold h1; now rewrite other_tasks_stream).
    assert (Hsf1 : silence_frames h1 = silence_frames h)
      by apply other_tasks_silence_frames.
    assert (Ha1 : actions h1 = actions h) by apply other_tasks_actions.
    replace (silence_frames h + Z.of_nat (length ((chunk, e) :: later)))%Z
      with (silence_frames h + 1 + Z.of_nat (length later))%Z
      by (cbn [length]; lia).
    destruct (Z.le_gt_cases limit (silence_frames h + 1)) as [Hlim|Hlim].
    + destruct (listening_ends cfg limit limit_computed chunk e h1 Hst1 Ht)
        as (h2 & E2 & Hoff & _ & _ & Ha2 & _); [lia|].
      rewrite E2.
      destruct (feed_silence_idle later h2 Hoff Hl) as (h' & E & Hi & Ha).
      exists h'. rewrite E.
      replace (silence_frames h + 1 + Z.of_nat (length later)
               <? Z.max 1 limit)%Z with false
        by (symmetry; apply Z.ltb_ge; lia).
      split; [reflexivity|]. split; [exact Hi|].
      rewrite Ha, Ha2, Ha1, !detections_app.
      destruct (truthy (strip (join_spaces (full_transcript e)))); cbn; lia.
    + rewrite (listening_below cfg limit limit_computed chunk e h1 Hst1 Ht)
        by lia.
      match goal with |- context [feed cfg later ?h2] =>
        destruct (IH h2) as (h' & E & Hi & Hd)
      end.
      * through_awaits. unfold h1. now rewrite other_tasks_transcribing.
      * through_awaits. exact Hst1.
      * through_awaits. lia.
      * exact Hl.
      * exists h'. rewrite E. revert Hi Hd. through_awaits.
        rewrite Hsf1, Ha1, detections_app. cbn [detections].
        intros Hi Hd. split; [reflexivity|]. split; [exact Hi|]. lia.
Qed.

End SilenceRun.

(** C1, as the code has it. For every sample rate R, frame size and silence
    threshold S for which the limit can be computed: counted from a frame
    that left the counter at zero, the end of an utterance is detected after
    exactly max(1, int(R / (FRAME_SIZE/2) * S)) consecutive silence frames,
    the quotient and the product being those of binary64 floats and [int]
    their truncation: never in a shorter run, and once, not again, in a
    longer one. *)
Theorem C1_end_of_utterance_after_floor_frames :
  forall (cfg : settings) (to_end : Z) (h : handler)
         (frames : list (bytes * frame_env)),
    frames_to_end cfg = Some to_end ->
    is_transcribing h = true ->
    transcribe_stream h <> None ->
    silence_frames h = 0%Z ->
    Forall (silence cfg) frames ->
    exists h',
      feed cfg frames h = (h', Normal)
      /\ detections (actions h')
         = detections (actions h)
           + (if (Z.of_nat (length frames) <? to_end)%Z then 0 else 1)
      /\ is_transcribing h' = (Z.of_nat (length frames) <? to_end)%Z.
Proof.
  intros cfg to_end h frames Hend Hon Hstream Hzero Hall.
  unfold frames_to_end in Hend.
  destruct (silence_limit cfg) as [limit|] eqn:Hlimit; [|discriminate].
  injection Hend as <-.
  destruct (feed_silence_listening cfg limit Hlimit frames h Hon Hstream)
    as (h' & E & Hi & Hd); [|exact Hall|].
  - rewrite Hzero. lia.
  - rewrite Hzero in Hi, Hd. cbn [Z.add] in Hi, Hd.
    exists h'. now repeat split.
Qed.

Lemma silence_repeat (cfg : settings) (f : bytes * frame_env) (n : nat) :
  silence cfg f -> Forall (silence cfg) (repeat f n).
Proof.
  intros H. apply Forall_forall. intros g Hg.
  apply repeat_spec in Hg. now subst g.
Qed.

Lemma heard_nothing_is_silence :
  silence shipped (zero_frame, heard 0%Q).
Proof. split; [reflexivity|]. intros k. reflexivity. Qed.

(** An instance: the shipped configuration, 46 frames of silence after the
    first frame of an utterance. *)
Lemma C1_shipped_46_frames :
  exists h',
    feed shipped (repeat (zero_frame, heard 0%Q) 46) listening_start
    = (h', Normal)
    /\ detections (actions h')
       = detections (actions listening_start)
         + (if (Z.of_nat (length (repeat (zero_frame, heard 0%Q) 46))
                <? 46)%Z
            then 0 else 1)
    /\ is_transcribing h'
       = (Z.of_nat (length (repeat (zero_frame, heard 0%Q) 46)) <? 46)%Z.
Proof.
  apply (C1_end_of_utterance_after_floor_frames shipped 46 listening_start
           (repeat (zero_frame, heard 0%Q) 46)).
  - vm_compute. reflexivity.
  - reflexivity.
  - discriminate.
  - reflexivity.
  - apply silence_repeat. exact heard_nothing_is_silence.
Defined.

(** C1, as stated, fails: with the shipped configuration, whose silence
    threshold is the float 1.5 exactly, the ceiling is 47, and the end of
    the utterance is detected at the 46th silence frame (not yet at the
    45th). *)
Lemma C1_shipped_fires_one_frame_early :
  (value (silence_sec shipped) == 3 # 2)%Q
  /\ Qceiling (inject_Z (samplerate shipped)
               / (inject_Z (Z.of_nat (VAD_CHUNK_SIZE_BYTES shipped)) / 2)
               * value (silence_sec shipped))%Q = 47%Z
  /\ Forall (silence shipped) (repeat (zero_frame, heard 0%Q) 46)
  /\ detections (actions (fst (feed shipped
                                 (repeat (zero_frame, heard 0%Q) 45)
                                 listening_start))) = 0
  /\ detections (actions (fst (feed shipped
                                 (repeat (zero_frame, heard 0%Q) 46)
                                 listening_start))) = 1.
Proof.
  split; [reflexivity|]. split; [reflexivity|]. split.
  - apply silence_repeat. exact heard_nothing_is_silence.
  - split; vm_compute; reflexivity.
Qed.

(** The limit is that of the floats, not of the rationals.  At 24000 Hz,
    with frames of 512 bytes and a silence threshold of 0.288 s (the float
    nearest to it), the product of the floats is just below 27 and the
    limit is 26, where 93.75 times 288/1000 is 27.  At the shipped rate
    with the same threshold the product of the floats is 9 and the limit is
    9, where the product of 31.25 and the rational that the float stands
    for is below 9. *)
Example silence_limit_follows_the_floats :
  let threshold := SFdiv prec emax (nearest 288 0) (nearest 1000 0) in
  silence_limit {| samplerate := 24000; VAD_CHUNK_SIZE_BYTES := 512;
                   vad_threshold := (1 # 2)%Q;
                   silence_sec := threshold |} = Some 26%Z
  /\ Qfloor ((24000 # 256) * (288 # 1000))%Q = 27%Z
  /\ silence_limit {| samplerate := 8000; VAD_CHUNK_SIZE_BYTES := 512;
                      vad_threshold := (1 # 2)%Q;
                      silence_sec := threshold |} = Some 9%Z
  /\ Qfloor ((8000 # 256) * value threshold)%Q = 8%Z.
Proof. repeat split; vm_compute; reflexivity. Qed.

(** ** Barge-in *)

(** What the branch does before its await, action by action. *)
Lemma request_cancellations_actions (h : handler) :
  actions (request_cancellations h)
  = actions h ++ [BargeInDetected]
    ++ (if bot_live h then [CancelBotTask] else [])
    ++ (if live (transcript_task h) then [CancelTranscriptTask] else []).
Proof.
  unfold request_cancellations, bot_live, live.
  destruct h as [st buf [[text [| |]]|] on stream th [[| |]|] n acts];
    cbn; repeat rewrite <- app_assoc; reflexivity.
Qed.

Lemma request_cancellations_flags (h : handler) :
  is_bot_speaking (ws_app_state h) = true ->
  let h2 := request_cancellations h in
  is_bot_speaking (ws_app_state h2) = true
  /\ (bot_live h = true ->
      was_interrupted (ws_app_state h2) = true
      /\ exists text, bot_response_task h2 = Some (text, CancelRequested))
  /\ (live (transcript_task h) = true ->
      transcript_task h2 = Some CancelRequested).
Proof.
  unfold request_cancellations, bot_live, live, interrupt, is_bot_speaking.
  destruct h as [[sp ev] buf [[text [| |]]|] on stream th [[| |]|] n acts];
    cbn; intros ->; cbn; repeat split; try discriminate; eauto.
Qed.

Lemma request_cancellations_stream (h : handler) :
  transcribe_stream (request_cancellations h) = transcribe_stream h.
Proof.
  unfold request_cancellations.
  destruct h as [st buf [[text [| |]]|] on stream th [[| |]|] n acts];
    reflexivity.
Qed.

Lemma grows_by_refl (h : handler) : grows_by h h.
Proof. exists []. now rewrite app_nil_r. Qed.

Lemma grows_by_trans (h1 h2 h3 : handler) :
  grows_by h1 h2 -> grows_by h2 h3 -> grows_by h1 h3.
Proof.
  intros (t & E) (t' & E'). exists (t ++ t'). now rewrite E', E, app_assoc.
Qed.

Lemma grows_by_same (h h' : handler) : actions h' = actions h -> grows_by h h'.
Proof. intros E. exists []. now rewrite app_nil_r. Qed.

Lemma grows_by_act (a : action) (h h' : handler) :
  grows_by h h' -> grows_by h (act a h').
Proof.
  intros (t & E). exists (t ++ [a]). cbn. now rewrite E, app_assoc.
Qed.

Lemma grows_by_other_tasks (moves : list background) (h h' : handler) :
  grows_by h h' -> grows_by h (other_tasks moves h').
Proof. intros (t & E). exists t. now rewrite other_tasks_actions. Qed.

Lemma barge_in_grows (e : frame_env) (h : handler) :
  grows_by h (fst (barge_in e h)).
Proof.
  assert (G : grows_by h (request_cancellations h))
    by (eexists; apply request_cancellations_actions).
  unfold barge_in.
  destruct (transcribe_stream (request_cancellations h)).
  - destruct (transport_fails e 0); cbn [fst].
    + now apply grows_by_act, grows_by_other_tasks.
    + destruct G as (t & E). exists (t ++ [EndStream]).
      cbn. now rewrite other_tasks_actions, E, app_assoc.
  - exact G.
Qed.

(** A turn that unwinds brings the speaking flag down. *)
Lemma turn_ends_clears (h : handler) :
  is_bot_speaking (ws_app_state (apply_background h TurnEnds)) = false.
Proof.
  unfold apply_background.
  destruct (bot_response_task (set_app (stop_bot_speech (ws_app_state h)) h))
    as [[text t]|]; reflexivity.
Qed.

(** C3, as the code has it. A barge-in step (a frame examined while the
    speaking flag is up and that the classifier takes for speech) always
    asks, before it awaits anything, for the cancellation of the response
    task if it is live, and then raises the interrupt event, and cancels
    the transcription task if it is live; it then ends the transcription
    stream if there is one and, unless that call raises, forgets the
    session.  The step itself never lowers the speaking flag: after the
    step the shared state is the one the requests left, but for what the
    other tasks did while the step awaited the end of the stream; so the
    flag is still up when no stream is open or when no task moves during
    that await, and it comes down when the cancelled turn unwinds through
    its [stop_bot_speech]. *)
Theorem C3_barge_in_cancels_and_leaves_the_flag :
  forall (cfg : settings) (chunk : bytes) (e : frame_env) (h : handler),
    let h1 := other_tasks (before e) h in
    let h2 := request_cancellations h1 in
    let h' := fst (process_frame cfg chunk e h) in
    is_bot_speaking (ws_app_state h1) = true ->
    _is_speech cfg chunk e = true ->
    (* the requests, made before the only await of the step *)
    actions h2
    = actions h1 ++ [BargeInDetected]
      ++ (if bot_live h1 then [CancelBotTask] else [])
      ++ (if live (transcript_task h1) then [CancelTranscriptTask] else [])
    /\ is_bot_speaking (ws_app_state h2) = true
    /\ (bot_live h1 = true ->
        was_interrupted (ws_app_state h2) = true
        /\ exists text, bot_response_task h2 = Some (text, CancelRequested))
    /\ (live (transcript_task h1) = true ->
        transcript_task h2 = Some CancelRequested)
    (* the end of the stream, and the session *)
    /\ actions h'
       = actions h2
         ++ match transcribe_stream h1 with
            | Some _ =>
                [if transport_fails e 0 then EndStreamFailed else EndStream]
            | None => []
            end
    /\ snd (process_frame cfg chunk e h)
       = (if is_some (transcribe_stream h1) && transport_fails e 0
          then Raises else Normal)
    /\ (snd (process_frame cfg chunk e h) = Normal ->
        is_transcribing h' = false
        /\ transcribe_stream h' = None
        /\ transcript_handler h' = false
        /\ transcript_task h' = None)
    (* the shared state, and the speaking flag *)
    /\ ws_app_state h'
       = ws_app_state
           (other_tasks (match transcribe_stream h1 with
                         | Some _ => during e 0
                         | None => []
                         end) h2)
    /\ (transcribe_stream h1 = None \/ during e 0 = [] ->
        is_bot_speaking (ws_app_state h') = true
        /\ (bot_live h1 = true -> was_interrupted (ws_app_state h') = true))
    /\ is_bot_speaking (ws_app_state (apply_background h' TurnEnds)) = false.
Proof.
  intros cfg chunk e h h1 h2 h' Hsp Hspeech.
  assert (Hstep : process_frame cfg chunk e h = barge_in e h1).
  { unfold process_frame. fold (other_tasks (before e) h). fold h1.
    now rewrite Hsp, Hspeech. }
  destruct (request_cancellations_flags h1 Hsp) as (F1 & F2 & F3).
  fold h2 in F1, F2, F3.
  split; [apply request_cancellations_actions|].
  split; [exact F1|]. split; [exact F2|]. split; [exact F3|].
  assert (Hshape :
    actions h' = actions h2
         ++ match transcribe_stream h1 with
            | Some _ =>
                [if transport_fails e 0 then EndStreamFailed else EndStream]
            | None => []
            end
    /\ snd (process_frame cfg chunk e h)
       = (if is_some (transcribe_stream h1) && transport_fails e 0
          then Raises else Normal)
    /\ (snd (process_frame cfg chunk e h) = Normal ->
        is_transcribing h' = false
        /\ transcribe_stream h' = None
        /\ transcript_handler h' = false
        /\ transcript_task h' = None)
    /\ ws_app_state h'
       = ws_app_state
           (other_tasks (match transcribe_stream h1 with
                         | Some _ => during e 0
                         | None => []
                         end) h2)).
  { assert (Hs2 : transcribe_stream h2 = transcribe_stream h1)
      by apply request_cancellations_stream.
    unfold h'. rewrite Hstep. unfold barge_in. fold h2. rewrite Hs2.
    destruct (transcribe_stream h1) as [rate|].
    - destruct (transport_fails e 0); cbn [fst snd is_some andb].
      + through_awaits. split; [reflexivity|]. split; [reflexivity|].
        split; [discriminate|reflexivity].
      + through_awaits. now repeat split.
    - cbn [fst snd is_some andb]. rewrite app_nil_r. now repeat split. }
  destruct Hshape as (S1 & S2 & S3 & S4).
  split; [exact S1|]. split; [exact S2|]. split; [exact S3|].
  split; [exact S4|]. split; [|apply turn_ends_clears].
  intros Hquiet. rewrite S4.
  assert (Hsame :
    other_tasks (match transcribe_stream h1 with
                 | Some _ => during e 0
                 | None => []
                 end) h2 = h2).
  { destruct Hquiet as [-> | Hd]; [reflexivity|].
    rewrite Hd. now destruct (transcribe_stream h1). }
  rewrite Hsame. split; [exact F1|]. intros Hlive. now apply F2.
Qed.

(** An instance: the first frame of a connection is speech and arrives
    while the greeting turn speaks. *)
Lemma C3_barge_in_on_the_greeting :
  actions (request_cancellations
             (other_tasks (before speech_over_turn) greeting_launched))
  = actions (other_tasks (before speech_over_turn) greeting_launched)
    ++ [BargeInDetected]
    ++ (if bot_live (other_tasks (before speech_over_turn)
                       greeting_launched)
        then [CancelBotTask] else [])
    ++ (if live (transcript_task
                   (other_tasks (before speech_over_turn)
                      greeting_launched))
        then [CancelTranscriptTask] else [])
  /\ is_bot_speaking
       (ws_app_state
          (request_cancellations
             (other_tasks (before speech_over_turn) greeting_launched)))
     = true
  /\ (bot_live (other_tasks (before speech_over_turn) greeting_launched)
      = true ->
      was_interrupted
        (ws_app_state
           (request_cancellations
              (other_tasks (before speech_over_turn) greeting_launched)))
      = true
      /\ exists text,
          bot_response_task
            (request_cancellations
               (other_tasks (before speech_over_turn) greeting_launched))
          = Some (text, CancelRequested))
  /\ (live (transcript_task
              (other_tasks (before speech_over_turn) greeting_launched))
      = true ->
      transcript_task
        (request_cancellations
           (other_tasks (before speech_over_turn) greeting_launched))
      = Some CancelRequested)
  /\ actions (fst (process_frame shipped zero_frame speech_over_turn
                     greeting_launched))
     = actions (request_cancellations
                  (other_tasks (before speech_over_turn)
                     greeting_launched))
       ++ match transcribe_stream
                  (other_tasks (before speech_over_turn)
                     greeting_launched) with
          | Some _ =>
              [if transport_fails speech_over_turn 0
               then EndStreamFailed else EndStream]
          | None => []
          end
  /\ snd (process_frame shipped zero_frame speech_over_turn
            greeting_launched)
     = (if is_some (transcribe_stream
                      (other_tasks (before speech_over_turn)
                         greeting_launched))
           && transport_fails speech_over_turn 0
        then Raises else Normal)
  /\ (snd (process_frame shipped zero_frame speech_over_turn
             greeting_launched) = Normal ->
      is_transcribing
        (fst (process_frame shipped zero_frame speech_over_turn
                greeting_launched)) = false
      /\ transcribe_stream
           (fst (process_frame shipped zero_frame speech_over_turn
                   greeting_launched)) = None
      /\ transcript_handler
           (fst (process_frame shipped zero_frame speech_over_turn
                   greeting_launched)) = false
      /\ transcript_task
           (fst (process_frame shipped zero_frame speech_over_turn
                   greeting_launched)) = None)
  /\ ws_app_state
       (fst (process_frame shipped zero_frame speech_over_turn
               greeting_launched))
     = ws_app_state
         (other_tasks
            (match transcribe_stream
                     (other_tasks (before speech_over_turn)
                        greeting_launched) with
             | Some _ => during speech_over_turn 0
             | None => []
             end)
            (request_cancellations
               (other_tasks (before speech_over_turn) greeting_launched)))
  /\ (transcribe_stream
        (other_tasks (before speech_over_turn) greeting_launched) = None
      \/ during speech_over_turn 0 = [] ->
      is_bot_speaking
        (ws_app_state
           (fst (process_frame shipped zero_frame speech_over_turn
                   greeting_launched))) = true
      /\ (bot_live (other_tasks (before speech_over_turn)
                      greeting_launched) = true ->
          was_interrupted
            (ws_app_state
               (fst (process_frame shipped zero_frame speech_over_turn
                       greeting_launched))) = true))
  /\ is_bot_speaking
       (ws_app_state
          (apply_background
             (fst (process_frame shipped zero_frame speech_over_turn
                     greeting_launched)) TurnEnds)) = false.
Proof.
  apply (C3_barge_in_cancels_and_leaves_the_flag shipped zero_frame
           speech_over_turn greeting_launched).
  - reflexivity.
  - reflexivity.
Defined.

(** C3, as stated, fails: the greeting turn speaks, the frame is speech,
    the step is a barge-in that cancels the turn, and after the step the
    speaking flag is still up. *)
Lemma C3_flag_still_up_after_the_step :
  is_bot_speaking
    (ws_app_state (other_tasks (before speech_over_turn)
                     greeting_launched)) = true
  /\ _is_speech shipped zero_frame speech_over_turn = true
  /\ actions (fst (process_frame shipped zero_frame speech_over_turn
                     greeting_launched))
     = [CreateTask greeting; BargeInDetected; CancelBotTask]
  /\ snd (process_frame shipped zero_frame speech_over_turn
            greeting_launched) = Normal
  /\ is_bot_speaking
       (ws_app_state
          (fst (process_frame shipped zero_frame speech_over_turn
                  greeting_launched))) = true.
Proof. repeat split. Qed.

(** ** The connection: actions only accumulate *)

Lemma listening_grows (cfg : settings) (chunk : bytes) (e : frame_env)
  (speech : bool) (h : handler) :
  grows_by h (fst (listening cfg chunk e speech h)).
Proof.
  unfold listening.
  destruct (transcribe_stream h); [|apply grows_by_refl].
  destruct (transport_fails e 0); cbn [fst];
    [apply grows_by_other_tasks, grows_by_refl|].
  assert (G0 : grows_by h (act (SendAudioEvent chunk)
                            (other_tasks (during e 0) h)))
    by apply grows_by_act, grows_by_other_tasks, grows_by_refl.
  destruct speech; cbn [negb fst].
  { destruct G0 as (t & E). exists t. exact E. }
  assert (G1 : grows_by h
                 (set_silence_frames
                    (silence_frames (act (SendAudioEvent chunk)
                                       (other_tasks (during e 0) h)) + 1)%Z
                    (act (SendAudioEvent chunk)
                       (other_tasks (during e 0) h))))
    by (destruct G0 as (t & E); exists t; exact E).
  destruct (silence_limit cfg) as [limit|]; [|exact G1].
  match goal with |- context [if ?c then _ else _] => destruct c end;
    [|exact G1].
  destruct (transport_fails e 1); cbn [fst].
  { now apply grows_by_act, grows_by_other_tasks, grows_by_act. }
  destruct (transport_fails e 2); cbn [fst].
  { now apply grows_by_other_tasks, grows_by_act, grows_by_other_tasks,
      grows_by_act. }
  assert (G2 : grows_by h
    (act AwaitTranscriptTask
       (other_tasks (during e 2)
          (act EndStream
             (other_tasks (during e 1)
                (act EndOfSpeech
                   (set_silence_frames
                      (silence_frames
                         (act (SendAudioEvent chunk)
                            (other_tasks (during e 0) h)) + 1)%Z
                      (act (SendAudioEvent chunk)
                         (other_tasks (during e 0) h)))))))))
    by now apply grows_by_act, grows_by_other_tasks, grows_by_act,
         grows_by_other_tasks, grows_by_act.
  destruct G2 as (t & E). eexists.
  cbn [actions set_session]. rewrite get_full_transcript_actions, E.
  now rewrite <- app_assoc.
Qed.

Lemma start_listening_grows (cfg : settings) (chunk : bytes)
  (e : frame_env) (h : handler) :
  grows_by h (fst (start_listening cfg chunk e h)).
Proof.
  unfold start_listening.
  destruct (transport_fails e 0); cbn [fst].
  { apply grows_by_other_tasks, grows_by_same. reflexivity. }
  assert (G : grows_by h
    (set_session true (Some (samplerate cfg)) true (Some Running)
       (act (StartTranscription (samplerate cfg))
          (other_tasks (during e 0)
             (set_silence_frames 0%Z
                (set_session true (transcribe_stream h)
                   (transcript_handler h) (transcript_task h) h)))))).
  { exists [StartTranscription (samplerate cfg)].
    through_awaits. reflexivity. }
  destruct (transport_fails e 1); cbn [fst].
  - now apply grows_by_other_tasks.
  - now apply grows_by_act, grows_by_other_tasks.
Qed.

Lemma process_frame_grows (cfg : settings) (chunk : bytes) (e : frame_env)
  (h : handler) : grows_by h (fst (process_frame cfg chunk e h)).
Proof.
  apply grows_by_trans with (h2 := other_tasks (before e) h);
    [apply grows_by_other_tasks, grows_by_refl|].
  unfold process_frame. fold (other_tasks (before e) h).
  set (h1 := other_tasks (before e) h).
  destruct (is_bot_speaking (ws_app_state h1) && _is_speech cfg chunk e).
  - apply barge_in_grows.
  - destruct (is_transcribing h1).
    + apply listening_grows.
    + destruct (_is_speech cfg chunk e); [|apply grows_by_refl].
      apply start_listening_grows.
Qed.

Lemma process_frames_grows (cfg : settings) (env : nat -> frame_env)
  (frames : list bytes) :
  forall (n : nat) (h : handler),
    grows_by h (fst (fst (process_frames cfg env frames n h))).
Proof.
  induction frames as [|chunk later IH]; intros n h; cbn [process_frames].
  - apply grows_by_refl.
  - pose proof (process_frame_grows cfg chunk (env n) h) as G.
    destruct (process_frame cfg chunk (env n) h) as [h' [|]]; cbn [fst] in *.
    + eapply grows_by_trans; [exact G|apply IH].
    + exact G.
Qed.

(** The loop's first action on a message is to receive it. *)
Lemma receive_loop_grows (cfg : settings) (env : nat -> frame_env)
  (inbound : list message) :
  forall (n : nat) (h : handler),
    exists t,
      actions (fst (fst (receive_loop cfg env inbound n h))) = actions h ++ t
      /\ (forall first later, inbound = first :: later ->
          exists t', t = Receive first :: t').
Proof.
  induction inbound as [|[raw|text] later IH]; intros n h;
    cbn [receive_loop].
  - exists []. split; [now rewrite app_nil_r|discriminate].
  - destruct (on_raw_chunk (VAD_CHUNK_SIZE_BYTES cfg)
                (audio_buffer (act (Receive (Binary raw)) h)) raw)
      as [frames rest].
    set (h1 := set_buffer rest (act (Receive (Binary raw)) h)).
    pose proof (process_frames_grows cfg env frames n h1) as (t1 & E1).
    destruct (process_frames cfg env frames n h1) as [[h2 [|]] n'];
      cbn [fst] in *.
    + destruct (IH n' h2) as (t2 & E2 & _).
      exists (Receive (Binary raw) :: t1 ++ t2). split.
      * rewrite E2, E1. subst h1. cbn. now rewrite <- !app_assoc.
      * intros first later' H. injection H as <- <-. eauto.
    + exists (Receive (Binary raw) :: t1). split.
      * rewrite E1. subst h1. cbn. now rewrite <- !app_assoc.
      * intros first later' H. injection H as <- <-. eauto.
  - exists [Receive (Text text)]. cbn [fst]. split.
    + now rewrite other_tasks_actions.
    + intros first later' H. injection H as <- <-. eauto.
Qed.

Lemma cleanup_grows (e : frame_env) (after : status) (h : handler) :
  grows_by h (cleanup e after h).
Proof.
  apply grows_by_trans
    with (h2 := match after with
                | Normal => other_tasks (before e) h
                | Raises => h
                end).
  { destruct after; [apply grows_by_other_tasks|]; apply grows_by_refl. }
  unfold cleanup.
  destruct (match after with
            | Normal => other_tasks (before e) h
            | Raises => h
            end)
    as [st buf [[text [| |]]|] on [rate|] th [[| |]|] n acts];
    try destruct (transport_fails e 0);
    eexists; cbn; rewrite <- ?app_assoc; reflexivity.
Qed.

(** C9. For every connection, the handler first launches a response turn
    for the fixed text [User said hello.], and only then reads inbound
    audio: the launch is its first action, the first message received, if
    any, comes right after it, and the turn launched, when it runs, starts
    by raising the speaking flag. *)
Theorem C9_greeting_turn_before_any_audio :
  forall (cfg : settings) (env : nat -> frame_env) (inbound : list message),
    greeting = lit "User said hello."
    /\ bot_response_task greeting_launched = Some (greeting, Running)
    /\ (exists rest,
           actions (handle_connection cfg env inbound)
           = CreateTask greeting :: rest
           /\ (forall first later, inbound = first :: later ->
               exists rest', rest = Receive first :: rest'))
    /\ (forall (polly : nat -> str -> synth_result)
               (stream : list stream_step),
           exists w' t,
             invoke_bedrock polly stream (fresh AppState_init) = (Ok tt, w')
             /\ trace w' = SpeechStarted :: t).
Proof.
  intros cfg env inbound.
  split; [reflexivity|]. split; [reflexivity|]. split.
  - unfold handle_connection. fold greeting_launched.
    destruct (receive_loop_grows cfg env inbound 0 greeting_launched)
      as (t & E & Hfirst).
    destruct (receive_loop cfg env inbound 0 greeting_launched)
      as [[h' [|]] n]; cbn [fst] in E.
    + destruct (cleanup_grows (env n) Normal h') as (t' & E').
      exists (t ++ t'). split.
      * rewrite E', E. cbn. reflexivity.
      * intros first later H. destruct (Hfirst first later H) as (t0 & ->).
        eexists. cbn. reflexivity.
    + destruct (cleanup_grows (env n) Raises (act HandlerError h'))
        as (t' & E').
      exists (t ++ HandlerError :: t'). split.
      * rewrite E'. cbn [actions act]. rewrite E. cbn.
        now rewrite <- !app_assoc.
      * intros first later H. destruct (Hfirst first later H) as (t0 & ->).
        eexists. cbn. reflexivity.
  - intros polly stream.
    destruct (turn_shape polly stream (fresh AppState_init))
      as (w' & t & E & Et & _).
    exists w', (t ++ [SpeechStopped]). split; [exact E|]. exact Et.
Qed.

(* ================================================================== *)
(** * Further properties of the code *)
(* ================================================================== *)

(** ** The relay of synthesized audio *)

Lemma interrupt_keeps_speaking (st : AppState) :
  is_bot_speaking (interrupt st) = is_bot_speaking st.
Proof. destruct st as [[|] ev]; reflexivity. Qed.

Lemma relay_loop_sends (steps : list relay_step) :
  forall w : world,
    exists w' sent,
      relay_loop steps w = (Ok tt, w')
      /\ trace w' = trace w ++ map Send sent
      /\ polly_calls w' = polly_calls w
      /\ is_bot_speaking (app_state w') = is_bot_speaking (app_state w)
      /\ (exists rest, block_data steps = sent ++ rest)
      /\ Forall (fun data => data <> []) sent
      /\ (was_interrupted (app_state w) = true -> sent = [])
      /\ (forallb quiet_step steps = true ->
          was_interrupted (app_state w) = false ->
          sent = block_data steps /\ app_state w' = app_state w).
Proof.
  assert (Hstop : forall (w : world) (l : list relay_step) (q : Prop)
                         (i : bool),
             (i = false -> block_data l = [])
             -> exists w' sent,
               (Ok tt, w) = (Ok tt, w')
               /\ trace w' = trace w ++ map Send sent
               /\ polly_calls w' = polly_calls w
               /\ is_bot_speaking (app_state w')
                  = is_bot_speaking (app_state w)
               /\ (exists rest, block_data l = sent ++ rest)
               /\ Forall (fun data => data <> []) sent
               /\ (i = true -> sent = [])
               /\ (q -> i = false ->
                   sent = block_data l /\ app_state w' = app_state w)).
  { intros w l q i Hb. exists w, []. cbn. rewrite app_nil_r.
    split; [reflexivity|]. split; [reflexivity|]. split; [reflexivity|].
    split; [reflexivity|]. split; [now exists (block_data l)|].
    split; [constructor|]. split; [reflexivity|].
    intros _ Hi. now rewrite (Hb Hi). }
  induction steps as [|s later IH]; intros w; rewrite relay_loop_unfold;
    unfold bind, ask_state, ret;
    destruct (was_interrupted (app_state w)) eqn:Hi; cbv beta iota;
    try (apply Hstop; intros; (discriminate || reflexivity)).
  destruct s as [data barged|data| |]; cbv beta iota;
    try (apply Hstop; intros; reflexivity).
  2: { destruct (length data =? 0); [apply Hstop; reflexivity|].
       cbn [on_state]. eexists. exists []. cbn. rewrite app_nil_r.
       split; [reflexivity|]. split; [reflexivity|]. split; [reflexivity|].
       split; [apply interrupt_keeps_speaking|].
       split; [now exists []|]. split; [constructor|].
       split; [reflexivity|]. discriminate. }
  destruct (length data =? 0) eqn:Hlen.
  - apply Hstop. intros _. cbn. now rewrite Hlen.
  - cbn [log fst snd].
    set (w1 := {| app_state := app_state w; polly_calls := polly_calls w;
                  trace := trace w ++ [Send data] |}).
    assert (Hdata : data <> []).
    { intros ->. cbn in Hlen. discriminate. }
    destruct barged.
    + cbn [on_state].
      set (w2 := {| app_state := interrupt (app_state w1);
                    polly_calls := polly_calls w1; trace := trace w1 |}).
      destruct (IH w2)
        as (w' & sent & E & Et & Hn & Hsp & (rest & Hb) & Hne & Hint & _).
      exists w', (data :: sent). rewrite E.
      split; [reflexivity|]. split.
      { rewrite Et. subst w2 w1. cbn. now rewrite <- app_assoc. }
      split; [exact Hn|]. split.
      { rewrite Hsp. subst w2 w1. cbn. apply interrupt_keeps_speaking. }
      split.
      { exists rest. cbn. now rewrite Hlen, Hb. }
      split; [now constructor|]. split; [discriminate|].
      cbn. discriminate.
    + cbn [ret].
      destruct (IH w1)
        as (w' & sent & E & Et & Hn & Hsp & (rest & Hb) & Hne & _ & Hq).
      exists w', (data :: sent). rewrite E.
      split; [reflexivity|]. split.
      { rewrite Et. subst w1. cbn. now rewrite <- app_assoc. }
      split; [exact Hn|]. split; [exact Hsp|]. split.
      { exists rest. cbn. now rewrite Hlen, Hb. }
      split; [now constructor|]. split; [discriminate|].
      cbn. intros Hquiet _. destruct (Hq Hquiet Hi) as (-> & ->).
      now rewrite Hlen.
Qed.

(** X1. Whatever the stream, the connection and the other task do, the
    relay of a synthesized stream returns normally, sends non-empty blocks
    only, in the order the stream delivers them and without skipping one,
    and closes the stream once, as the last thing it does; it sends nothing
    when the turn is already interrupted, and everything up to the end of
    the stream (or to the first failure or cancellation) when nothing
    interrupts. *)
Theorem X1_relay_sends_a_prefix_and_closes :
  forall (steps : list relay_step) (w : world),
    exists w' sent,
      _send_audio_to_client steps w = (Ok tt, w')
      /\ trace w' = trace w ++ map Send sent ++ [CloseAudio]
      /\ polly_calls w' = polly_calls w
      /\ is_bot_speaking (app_state w') = is_bot_speaking (app_state w)
      /\ (exists rest, block_data steps = sent ++ rest)
      /\ Forall (fun data => data <> []) sent
      /\ (was_interrupted (app_state w) = true -> sent = [])
      /\ (forallb quiet_step steps = true ->
          was_interrupted (app_state w) = false ->
          sent = block_data steps /\ app_state w' = app_state w).
Proof.
  intros steps w. unfold _send_audio_to_client, try_finally.
  destruct (relay_loop_sends steps w)
    as (w1 & sent & E & Et & Hn & Hsp & Hb & Hne & Hint & Hq).
  rewrite E. eexists. exists sent. split; [reflexivity|]. cbn.
  rewrite Et, <- app_assoc. repeat split; auto; now apply Hq.
Qed.

Lemma relay_loop_closed (blocks : list bytes) (data : bytes)
  (later : list relay_step) :
  forall w : world,
    was_interrupted (app_state w) = false ->
    Forall (fun d => d <> []) blocks ->
    data <> [] ->
    relay_loop (map (fun d => Block d false) blocks
                ++ ConnectionClosed data :: later) w
    = (Ok tt, {| app_state := interrupt (app_state w);
                 polly_calls := polly_calls w;
                 trace := trace w ++ map Send blocks |}).
Proof.
  induction blocks as [|d blocks IH]; intros w Hi Hall Hdata;
    rewrite relay_loop_unfold; unfold bind, ask_state; rewrite Hi;
    cbn [map app].
  - destruct data as [|b data]; [contradiction|]. cbn. now rewrite app_nil_r.
  - inversion Hall as [|d' l Hd Hl]; subst.
    destruct d as [|b d]; [contradiction|].
    cbn [length Nat.eqb log ret].
    rewrite IH by (cbn; auto). cbn. now rewrite <- app_assoc.
Qed.

(** X2. When the connection closes under a send while the bot is speaking
    and the turn is not interrupted, the relay has sent exactly the blocks
    before the failed send, closes the stream, returns normally, and leaves
    the interrupt event raised. *)
Theorem X2_closed_connection_interrupts_the_turn :
  forall (blocks : list bytes) (data : bytes) (later : list relay_step)
         (w : world),
    is_bot_speaking (app_state w) = true ->
    was_interrupted (app_state w) = false ->
    Forall (fun d => d <> []) blocks ->
    data <> [] ->
    exists w',
      _send_audio_to_client
        (map (fun d => Block d false) blocks ++ ConnectionClosed data :: later)
        w = (Ok tt, w')
      /\ trace w' = trace w ++ map Send blocks ++ [CloseAudio]
      /\ was_interrupted (app_state w') = true
      /\ is_bot_speaking (app_state w') = true.
Proof.
  intros blocks data later w Hsp Hi Hall Hdata.
  unfold _send_audio_to_client, try_finally.
  rewrite relay_loop_closed by assumption.
  eexists. split; [reflexivity|]. cbn. rewrite <- app_assoc.
  unfold interrupt. rewrite Hsp. cbn. now repeat split.
Qed.

(** An instance: two blocks are sent, the third send finds the connection
    closed. *)
Lemma X2_two_blocks_then_closed :
  exists w',
    _send_audio_to_client
      (map (fun d => Block d false) [[Byte.x01]; [Byte.x02]]
       ++ ConnectionClosed [Byte.x03] :: [])
      (fresh (start_bot_speech AppState_init)) = (Ok tt, w')
    /\ trace w'
       = trace (fresh (start_bot_speech AppState_init))
         ++ map Send [[Byte.x01]; [Byte.x02]] ++ [CloseAudio]
    /\ was_interrupted (app_state w') = true
    /\ is_bot_speaking (app_state w') = true.
Proof.
  apply (X2_closed_connection_interrupts_the_turn
           [[Byte.x01]; [Byte.x02]] [Byte.x03] []
           (fresh (start_bot_speech AppState_init))).
  - reflexivity.
  - reflexivity.
  - repeat constructor; discriminate.
  - discriminate.
Defined.

(** ** An interrupted turn *)

Lemma interrupt_when_interrupted (st : AppState) :
  was_interrupted st = true -> interrupt st = st.
Proof.
  destruct st as [[|] ev]; unfold interrupt, was_interrupted; cbn;
    intros ->; reflexivity.
Qed.

Lemma generator_interrupted (polly : nat -> str -> synth_result)
  (stream : list stream_step) :
  forall (buffer : str) (w : world),
    was_interrupted (app_state w) = true ->
    exists r, _to_chunk_generator (speak_chunk polly) stream buffer w = (r, w).
Proof.
  induction stream as [|s later IH]; intros buffer w Hi;
    cbn [_to_chunk_generator].
  - unfold flush, bind, ask_state. rewrite Hi, andb_false_r. now eexists.
  - destruct s as [f| | |].
    + unfold bind, ask_state. rewrite Hi.
      unfold flush, bind, ask_state. rewrite Hi, andb_false_r. now eexists.
    + unfold bind, on_state. rewrite (interrupt_when_interrupted _ Hi).
      replace {| app_state := app_state w; polly_calls := polly_calls w;
                 trace := trace w |} with w by now destruct w.
      now apply IH.
    + now eexists.
    + now eexists.
Qed.

(** X3. Once the interrupt event is up, the rest of a turn is silent,
    whatever the generation stream and the synthesis collaborator would do:
    the generator, resumed at a fragment, yields nothing and changes
    nothing; a chunk already on its way is handed over but not spoken, and
    the loop is left; the error handler logs and does not speak the
    apology. *)
Theorem X3_interrupted_turn_is_silent :
  forall (polly : nat -> str -> synth_result) (stream : list stream_step)
         (buffer chunk : str) (chunks : list str) (w : world),
    was_interrupted (app_state w) = true ->
    (exists r,
        _to_chunk_generator (speak_chunk polly) stream buffer w = (r, w))
    /\ yield_all (speak_chunk polly) (chunk :: chunks) w
       = (Ok Break, extend [Yielded chunk] w)
    /\ on_error polly w = (Ok tt, extend [BedrockError] w).
Proof.
  intros polly stream buffer chunk chunks w Hi. split; [|split].
  - now apply generator_interrupted.
  - cbn [yield_all]. unfold bind, log, speak_chunk, bind, ask_state.
    cbn [app_state]. now rewrite Hi.
  - unfold on_error, bind, log, ask_state. cbn [app_state]. now rewrite Hi.
Qed.

(** An instance: the state a barge-in leaves behind. *)
Lemma X3_after_a_barge_in :
  (exists r,
      _to_chunk_generator (speak_chunk (fun _ _ => AudioStream []))
        [Fragment (lit "More text.")] []
        (fresh (interrupt (start_bot_speech AppState_init)))
      = (r, fresh (interrupt (start_bot_speech AppState_init))))
  /\ yield_all (speak_chunk (fun _ _ => AudioStream []))
       (lit "More." :: [])
       (fresh (interrupt (start_bot_speech AppState_init)))
     = (Ok Break,
        extend [Yielded (lit "More.")]
          (fresh (interrupt (start_bot_speech AppState_init))))
  /\ on_error (fun _ _ => AudioStream [])
       (fresh (interrupt (start_bot_speech AppState_init)))
     = (Ok tt,
        extend [BedrockError]
          (fresh (interrupt (start_bot_speech AppState_init)))).
Proof.
  apply (X3_interrupted_turn_is_silent (fun _ _ => AudioStream [])
           [Fragment (lit "More text.")] [] (lit "More.") []
           (fresh (interrupt (start_bot_speech AppState_init)))).
  reflexivity.
Defined.

(** X4. A turn that is interrupted before the first fragment of its
    generation stream arrives says nothing: whatever follows in the stream
    and whatever the synthesis collaborator would answer, it makes no
    synthesis call and sends nothing, the apology included, and it ends with
    the speaking flag down. *)
Theorem X4_turn_interrupted_at_once_says_nothing :
  forall (polly : nat -> str -> synth_result) (later : list stream_step)
         (st : AppState),
    exists w' t,
      invoke_bedrock polly (BargeIn :: later) (fresh st) = (Ok tt, w')
      /\ trace w' = SpeechStarted :: t ++ [SpeechStopped]
      /\ (t = [] \/ t = [TaskCancelled] \/ t = [BedrockError])
      /\ polly_calls w' = 0
      /\ is_bot_speaking (app_state w') = false.
Proof.
  intros polly later st.
  rewrite invoke_bedrock_unfold.
  cbn [_to_chunk_generator]. unfold try_finally, try_except.
  unfold bind at 1. unfold bind at 1. cbn [on_state app_state fresh].
  match goal with |- context [_to_chunk_generator _ later [] ?w0] =>
    destruct (generator_interrupted polly later [] w0 eq_refl) as (r & E);
    rewrite E
  end.
  destruct r as [c|[|]]; cbn.
  - eexists. exists []. now repeat split; auto.
  - eexists. exists [TaskCancelled]. now repeat split; auto.
  - eexists. exists [BedrockError]. repeat split; auto.
Qed.

(** ** Stripping *)

Lemma punctuation_not_space (c : ascii) :
  is_punctuation c = true -> isspace c = false.
Proof.
  unfold is_punctuation, is_terminator. intros H.
  repeat (apply orb_true_iff in H; destruct H as [H|H]);
    apply Ascii.eqb_eq in H; subst c; reflexivity.
Qed.

Lemma lstrip_split (s : str) :
  exists ws, s = ws ++ lstrip s /\ Forall (fun c => isspace c = true) ws.
Proof.
  induction s as [|c t (ws & E & Hws)]; [now exists []|]. cbn.
  destruct (isspace c) eqn:Hc.
  - exists (c :: ws). split; [cbn; now rewrite <- E|now constructor].
  - now exists [].
Qed.

Lemma lstrip_spaces (ws s : str) :
  Forall (fun c => isspace c = true) ws -> lstrip (ws ++ s) = lstrip s.
Proof. induction 1 as [|c ws Hc _ IH]; cbn; [reflexivity|now rewrite Hc]. Qed.

Lemma lstrip_clean (s : str) : starts_clean s -> lstrip s = s.
Proof. destruct s as [|c t]; cbn; [reflexivity|]. now intros ->. Qed.

Lemma starts_clean_lstrip (s : str) : starts_clean (lstrip s).
Proof.
  induction s as [|c t IH]; cbn; [exact I|].
  destruct (isspace c) eqn:Hc; [exact IH|exact Hc].
Qed.

Lemma rstrip_split (s : str) :
  exists ws, s = rstrip s ++ ws /\ Forall (fun c => isspace c = true) ws.
Proof.
  destruct (lstrip_split (rev s)) as (ws & E & Hws).
  exists (rev ws). split.
  - unfold rstrip. rewrite <- rev_app_distr, <- E. now rewrite rev_involutive.
  - now apply Forall_rev.
Qed.

Lemma starts_clean_rstrip (s : str) : starts_clean s -> starts_clean (rstrip s).
Proof.
  intros H. destruct (rstrip_split s) as (ws & E & _).
  destruct (rstrip s) as [|c t]; [exact I|].
  rewrite E in H. exact H.
Qed.

Lemma stripped_strip (s : str) : stripped (strip s).
Proof.
  unfold stripped, strip. split.
  - apply starts_clean_rstrip, starts_clean_lstrip.
  - unfold rstrip. rewrite rev_involutive. apply starts_clean_lstrip.
Qed.

(** Stripping a text with no whitespace at its ends changes nothing. *)
Lemma strip_stripped (s : str) : stripped s -> strip s = s.
Proof.
  intros [H1 H2]. unfold strip, rstrip.
  rewrite (lstrip_clean s H1), (lstrip_clean (rev s) H2).
  apply rev_involutive.
Qed.

Lemma Forall_lstrip (Q : ascii -> Prop) (s : str) :
  Forall Q s -> Forall Q (lstrip s).
Proof.
  induction 1 as [|c t Hc Ht IH]; cbn; [constructor|].
  destruct (isspace c); [exact IH|now constructor].
Qed.

Lemma Forall_strip (Q : ascii -> Prop) (s : str) :
  Forall Q s -> Forall Q (strip s).
Proof.
  intros H. unfold strip, rstrip.
  apply Forall_rev, Forall_lstrip, Forall_rev, Forall_lstrip, H.
Qed.

(** A mark between two runs of whitespace strips to the mark. *)
Lemma strip_mark (before after : str) (p : ascii) :
  Forall (fun c => isspace c = true) before ->
  Forall (fun c => isspace c = true) after ->
  isspace p = false ->
  strip (before ++ p :: after) = [p].
Proof.
  intros Hb Ha Hp. unfold strip, rstrip.
  rewrite lstrip_spaces by exact Hb.
  rewrite (lstrip_clean (p :: after)) by exact Hp.
  cbn [rev]. rewrite lstrip_spaces by now apply Forall_rev.
  cbn. now rewrite Hp.
Qed.

(** ** The shape of a split *)

Lemma span_space_rest (s : str) :
  forall run rest, span_space s = (run, rest) -> starts_clean rest.
Proof.
  induction s as [|c t IH]; intros run rest H; cbn in H.
  - now injection H as <- <-.
  - destruct (isspace c) eqn:Hc.
    + destruct (span_space t) as [run' rest'] eqn:Ht.
      injection H as <- <-. now apply (IH run' rest').
    + injection H as <- <-. exact Hc.
Qed.

Lemma newline_is_space : isspace newline = true.
Proof. reflexivity. Qed.

(** What a match strips to. *)
Lemma match_split_pattern_mark (s delimiter rest : str) :
  match_split_pattern s = Some (delimiter, rest) ->
  tail_mark (strip delimiter).
Proof.
  destruct s as [|c t]; [discriminate|]. unfold match_split_pattern.
  assert (Hnl : forall d r,
             (if Ascii.eqb c newline then Some ([c], t) else None)
             = Some (d, r) -> tail_mark (strip d)).
  { intros d r Hd. destruct (Ascii.eqb c newline) eqn:Hc; [|discriminate].
    injection Hd as <- <-. apply Ascii.eqb_eq in Hc. subst c. now left. }
  destruct (is_terminator c) eqn:Hterm.
  - destruct (span_space t) as [run rest0] eqn:Hs. intros H.
    injection H as <- <-. right. exists c.
    assert (Hp : is_punctuation c = true)
      by (unfold is_punctuation; now rewrite Hterm).
    split; [exact Hp|].
    apply (strip_mark [] run c); [constructor| |].
    + now apply (span_space_run t run rest0).
    + now apply punctuation_not_space.
  - destruct (span_space (c :: t)) as [before0 rest0] eqn:Hs.
    destruct rest0 as [|d rest']; [apply Hnl|].
    destruct (Ascii.eqb d comma) eqn:Hd; [|apply Hnl].
    destruct (span_space rest') as [after0 rest''] eqn:Hs'. intros H.
    injection H as <- <-. right. exists d.
    assert (Hp : is_punctuation d = true)
      by (unfold is_punctuation; rewrite Hd; apply orb_true_r).
    split; [exact Hp|].
    apply strip_mark.
    + now apply (span_space_run (c :: t) before0 (d :: rest')).
    + now apply (span_space_run rest' after0 rest'').
    + now apply punctuation_not_space.
Qed.

(** Where the pattern does not match, the character is no punctuation. *)
Lemma match_split_pattern_none (c : ascii) (t : str) :
  match_split_pattern (c :: t) = None -> is_punctuation c = false.
Proof.
  unfold match_split_pattern, is_punctuation.
  destruct (is_terminator c) eqn:Hterm.
  - destruct (span_space t); discriminate.
  - cbn [orb]. destruct (Ascii.eqb c comma) eqn:Hc; [|reflexivity].
    assert (Hsp : isspace c = false).
    { apply punctuation_not_space. unfold is_punctuation.
      rewrite Hc. apply orb_true_r. }
    cbn [span_space]. rewrite Hsp, Hc.
    destruct (span_space t); discriminate.
Qed.

Lemma split_shape_cons_head (c : ascii) (head : str) (parts : list str) :
  is_punctuation c = false ->
  split_shape (head :: parts) -> split_shape ((c :: head) :: parts).
Proof.
  intros Hc H. inversion H; subst; constructor; auto; now constructor.
Qed.

Lemma re_split_shape (n : nat) :
  forall s : str, length s <= n -> split_shape (re_split s).
Proof.
  induction n as [|n IH]; intros s Hn.
  - destruct s; [|cbn in Hn; lia]. repeat constructor.
  - destruct s as [|c t]; [repeat constructor|].
    rewrite re_split_cons. cbn [length] in Hn.
    destruct (match_split_pattern (c :: t)) as [[delimiter rest]|] eqn:Hm.
    + constructor.
      * constructor.
      * now apply (match_split_pattern_mark (c :: t) delimiter rest).
      * apply IH. apply match_split_pattern_shorter in Hm.
        cbn [length] in Hm. lia.
    + specialize (IH t ltac:(lia)).
      destruct (re_split t) as [|head parts]; [inversion IH|].
      apply split_shape_cons_head; [|exact IH].
      now apply (match_split_pattern_none c t).
Qed.

(** ** The shape of the chunks *)

Lemma emit_pairs_shape (parts : list str) :
  split_shape parts ->
  Forall chunk_shape (emit_pairs (removelast parts))
  /\ punct_free (last parts []).
Proof.
  induction 1 as [text Ht|text delimiter later Ht Hd Hl [IH1 IH2]].
  - split; [constructor|exact Ht].
  - assert (Hne : later <> []) by (destruct Hl; discriminate).
    change (removelast (text :: delimiter :: later))
      with (text :: match later with
                    | [] => []
                    | _ :: _ => delimiter :: removelast later
                    end).
    change (last (text :: delimiter :: later) [])
      with (match later with [] => delimiter | _ :: _ => last later [] end).
    destruct later as [|l0 later0]; [contradiction|].
    set (later := l0 :: later0) in *.
    split; [|exact IH2].
    cbn [emit_pairs].
    destruct (truthy (strip text)) eqn:Hb; [|exact IH1].
    constructor; [|exact IH1].
    exists (strip text), (strip delimiter).
    split; [reflexivity|]. split.
    { intros E. now rewrite E in Hb. }
    split; [now apply Forall_strip|]. split; [apply stripped_strip|exact Hd].
Qed.

Lemma split_buffer_shape (buffer : str) :
  forall chunks kept, split_buffer buffer = (chunks, kept) ->
    Forall chunk_shape chunks /\ punct_free kept.
Proof.
  intros chunks kept H. unfold split_buffer in H. injection H as <- <-.
  apply emit_pairs_shape. now apply (re_split_shape (length buffer)).
Qed.

Lemma chunks_from_shape (fragments : list str) :
  forall buffer : str,
    punct_free buffer -> Forall chunk_shape (chunks_from fragments buffer).
Proof.
  induction fragments as [|f later IH]; intros buffer Hb; cbn [chunks_from].
  - destruct (truthy (strip buffer)) eqn:Ht; [|constructor].
    constructor; [|constructor].
    exists (strip buffer), []. rewrite app_nil_r.
    split; [reflexivity|]. split.
    { intros E. now rewrite E in Ht. }
    split; [now apply Forall_strip|]. split; [apply stripped_strip|now left].
  - destruct (negb (truthy f)); [now apply IH|].
    destruct (split_buffer (buffer ++ f)) as [chunks kept] eqn:Hs.
    apply split_buffer_shape in Hs. destruct Hs as (Hc & Hk).
    apply Forall_app. split; [exact Hc|now apply IH].
Qed.

Lemma Forall_removelast (Q : ascii -> Prop) (s : str) :
  Forall Q s -> Forall Q (removelast s).
Proof.
  induction 1 as [|c t Hc Ht IH]; cbn; [constructor|].
  destruct t; [constructor|]. constructor; [exact Hc|exact IH].
Qed.

(** What the shape gives. *)
Lemma chunk_shape_facts (c : str) :
  chunk_shape c ->
  (exists x rest, c = x :: rest
                  /\ isspace x = false /\ is_punctuation x = false)
  /\ strip c = c
  /\ punct_free (removelast c).
Proof.
  intros (body & tail & -> & Hne & Hpf & (Hs1 & Hs2) & Htail).
  destruct body as [|x body']; [contradiction|].
  split; [|split].
  - exists x, (body' ++ tail). split; [reflexivity|]. split; [exact Hs1|].
    now inversion Hpf.
  - apply strip_stripped. destruct Htail as [->|(p & Hp & ->)].
    + rewrite app_nil_r. now split.
    + split; [exact Hs1|]. rewrite rev_app_distr. cbn [rev app].
      now apply punctuation_not_space.
  - destruct Htail as [->|(p & Hp & ->)].
    + rewrite app_nil_r. now apply Forall_removelast.
    + now rewrite removelast_last.
Qed.

(** X5. Every chunk the generator yields, when nothing interrupts it, is
    not empty, has no whitespace at either end, starts with a character that
    is neither whitespace nor punctuation, and holds no punctuation mark
    ([.] [?] [!] [,]) other than, possibly, its last character; so every
    chunk passes the test the turn makes before speaking it. *)
Theorem X5_chunks_are_trimmed_sentences :
  forall (speaking : bool) (fragments : list str),
    Forall (fun c =>
              (exists x rest, c = x :: rest
                              /\ isspace x = false
                              /\ is_punctuation x = false)
              /\ strip c = c
              /\ punct_free (removelast c)
              /\ truthy c && truthy (strip c) = true)
      (chunks_of {| _is_bot_speaking := speaking; interrupt_event := false |}
         fragments).
Proof.
  intros speaking fragments.
  rewrite chunks_of_uninterrupted by reflexivity.
  eapply Forall_impl; [|apply (chunks_from_shape fragments []); constructor].
  intros c Hc. destruct (chunk_shape_facts c Hc) as (Hx & Hs & Hp).
  repeat split; auto.
  rewrite Hs. destruct Hx as (x & rest & -> & _). reflexivity.
Qed.

(** ** The chunks rebuild the text *)

Lemma blank_app (a b : str) : blank a -> blank b -> blank (a ++ b).
Proof. intros Ha Hb. apply Forall_app. now split. Qed.

Lemma strip_split (s : str) :
  exists ws ws', s = ws ++ strip s ++ ws' /\ blank ws /\ blank ws'.
Proof.
  destruct (lstrip_split s) as (ws & E & Hws).
  destruct (rstrip_split (lstrip s)) as (ws' & E' & Hws').
  exists ws, ws'. split; [|now split].
  unfold strip. now rewrite <- E', <- E.
Qed.

Lemma strip_blank (s : str) : blank s -> strip s = [].
Proof.
  intros Hb. unfold strip.
  assert (E : lstrip s = []).
  { rewrite <- (app_nil_r s). now rewrite lstrip_spaces. }
  now rewrite E.
Qed.

Lemma falsy_strip_blank (s : str) : truthy (strip s) = false -> blank s.
Proof.
  intros H. destruct (strip_split s) as (ws & ws' & E & Hws & Hws').
  destruct (strip s); [|discriminate]. rewrite E. now apply blank_app.
Qed.

Lemma spaces_blank (s : str) : spaces s -> blank s.
Proof. apply Forall_impl. now intros c [H _]. Qed.

Lemma spaces_app (a b : str) : spaces a -> spaces b -> spaces (a ++ b).
Proof. intros Ha Hb. apply Forall_app. now split. Qed.

(** Whitespace of a text in which the pattern matches nothing holds no
    newline. *)
Lemma blank_no_delimiter (s : str) : blank s -> no_delimiter s -> spaces s.
Proof.
  intros Hb Hn. induction Hb as [|c t Hc _ IH]; [constructor|].
  inversion Hn as [|c' t' [_ Hnl] Ht]; subst.
  constructor; [now split|now apply IH].
Qed.

Lemma gap_blank_prefix (ws d : str) : spaces ws -> gap d -> gap (ws ++ d).
Proof.
  intros Hws [ws0 p ws' H0 Hp H'|ws0 ws' H0 H'|ws0 ws' H0 H'];
    rewrite app_assoc.
  - apply gap_terminator; auto using spaces_app.
  - apply gap_comma; auto. apply blank_app; auto using spaces_blank.
  - apply gap_newline; auto using spaces_app.
Qed.

Lemma terminator_is_punctuation (p : ascii) :
  is_terminator p = true -> is_punctuation p = true.
Proof. intros H. unfold is_punctuation. now rewrite H. Qed.

Lemma comma_is_punctuation : is_punctuation comma = true.
Proof. reflexivity. Qed.

(** What a gap strips to: its mark, or nothing. *)
Lemma strip_gap_mark (ws ws' : str) (p : ascii) :
  blank ws -> blank ws' -> is_punctuation p = true ->
  strip (ws ++ p :: ws') = [p].
Proof.
  intros H H' Hp. apply strip_mark; auto using punctuation_not_space.
Qed.

Lemma strip_gap (d : str) :
  gap d ->
  forall ws, blank ws -> strip (ws ++ d) = strip d.
Proof.
  intros [ws0 p ws' H0 Hp H'|ws0 ws' H0 H'|ws0 ws' H0 H'] ws Hws.
  - apply spaces_blank in H0. apply terminator_is_punctuation in Hp.
    rewrite app_assoc.
    rewrite (strip_gap_mark (ws ++ ws0) ws' p),
      (strip_gap_mark ws0 ws' p); auto.
    now apply blank_app.
  - rewrite app_assoc.
    rewrite (strip_gap_mark (ws ++ ws0) ws' comma),
      (strip_gap_mark ws0 ws' comma); auto.
    now apply blank_app.
  - apply spaces_blank in H0.
    assert (Hd : blank (ws0 ++ newline :: ws')).
    { apply blank_app; [exact H0|]. constructor; [reflexivity|exact H']. }
    rewrite (strip_blank (ws ++ ws0 ++ newline :: ws')),
      (strip_blank (ws0 ++ newline :: ws')); auto.
    now apply blank_app.
Qed.

(** What the pattern matches is a gap. *)
Lemma match_split_pattern_gap (s delimiter rest : str) :
  match_split_pattern s = Some (delimiter, rest) -> gap delimiter.
Proof.
  destruct s as [|c t]; [discriminate|]. unfold match_split_pattern.
  assert (Hnl : forall d r,
             (if Ascii.eqb c newline then Some ([c], t) else None)
             = Some (d, r) -> gap d).
  { intros d r Hd. destruct (Ascii.eqb c newline) eqn:Hc; [|discriminate].
    injection Hd as <- <-. apply Ascii.eqb_eq in Hc. subst c.
    apply (gap_newline [] []); constructor. }
  destruct (is_terminator c) eqn:Hterm.
  - destruct (span_space t) as [run rest0] eqn:Hs. intros H.
    injection H as <- <-.
    apply (gap_terminator [] c run); [constructor|exact Hterm|].
    now apply (span_space_run t run rest0).
  - destruct (span_space (c :: t)) as [before0 rest0] eqn:Hs.
    destruct rest0 as [|d rest']; [apply Hnl|].
    destruct (Ascii.eqb d comma) eqn:Hd; [|apply Hnl].
    destruct (span_space rest') as [after0 rest''] eqn:Hs'. intros H.
    injection H as <- <-. apply Ascii.eqb_eq in Hd. subst d.
    apply gap_comma.
    + now apply (span_space_run (c :: t) before0 (comma :: rest')).
    + now apply (span_space_run rest' after0 rest'').
Qed.

(** Where the pattern does not match, the character is no newline. *)
Lemma match_split_pattern_none_newline (c : ascii) (t : str) :
  match_split_pattern (c :: t) = None -> Ascii.eqb c newline = false.
Proof.
  unfold match_split_pattern.
  destruct (is_terminator c).
  - destruct (span_space t); discriminate.
  - destruct (span_space (c :: t)) as [before0 [|d rest']].
    + now destruct (Ascii.eqb c newline).
    + destruct (Ascii.eqb d comma).
      * destruct (span_space rest'); discriminate.
      * now destruct (Ascii.eqb c newline).
Qed.

Lemma split_gaps_cons_head (c : ascii) (head : str) (parts : list str) :
  is_punctuation c = false -> Ascii.eqb c newline = false ->
  split_gaps (head :: parts) -> split_gaps ((c :: head) :: parts).
Proof.
  intros Hp Hn H. inversion H; subst; constructor; auto;
    constructor; auto.
Qed.

Lemma re_split_gaps (n : nat) :
  forall s : str, length s <= n -> split_gaps (re_split s).
Proof.
  induction n as [|n IH]; intros s Hn.
  - destruct s; [|cbn in Hn; lia]. repeat constructor.
  - destruct s as [|c t]; [repeat constructor|].
    rewrite re_split_cons. cbn [length] in Hn.
    destruct (match_split_pattern (c :: t)) as [[delimiter rest]|] eqn:Hm.
    + constructor.
      * constructor.
      * now apply (match_split_pattern_gap (c :: t) delimiter rest).
      * apply IH. apply match_split_pattern_shorter in Hm.
        cbn [length] in Hm. lia.
    + specialize (IH t ltac:(lia)).
      destruct (re_split t) as [|head parts]; [inversion IH|].
      apply split_gaps_cons_head; [| |exact IH].
      * now apply (match_split_pattern_none c t).
      * now apply (match_split_pattern_none_newline c t).
Qed.

Lemma sentence_strip (text : str) :
  no_delimiter text -> truthy (strip text) = true -> sentence (strip text).
Proof.
  intros Hn Ht. split; [|split].
  - intros E. now rewrite E in Ht.
  - apply stripped_strip.
  - now apply Forall_strip.
Qed.

(** The emit loop on a split: the chunks it yields, followed by whatever
    rebuilds the text kept and what comes after it. *)
Lemma emit_pairs_rebuilds (parts : list str) :
  split_gaps parts ->
  forall (chunks : list str) (rest : str),
    rebuilds chunks (last parts [] ++ rest) ->
    rebuilds (emit_pairs (removelast parts) ++ chunks)
      (concat parts ++ rest).
Proof.
  induction 1 as [text Ht|text delimiter later Ht Hd Hl IH];
    intros chunks rest Hrest.
  - cbn. now rewrite app_nil_r.
  - assert (Hne : later <> []) by (destruct Hl; discriminate).
    change (removelast (text :: delimiter :: later))
      with (text :: removelast (delimiter :: later)).
    change (removelast (delimiter :: later))
      with (match later with
            | [] => []
            | _ :: _ => delimiter :: removelast later
            end).
    change (last (text :: delimiter :: later) [])
      with (match later with [] => delimiter | _ :: _ => last later [] end)
      in Hrest.
    destruct later as [|l0 later0]; [contradiction|].
    set (later := l0 :: later0) in *.
    specialize (IH chunks rest Hrest).
    cbn [emit_pairs concat]. rewrite <- !app_assoc.
    destruct (truthy (strip text)) eqn:Htext.
    + destruct (strip_split text) as (ws & ws' & E & Hws & Hws').
      assert (Hsp : spaces ws').
      { apply blank_no_delimiter; [exact Hws'|].
        rewrite E in Ht. apply Forall_app in Ht. destruct Ht as [_ Ht].
        apply Forall_app in Ht. now destruct Ht. }
      rewrite <- (strip_gap delimiter Hd ws' Hws').
      rewrite E at 2. rewrite <- !app_assoc.
      rewrite (app_assoc ws' delimiter).
      cbn [app]. apply rebuilds_spoken; auto.
      * now apply sentence_strip.
      * now apply gap_blank_prefix.
    + rewrite app_assoc. apply rebuilds_dropped; [|exact IH].
      apply gap_blank_prefix; [|exact Hd].
      apply blank_no_delimiter; [|exact Ht]. now apply falsy_strip_blank.
Qed.

Lemma split_buffer_rebuilds (buffer : str) :
  forall chunks kept,
    split_buffer buffer = (chunks, kept) ->
    no_delimiter kept
    /\ forall (later : list str) (rest : str),
         rebuilds later (kept ++ rest) ->
         rebuilds (chunks ++ later) (buffer ++ rest).
Proof.
  intros chunks kept H. unfold split_buffer in H. injection H as <- <-.
  pose proof (re_split_gaps (length buffer) buffer (le_n _)) as Hg.
  split.
  - clear -Hg. induction Hg as [text Ht|text d later Ht Hd Hl IH];
      [exact Ht|].
    destruct Hl; exact IH.
  - intros later rest Hr.
    replace (buffer ++ rest) with (concat (re_split buffer) ++ rest)
      by (unfold re_split; now rewrite re_split_fuel_concat).
    now apply emit_pairs_rebuilds.
Qed.

Lemma chunks_from_rebuilds (fragments : list str) :
  forall buffer : str,
    no_delimiter buffer ->
    rebuilds (chunks_from fragments buffer) (buffer ++ concat fragments).
Proof.
  induction fragments as [|f later IH]; intros buffer Hb;
    cbn [chunks_from concat].
  - rewrite app_nil_r. destruct (truthy (strip buffer)) eqn:Ht.
    + destruct (strip_split buffer) as (ws & ws' & E & Hws & Hws').
      rewrite E at 2. apply rebuilds_last; auto.
      now apply sentence_strip.
    + apply rebuilds_end. now apply falsy_strip_blank.
  - destruct f as [|c f'].
    + cbn [truthy negb app]. now apply IH.
    + change (negb (truthy (c :: f'))) with false. cbv iota.
      set (f := c :: f').
      destruct (split_buffer (buffer ++ f)) as [chunks kept] eqn:Hs.
      destruct (split_buffer_rebuilds (buffer ++ f) chunks kept Hs)
        as (Hk & Hr).
      rewrite app_assoc. apply Hr. now apply IH.
Qed.

(** C6, as the code has it. For every stream of fragments that nothing
    interrupts, the fragments put together are the chunks the generator
    yields, in order and each as it stands, but for the whitespace trimmed
    around a sentence and around the mark that ends it, and but for the
    delimiters that follow an empty or blank sentence, which are dropped
    with it, their punctuation mark included: no other character is lost,
    added or moved.  This holds of the generator on its own, and of the
    generator inside a turn during which nobody interrupts. *)
Theorem C6_chunks_rebuild_text_up_to_dropped_punctuation :
  forall (speaking : bool) (fragments : list str),
    rebuilds
      (chunks_of {| _is_bot_speaking := speaking;
                    interrupt_event := false |} fragments)
      (concat fragments)
    /\ (forall (polly : nat -> str -> synth_result) (st : AppState),
           quiet polly ->
           rebuilds
             (yielded (trace (snd
                (invoke_bedrock polly (map Fragment fragments)
                   (fresh st)))))
             (concat fragments)).
Proof.
  intros speaking fragments. split.
  - rewrite chunks_of_uninterrupted by reflexivity.
    apply (chunks_from_rebuilds fragments []). constructor.
  - intros polly st Hquiet.
    rewrite invoke_bedrock_unfold.
    match goal with |- context [try_finally _ _ ?w'] => set (w0 := w') end.
    destruct (generator_fragments_quiet polly Hquiet fragments [] w0 eq_refl)
      as (c & w1 & E & Hy).
    unfold try_finally, try_except, bind at 1. rewrite E. cbn.
    rewrite yielded_app, Hy. subst w0. cbn. rewrite app_nil_r.
    apply (chunks_from_rebuilds fragments []). constructor.
Qed.

Lemma gap_head (d : str) :
  gap d ->
  exists c rest,
    d = c :: rest /\ (isspace c = true \/ is_punctuation c = true).
Proof.
  intros [ws p ws' H0 Hp H'|ws ws' H0 H'|ws ws' H0 H'];
    destruct ws as [|c ws]; cbn [app]; eexists _, _;
    (split; [reflexivity|]).
  - right. now apply terminator_is_punctuation.
  - left. inversion H0 as [|? ? [Hc _] _]; subst. exact Hc.
  - now right.
  - left. now inversion H0.
  - now left.
  - left. inversion H0 as [|? ? [Hc _] _]; subst. exact Hc.
Qed.

(** A gap that starts with its mark. *)
Lemma gap_from_mark (p : ascii) (d : str) :
  gap (p :: d) -> is_punctuation p = true ->
  blank d /\ strip (p :: d) = [p].
Proof.
  intros Hg Hp. pose proof (punctuation_not_space p Hp) as Hns.
  remember (p :: d) as pd eqn:E.
  assert (Hshape : forall ws q ws',
             blank ws -> blank ws' -> ws ++ q :: ws' = p :: d ->
             q = p /\ d = ws').
  { intros ws q ws' Hws Hws' E'. destruct ws as [|c ws].
    - now injection E' as -> ->.
    - injection E' as -> _. inversion Hws; subst. congruence. }
  destruct Hg as [ws q ws' H0 Hq H'|ws ws' H0 H'|ws ws' H0 H'].
  - apply spaces_blank in H0.
    destruct (Hshape ws q ws' H0 H' E) as [-> ->].
    split; [exact H'|]. now apply strip_gap_mark.
  - destruct (Hshape ws comma ws' H0 H' E) as [<- ->].
    split; [exact H'|]. now apply strip_gap_mark.
  - apply spaces_blank in H0.
    destruct (Hshape ws newline ws' H0 H' E) as [<- _]. discriminate Hp.
Qed.

Lemma blank_plain_nil (ws : str) : blank ws -> Forall plain ws -> ws = [].
Proof.
  intros Hb Hp. destruct ws as [|c ws]; [reflexivity|].
  inversion Hb; inversion Hp as [|? ? [Hc _] _]; subst. congruence.
Qed.

Lemma plain_no_delimiter (word : str) : Forall plain word -> no_delimiter word.
Proof.
  apply Forall_impl. intros c [Hs Hp]. split; [exact Hp|].
  destruct (Ascii.eqb c newline) eqn:E; [|reflexivity].
  apply Ascii.eqb_eq in E. subst c. discriminate Hs.
Qed.

(** A mark that directly follows a word is never lost: of a text that
    starts with a word (no whitespace, no punctuation) the first chunk is
    that word with the mark that follows it, or the word alone when it is
    all of the text. *)
Lemma rebuilds_word (word post : str) (chunks : list str) :
  word <> [] ->
  Forall plain word ->
  match post with
  | [] => True
  | p :: _ => is_punctuation p = true
  end ->
  rebuilds chunks (word ++ post) ->
  (post = [] /\ chunks = [word])
  \/ exists p ws' rest chunks',
       post = p :: ws' ++ rest
       /\ blank ws'
       /\ chunks = (word ++ [p]) :: chunks'
       /\ rebuilds chunks' rest.
Proof.
  intros Hne Hword Hpost Hr.
  destruct word as [|w0 word']; [contradiction|].
  inversion Hword as [|? ? [Hw0s Hw0p] Hword']; subst.
  set (word := w0 :: word') in *.
  remember (word ++ post) as text eqn:E.
  assert (Hlead : forall ws tail, blank ws -> ws ++ tail = word ++ post ->
                                  ws = []).
  { intros ws tail Hws E'. destruct ws as [|c ws]; [reflexivity|].
    injection E' as -> _. inversion Hws; subst. congruence. }
  assert (Hbody : forall body tail,
             sentence body ->
             body ++ tail = word ++ post ->
             match tail with
             | [] => True
             | c :: _ => isspace c = true \/ is_punctuation c = true
             end ->
             body = word /\ tail = post).
  { intros body tail (_ & _ & Hnd) E' Htail.
    apply app_eq_app in E'. destruct E' as (l & [[E1 E2]|[E1 E2]]).
    - destruct l as [|c l]; [rewrite app_nil_r in E1; now subst|].
      exfalso. rewrite E2 in Hpost. cbn in Hpost.
      rewrite E1 in Hnd. apply Forall_app in Hnd. destruct Hnd as [_ Hnd].
      inversion Hnd as [|? ? [Hc _] _]; subst. congruence.
    - destruct l as [|c l]; [rewrite app_nil_r in E1; now subst|].
      exfalso. rewrite E2 in Htail. cbn in Htail.
      assert (Hc : plain c).
      { rewrite E1 in Hword. apply Forall_app in Hword.
        destruct Hword as [_ Hword]. now inversion Hword. }
      destruct Hc as [Hcs Hcp]. destruct Htail; congruence. }
  destruct Hr as [ws Hws|ws body ws' Hws Hs Hws'|
                  ws body d rest chunks' Hws Hs Hd Hrest|
                  d rest chunks' Hd Hrest].
  - exfalso. rewrite E in Hws. inversion Hws; subst. congruence.
  - pose proof (Hlead ws (body ++ ws') Hws E) as ->. cbn [app] in E.
    destruct (Hbody body ws' Hs E) as [-> <-].
    { destruct ws' as [|c ws']; [exact I|]. left. now inversion Hws'. }
    destruct ws' as [|c ws']; [now left|].
    exfalso. cbn in Hpost. inversion Hws'; subst.
    apply punctuation_not_space in Hpost. congruence.
  - pose proof (Hlead ws (body ++ d ++ rest) Hws E) as ->. cbn [app] in E.
    destruct (gap_head d Hd) as (c & d' & -> & Hc).
    destruct (Hbody body ((c :: d') ++ rest) Hs E Hc) as [-> <-].
    cbn [app] in Hpost.
    destruct (gap_from_mark c d' Hd Hpost) as (Hb & ->).
    right. exists c, d', rest, chunks'. now repeat split.
  - exfalso. destruct (gap_head d Hd) as (c & d' & -> & Hc).
    injection E as -> _. destruct Hc; congruence.
Qed.

Ltac plain_word :=
  repeat constructor; try discriminate.

(** Of the text [Hello, world.] the relation accepts the two chunks the
    generator yields, and neither the same without their marks nor the
    words put together; of [Hi!!] it accepts [Hi!], the second mark being
    dropped. *)
Example rebuilds_hello_world :
  rebuilds [lit "Hello,"; lit "world."] (lit "Hello, world.")
  /\ ~ rebuilds [lit "Hello"; lit "world"] (lit "Hello, world.")
  /\ ~ rebuilds [lit "Helloworld"] (lit "Hello, world.")
  /\ rebuilds [lit "Hi!"] (lit "Hi!!").
Proof.
  assert (Hhello : sentence (lit "Hello")).
  { split; [discriminate|]. split; [split; reflexivity|].
    repeat constructor. }
  assert (Hworld : sentence (lit "world")).
  { split; [discriminate|]. split; [split; reflexivity|].
    repeat constructor. }
  assert (Hhi : sentence (lit "Hi")).
  { split; [discriminate|]. split; [split; reflexivity|].
    repeat constructor. }
  split; [|split; [|split]].
  - apply (rebuilds_spoken [] (lit "Hello") (lit ", ") (lit "world.")
             [lit "world."]); [constructor|exact Hhello| |].
    + apply (gap_comma [] (lit " ")); repeat constructor.
    + apply (rebuilds_spoken [] (lit "world") (lit ".") [] []);
        [constructor|exact Hworld| |apply rebuilds_end; constructor].
      apply (gap_terminator [] "."%char []); repeat constructor.
  - intros H.
    apply (rebuilds_word (lit "Hello") (lit ", world.")) in H;
      [|discriminate|plain_word|reflexivity].
    destruct H as [[H _]|(p & ws' & rest & chunks' & E & _ & Ec & _)];
      [discriminate H|].
    injection E as <- _. discriminate Ec.
  - intros H.
    apply (rebuilds_word (lit "Hello") (lit ", world.")) in H;
      [|discriminate|plain_word|reflexivity].
    destruct H as [[H _]|(p & ws' & rest & chunks' & E & _ & Ec & _)];
      [discriminate H|].
    injection E as <- _. discriminate Ec.
  - apply (rebuilds_spoken [] (lit "Hi") (lit "!") (lit "!") []);
      [constructor|exact Hhi| |].
    + apply (gap_terminator [] "!"%char []); repeat constructor.
    + rewrite <- (app_nil_r (lit "!")).
      apply rebuilds_dropped; [|apply rebuilds_end; constructor].
      apply (gap_terminator [] "!"%char []); repeat constructor.
Qed.

(** ** What the generator holds back *)

Lemma chunks_from_emitted (fragments : list str) :
  forall buffer : str,
    chunks_from fragments buffer
    = fst (emitted fragments buffer)
      ++ (if truthy (strip (snd (emitted fragments buffer)))
          then [strip (snd (emitted fragments buffer))] else []).
Proof.
  induction fragments as [|f later IH]; intros buffer;
    cbn [chunks_from emitted]; [reflexivity|].
  destruct (negb (truthy f)); [apply IH|].
  destruct (split_buffer (buffer ++ f)) as [chunks kept].
  rewrite IH. destruct (emitted later kept) as [chunks' kept'].
  cbn [fst snd]. now rewrite app_assoc.
Qed.

(** While the generator yields nothing, its consumer plays no part: the
    fragments only fill the buffer. *)
Lemma generator_holds (consume : str -> M control) (fragments : list str)
  (tail : list stream_step) :
  forall (buffer : str) (w : world),
    was_interrupted (app_state w) = false ->
    fst (emitted fragments buffer) = [] ->
    _to_chunk_generator consume (map Fragment fragments ++ tail) buffer w
    = _to_chunk_generator consume tail (snd (emitted fragments buffer)) w.
Proof.
  induction fragments as [|f later IH]; intros buffer w Hi He;
    cbn [map app _to_chunk_generator emitted]; [reflexivity|].
  cbn [emitted] in He.
  unfold bind at 1. unfold ask_state at 1. rewrite Hi.
  destruct (negb (truthy f)); [now apply IH|].
  destruct (split_buffer (buffer ++ f)) as [chunks kept].
  destruct (emitted later kept) as [chunks' kept'] eqn:El.
  cbn [fst snd] in *. apply app_eq_nil in He. destruct He as (-> & ->).
  unfold bind. cbn [yield_all ret].
  rewrite IH by (rewrite ?El; auto). now rewrite El.
Qed.

Lemma no_delimiter_no_match (s : str) :
  no_delimiter s -> match_split_pattern s = None.
Proof.
  intros H. destruct s as [|c t]; [reflexivity|].
  unfold match_split_pattern.
  inversion H as [|c' t' [Hp Hn] Ht]; subst.
  unfold is_punctuation in Hp. apply orb_false_iff in Hp.
  destruct Hp as (Hterm & _). rewrite Hterm.
  destruct (span_space (c :: t)) as [before0 rest0] eqn:Hs.
  pose proof (span_space_app _ _ _ Hs) as E.
  assert (Hrest : no_delimiter rest0).
  { unfold no_delimiter in *. rewrite E in H.
    apply Forall_app in H. tauto. }
  rewrite Hn. destruct rest0 as [|d rest']; [reflexivity|].
  inversion Hrest as [|d' r' [Hd _] _]; subst.
  unfold is_punctuation in Hd. apply orb_false_iff in Hd.
  destruct Hd as (_ & ->). reflexivity.
Qed.

Lemma re_split_no_delimiter (s : str) : no_delimiter s -> re_split s = [s].
Proof.
  induction s as [|c t IH]; intros H; [reflexivity|].
  rewrite re_split_cons, (no_delimiter_no_match _ H).
  inversion H; subst. now rewrite IH.
Qed.

Lemma emitted_no_delimiter (fragments : list str) :
  forall buffer : str,
    no_delimiter buffer -> Forall no_delimiter fragments ->
    emitted fragments buffer = ([], buffer ++ concat fragments).
Proof.
  induction fragments as [|f later IH]; intros buffer Hb Hall;
    cbn [emitted concat].
  - now rewrite app_nil_r.
  - inversion Hall as [|f' l Hf Hl]; subst.
    destruct f as [|c f'].
    + cbn [truthy negb app]. now apply IH.
    + change (negb (truthy (c :: f'))) with false. cbv iota.
      assert (Hbf : no_delimiter (buffer ++ c :: f'))
        by (apply Forall_app; now split).
      unfold split_buffer. rewrite (re_split_no_delimiter _ Hbf).
      cbn [removelast emit_pairs last].
      rewrite (IH _ Hbf Hl). now rewrite <- app_assoc.
Qed.

(** X6. Text in which the split pattern finds nothing (no [.] [?] [!] [,]
    and no newline) is held back while the stream lasts: whatever the
    consumer, the generator hands it nothing before the stream ends, and
    when the stream ends without interruption the whole text, stripped, is
    yielded as one chunk (none if it is blank). *)
Theorem X6_text_without_delimiter_waits_for_the_end :
  forall (speaking : bool) (fragments : list str),
    Forall no_delimiter fragments ->
    chunks_of {| _is_bot_speaking := speaking; interrupt_event := false |}
      fragments
    = (if truthy (strip (concat fragments))
       then [strip (concat fragments)] else [])
    /\ (forall (consume : str -> M control) (tail : list stream_step),
           _to_chunk_generator consume (map Fragment fragments ++ tail) []
             (fresh {| _is_bot_speaking := speaking;
                       interrupt_event := false |})
           = _to_chunk_generator consume tail (concat fragments)
               (fresh {| _is_bot_speaking := speaking;
                         interrupt_event := false |})).
Proof.
  intros speaking fragments Hall.
  pose proof (emitted_no_delimiter fragments [] (Forall_nil _) Hall) as He.
  cbn [app] in He. split.
  - rewrite chunks_of_uninterrupted by reflexivity.
    rewrite chunks_from_emitted, He. reflexivity.
  - intros consume tail.
    rewrite generator_holds by (rewrite ?He; reflexivity).
    now rewrite He.
Qed.

(** An instance: two fragments of one sentence that has not ended. *)
Lemma X6_hello_there :
  chunks_of {| _is_bot_speaking := true; interrupt_event := false |}
    [lit "Hello "; lit "there "]
  = (if truthy (strip (concat [lit "Hello "; lit "there "]))
     then [strip (concat [lit "Hello "; lit "there "])] else [])
  /\ (forall (consume : str -> M control) (tail : list stream_step),
         _to_chunk_generator consume
           (map Fragment [lit "Hello "; lit "there "] ++ tail) []
           (fresh {| _is_bot_speaking := true; interrupt_event := false |})
         = _to_chunk_generator consume tail
             (concat [lit "Hello "; lit "there "])
             (fresh {| _is_bot_speaking := true;
                       interrupt_event := false |})).
Proof.
  apply (X6_text_without_delimiter_waits_for_the_end true
           [lit "Hello "; lit "there "]).
  repeat constructor.
Defined.

(** ** Text of punctuation only *)

Lemma deletes_incl {A : Type} (P : A -> bool) (short long : list A) :
  deletes P short long -> forall x, In x short -> In x long.
Proof.
  induction 1 as [|y short long _ IH|y short long _ _ IH]; intros x Hx.
  - contradiction.
  - destruct Hx as [->|Hx]; [now left|right; now apply IH].
  - right. now apply IH.
Qed.

Lemma chunks_from_only_delimiters (fragments : list str) :
  Forall only_delimiters fragments -> chunks_from fragments [] = [].
Proof.
  intros Hall.
  pose proof (chunks_from_shape fragments [] (Forall_nil _)) as Hshape.
  pose proof (chunks_from_deletes fragments []) as Hdel.
  destruct (chunks_from fragments []) as [|c chunks]; [reflexivity|].
  exfalso. inversion Hshape as [|c' l Hc _]; subst.
  destruct (chunk_shape_facts c Hc) as ((x & rest & -> & Hsp & Hp) & _ & _).
  assert (Hin : In x (nospace (concat fragments))).
  { apply (deletes_incl _ _ _ Hdel). cbn. rewrite Hsp. cbn. now left. }
  apply filter_In in Hin. destruct Hin as (Hin & _).
  apply in_concat in Hin. destruct Hin as (f & Hf & Hx).
  rewrite Forall_forall in Hall. specialize (Hall f Hf).
  unfold only_delimiters in Hall. rewrite Forall_forall in Hall.
  specialize (Hall x Hx). unfold delimiter_char in Hall.
  rewrite Hsp, Hp in Hall. discriminate.
Qed.

(** X7. When the generation stream holds whitespace and punctuation only
    (as does the three dots that stand in for an empty reply), the turn is
    silent: the generator yields no chunk, no synthesis call is made,
    nothing is sent, and the turn ends normally with the speaking flag
    down. *)
Theorem X7_punctuation_only_reply_is_silent :
  forall (polly : nat -> str -> synth_result) (st : AppState)
         (fragments : list str),
    Forall only_delimiters fragments ->
    invoke_bedrock polly (map Fragment fragments) (fresh st)
    = (Ok tt, {| app_state := stop_bot_speech st;
                 polly_calls := 0;
                 trace := [SpeechStarted; SpeechStopped] |}).
Proof.
  intros polly st fragments Hall.
  pose proof (chunks_from_only_delimiters fragments Hall) as Hnone.
  rewrite chunks_from_emitted in Hnone.
  apply app_eq_nil in Hnone. destruct Hnone as (He & Hflush).
  rewrite invoke_bedrock_unfold.
  rewrite <- (app_nil_r (map Fragment fragments)).
  unfold try_finally, try_except. unfold bind at 1.
  rewrite generator_holds by (auto; reflexivity).
  cbn [_to_chunk_generator]. unfold flush, bind, ask_state.
  destruct (truthy (strip (snd (emitted fragments [])))); [discriminate|].
  reflexivity.
Qed.

(** An instance: the three dots. *)
Lemma X7_three_dots :
  invoke_bedrock (fun _ _ => AudioStream []) (map Fragment [lit "..."])
    (fresh AppState_init)
  = (Ok tt, {| app_state := stop_bot_speech AppState_init;
               polly_calls := 0;
               trace := [SpeechStarted; SpeechStopped] |}).
Proof.
  apply (X7_punctuation_only_reply_is_silent (fun _ _ => AudioStream [])
           AppState_init [lit "..."]).
  repeat constructor.
Defined.

(** ** Where the apology can come from *)

Lemma adds_no_apology_refl (w : world) : adds_no_apology w w.
Proof. exists []. rewrite app_nil_r. auto. Qed.

Lemma adds_no_apology_trans (w1 w2 w3 : world) :
  adds_no_apology w1 w2 -> adds_no_apology w2 w3 -> adds_no_apology w1 w3.
Proof.
  intros (t & E & H) (t' & E' & H'). exists (t ++ t').
  split; [now rewrite E', E, app_assoc|].
  intros Hin. apply in_app_or in Hin. tauto.
Qed.

Lemma after_synthesis_no_apology (t : list event) :
  forallb after_synthesis t = true -> ~ In (Synthesize apology) t.
Proof.
  intros H Hin. rewrite forallb_forall in H. specialize (H _ Hin).
  discriminate.
Qed.

Lemma filter_length_cons (P : ascii -> bool) (c : ascii) (l : str) :
  length (filter P l) <= length (filter P (c :: l)).
Proof. cbn. destruct (P c); cbn; lia. Qed.

Lemma filter_length_suffix (P : ascii -> bool) (mid rest : str) :
  length (filter P rest) <= length (filter P (mid ++ rest)).
Proof. rewrite filter_app, length_app. lia. Qed.

(** Removing starred spans adds no punctuation. *)
Lemma re_sub_starred_marks (n : nat) :
  forall s : str, length s <= n ->
    length (filter is_punctuation (re_sub_starred s))
    <= length (filter is_punctuation s).
Proof.
  induction n as [|n IH]; intros s Hn.
  - destruct s; [cbn; lia|cbn in Hn; lia].
  - destruct s as [|c t]; [cbn; lia|]. cbn [length] in Hn.
    rewrite re_sub_starred_cons.
    destruct (Ascii.eqb c asterisk) eqn:Hc.
    + destruct (after_asterisk t) as [rest|] eqn:Ha.
      * destruct (after_asterisk_some t rest Ha) as (mid & -> & _).
        rewrite length_app in Hn. cbn [length] in Hn.
        specialize (IH rest ltac:(lia)).
        pose proof (filter_length_cons is_punctuation c
                      (mid ++ asterisk :: rest)) as H1.
        pose proof (filter_length_suffix is_punctuation mid
                      (asterisk :: rest)) as H2.
        pose proof (filter_length_cons is_punctuation asterisk rest) as H3.
        lia.
      * specialize (IH t ltac:(lia)). cbn [filter].
        destruct (is_punctuation c); cbn [length]; lia.
    + specialize (IH t ltac:(lia)). cbn [filter].
      destruct (is_punctuation c); cbn [length]; lia.
Qed.

Lemma punct_free_filter (s : str) :
  punct_free s -> filter is_punctuation s = [].
Proof.
  induction 1 as [|c t Hc _ IH]; cbn; [reflexivity|]. now rewrite Hc.
Qed.

(** A chunk, cleaned, is never the apology: the apology holds two marks,
    a chunk at most one. *)
Lemma chunk_never_apology (c : str) :
  chunk_shape c -> re_sub_starred c <> apology.
Proof.
  intros (body & tail & -> & _ & Hpf & _ & Htail) E.
  pose proof (re_sub_starred_marks (length (body ++ tail)) (body ++ tail)
                (le_n _)) as H.
  rewrite E, filter_app, (punct_free_filter body Hpf) in H.
  destruct Htail as [->|(p & Hp & ->)]; cbn in H; [lia|].
  rewrite Hp in H. cbn in H. lia.
Qed.

Section ApologySource.

Variable polly : nat -> str -> synth_result.

Lemma speak_chunk_no_apology (chunk : str) (w : world) :
  chunk_shape chunk ->
  exists c w',
    speak_chunk polly chunk w = (Ok c, w') /\ adds_no_apology w w'.
Proof.
  intros Hshape. unfold speak_chunk, bind, ask_state.
  destruct (was_interrupted (app_state w)).
  - exists Break, w. split; [reflexivity|apply adds_no_apology_refl].
  - destruct (truthy chunk && truthy (strip chunk)).
    + destruct (truthy (strip (re_sub_starred chunk))) eqn:Hb.
      * destruct (speak_text_spoken polly chunk w Hb)
          as (w' & t & E & _ & Et & Ht & _).
        rewrite E. exists Continue, w'. split; [reflexivity|].
        exists (Synthesize (re_sub_starred chunk) :: t). split; [exact Et|].
        intros [Hin|Hin].
        -- injection Hin as Hin. now apply (chunk_never_apology chunk).
        -- now apply (after_synthesis_no_apology t Ht).
      * rewrite (speak_text_blank polly chunk w Hb).
        exists Continue, w. split; [reflexivity|apply adds_no_apology_refl].
    + exists Continue, w. split; [reflexivity|apply adds_no_apology_refl].
Qed.

Lemma yield_all_no_apology (chunks : list str) :
  Forall chunk_shape chunks ->
  forall w : world,
    exists c w',
      yield_all (speak_chunk polly) chunks w = (Ok c, w')
      /\ adds_no_apology w w'.
Proof.
  induction 1 as [|chunk later Hc _ IH]; intros w; cbn [yield_all].
  - exists Continue, w. split; [reflexivity|apply adds_no_apology_refl].
  - unfold bind at 1. cbn [log].
    set (w0 := {| app_state := app_state w; polly_calls := polly_calls w;
                  trace := trace w ++ [Yielded chunk] |}).
    assert (G0 : adds_no_apology w w0).
    { exists [Yielded chunk]. split; [reflexivity|].
      intros [H|[]]. discriminate. }
    unfold bind.
    destruct (speak_chunk_no_apology chunk w0 Hc) as (c & w1 & E & G1).
    rewrite E. destruct c.
    + destruct (IH w1) as (c' & w2 & E2 & G2).
      exists c', w2. rewrite E2. split; [reflexivity|].
      eauto using adds_no_apology_trans.
    + exists Break, w1. split; [reflexivity|].
      eauto using adds_no_apology_trans.
Qed.

Lemma flush_no_apology (buffer : str) (w : world) :
  punct_free buffer ->
  exists c w',
    flush (speak_chunk polly) buffer w = (Ok c, w') /\ adds_no_apology w w'.
Proof.
  intros Hb. unfold flush, bind, ask_state.
  destruct (truthy (strip buffer)) eqn:Ht; cbn [andb].
  - destruct (negb (was_interrupted (app_state w))).
    + apply yield_all_no_apology. constructor; [|constructor].
      exists (strip buffer), []. rewrite app_nil_r.
      split; [reflexivity|]. split.
      { intros E. now rewrite E in Ht. }
      split; [now apply Forall_strip|].
      split; [apply stripped_strip|now left].
    + exists Continue, w. split; [reflexivity|apply adds_no_apology_refl].
  - exists Continue, w. split; [reflexivity|apply adds_no_apology_refl].
Qed.

Lemma generator_no_apology (stream : list stream_step) :
  forall (buffer : str) (w : world),
    punct_free buffer ->
    exists r w',
      _to_chunk_generator (speak_chunk polly) stream buffer w = (r, w')
      /\ adds_no_apology w w'.
Proof.
  induction stream as [|s later IH]; intros buffer w Hb;
    cbn [_to_chunk_generator].
  - destruct (flush_no_apology buffer w Hb) as (c & w' & E & G).
    now exists (Ok c), w'.
  - destruct s as [f| | |].
    + unfold bind at 1. unfold ask_state at 1.
      destruct (was_interrupted (app_state w)).
      * destruct (flush_no_apology buffer w Hb) as (c & w' & E & G).
        now exists (Ok c), w'.
      * destruct (negb (truthy f)); [now apply IH|].
        destruct (split_buffer (buffer ++ f)) as [chunks kept] eqn:Hs.
        apply split_buffer_shape in Hs. destruct Hs as (Hc & Hk).
        unfold bind.
        destruct (yield_all_no_apology chunks Hc w) as (c & w1 & E1 & G1).
        rewrite E1. destruct c.
        -- destruct (IH kept w1 Hk) as (r & w' & E & G).
           exists r, w'. split; [exact E|].
           eauto using adds_no_apology_trans.
        -- now exists (Ok Break), w1.
    + unfold bind. cbn [on_state].
      match goal with |- context [_to_chunk_generator _ later buffer ?w0] =>
        destruct (IH buffer w0 Hb) as (r & w' & E & (t & Et & Ht))
      end.
      exists r, w'. split; [exact E|]. exists t. now split.
    + exists (Raised Exception), w.
      split; [reflexivity|apply adds_no_apology_refl].
    + exists (Raised CancelledError), w.
      split; [reflexivity|apply adds_no_apology_refl].
Qed.

End ApologySource.

(** The three ways a turn ends, by what its generator did. *)
Lemma turn_cases (polly : nat -> str -> synth_result)
  (stream : list stream_step) (w : world) :
  let w0 := {| app_state := start_bot_speech (app_state w);
               polly_calls := polly_calls w;
               trace := trace w ++ [SpeechStarted] |} in
  let final := snd (invoke_bedrock polly stream w) in
  let '(r, w1) := _to_chunk_generator (speak_chunk polly) stream [] w0 in
  match r with
  | Ok _ => trace final = trace w1 ++ [SpeechStopped]
  | Raised CancelledError =>
      trace final = trace w1 ++ [TaskCancelled; SpeechStopped]
  | Raised Exception =>
      trace final = trace (snd (on_error polly w1)) ++ [SpeechStopped]
  end.
Proof.
  cbv zeta.
  destruct (_to_chunk_generator (speak_chunk polly) stream [] _)
    as [[c|[|]] w1] eqn:E;
    rewrite invoke_bedrock_unfold;
    unfold try_finally, try_except, bind at 1; rewrite E.
  - reflexivity.
  - cbn. rewrite <- app_assoc. reflexivity.
  - destruct (on_error_any polly w1) as (w2 & t & E2 & _). rewrite E2.
    reflexivity.
Qed.

Lemma apology_needs_handler (polly : nat -> str -> synth_result)
  (stream : list stream_step) (st : AppState) :
  In (Synthesize apology)
     (trace (snd (invoke_bedrock polly stream (fresh st)))) ->
  In BedrockError (trace (snd (invoke_bedrock polly stream (fresh st)))).
Proof.
  pose proof (turn_cases polly stream (fresh st)) as Hcases.
  cbv zeta in Hcases.
  match type of Hcases with
    context [_to_chunk_generator _ stream [] ?w'] => set (w0 := w') in *
  end.
  destruct (generator_no_apology polly stream [] w0 (Forall_nil _))
    as (r & w1 & E & (t & Et & Ht)).
  rewrite E in Hcases.
  remember (Synthesize apology) as target eqn:Htarget.
  assert (H1 : ~ In target (trace w1)).
  { rewrite Et. intros Hin. apply in_app_or in Hin.
    destruct Hin as [Hin|Hin]; [|contradiction].
    subst w0 target. cbn in Hin. destruct Hin as [Hin|[]]. discriminate. }
  destruct r as [c|[|]]; rewrite Hcases.
  - intros Hin. exfalso. apply in_app_or in Hin.
    destruct Hin as [Hin|[Hin|[]]]; [contradiction|].
    subst target. discriminate.
  - intros Hin. exfalso. apply in_app_or in Hin.
    destruct Hin as [Hin|[Hin|[Hin|[]]]]; [contradiction| |];
      subst target; discriminate.
  - intros _. apply in_or_app. left.
    unfold on_error, bind at 1. cbn [log].
    unfold bind, ask_state. cbn [app_state].
    destruct (negb (was_interrupted (app_state w1))).
    + match goal with |- context [speak_text polly apology ?w4] =>
        destruct (speak_text_spec polly apology w4)
          as (w5 & E5 & (t5 & Et5 & _) & _)
      end.
      rewrite E5. cbn [snd]. rewrite Et5. cbn [trace].
      apply in_or_app. left. apply in_or_app. right. now left.
    + cbn. apply in_or_app. right. now left.
Qed.

(** X8. In a turn, whatever the generation stream and the synthesis
    collaborator do, the apology text reaches the synthesis collaborator
    only from the error handler: if the turn submits it, it has entered the
    handler before.  No chunk of generated text, cleaned of its starred
    spans, can be the apology. *)
Theorem X8_apology_comes_from_the_error_handler_only :
  forall (polly : nat -> str -> synth_result) (stream : list stream_step)
         (st : AppState),
    In (Synthesize apology)
       (trace (snd (invoke_bedrock polly stream (fresh st)))) ->
    In BedrockError (trace (snd (invoke_bedrock polly stream (fresh st)))).
Proof. exact apology_needs_handler. Qed.

(** An instance: the generation stream raises after one fragment. *)
Lemma X8_stream_raises :
  In BedrockError
    (trace (snd (invoke_bedrock
                   (fun _ _ => AudioStream [Block [Byte.x00] false])
                   [Fragment (lit "Hi."); StreamRaises]
                   (fresh AppState_init)))).
Proof.
  apply (X8_apology_comes_from_the_error_handler_only
           (fun _ _ => AudioStream [Block [Byte.x00] false])
           [Fragment (lit "Hi."); StreamRaises] AppState_init).
  vm_compute. do 6 right. left. reflexivity.
Defined.

(** ** The response stream *)

Lemma slices_fuel (size : nat) (Hsize : 0 < size) (fuel : nat) :
  forall (fuel' : nat) (s : str),
    length s <= fuel -> length s <= fuel' ->
    slices fuel size s = slices fuel' size s.
Proof.
  induction fuel as [|fuel IH]; intros fuel' s Hf Hf'.
  - destruct s; [|cbn in Hf; lia]. now destruct fuel'.
  - destruct s as [|c t]; [now destruct fuel'|].
    destruct fuel' as [|fuel']; [cbn in Hf'; lia|].
    cbn [length] in Hf, Hf'. cbn [slices]. f_equal.
    apply IH; rewrite length_skipn; cbn [length]; lia.
Qed.

Lemma slices_sound (size : nat) (Hsize : 0 < size) (n : nat) :
  forall s : str, length s <= n ->
    concat (slices (length s) size s) = s
    /\ Forall (fun f => f <> [] /\ length f <= size) (slices (length s) size s)
    /\ Forall (fun f => length f = size)
         (removelast (slices (length s) size s)).
Proof.
  induction n as [|n IH]; intros s Hn.
  - destruct s; [|cbn in Hn; lia]. cbn. repeat split; constructor.
  - destruct s as [|c t]; [cbn; repeat split; constructor|].
    cbn [length] in Hn.
    change (slices (length (c :: t)) size (c :: t))
      with (firstn size (c :: t)
            :: slices (length t) size (skipn size (c :: t))).
    rewrite (slices_fuel size Hsize (length t)
               (length (skipn size (c :: t))) (skipn size (c :: t)))
      by (rewrite ?length_skipn; cbn [length]; lia).
    destruct (IH (skipn size (c :: t))) as (Hc & Hall & Hfull).
    { rewrite length_skipn. cbn [length]. lia. }
    split; [|split].
    + cbn [concat]. rewrite Hc. apply firstn_skipn.
    + constructor; [|exact Hall]. split.
      * destruct size; [lia|discriminate].
      * rewrite length_firstn. lia.
    + destruct (slices (length (skipn size (c :: t))) size
                  (skipn size (c :: t))) as [|f fs] eqn:Hs.
      * constructor.
      * change (removelast (firstn size (c :: t) :: f :: fs))
          with (firstn size (c :: t) :: removelast (f :: fs)).
        constructor; [|exact Hfull].
        rewrite length_firstn.
        destruct (le_lt_dec size (length (c :: t))) as [Hle|Hlt]; [lia|].
        exfalso. rewrite skipn_all2 in Hs by lia. discriminate.
Qed.

(** X9. The response stream cuts the reply of the model into fragments of
    at most 160 characters, none empty, all but the last of exactly 160,
    which put together are the reply; an empty reply is replaced by three
    dots first. *)
Theorem X9_response_stream_slices_the_reply :
  forall output : str,
    exists fragments,
      get_response_stream (Ok output) = map Fragment fragments
      /\ concat fragments = (if truthy output then output else no_reply)
      /\ Forall (fun f => f <> [] /\ length f <= 160) fragments
      /\ Forall (fun f => length f = 160) (removelast fragments).
Proof.
  intros output. unfold get_response_stream.
  set (text := if truthy output then output else no_reply).
  exists (slices (length text) chunk_size text).
  split; [reflexivity|].
  apply (slices_sound chunk_size ltac:(unfold chunk_size; lia)
           (length text) text (le_n _)).
Qed.

Lemma response_stream_never_raises (run_turn : result str) :
  ~ In StreamRaises (get_response_stream run_turn).
Proof.
  destruct run_turn as [output|[|]]; cbn.
  - intros Hin. apply in_map_iff in Hin. destruct Hin as (f & Hf & _).
    discriminate.
  - intros [H|[]]. discriminate.
  - intros [H|[]]. discriminate.
Qed.

(** X10. With the response stream of the generation service, a turn never
    enters its error handler and never speaks its apology, whatever the
    model run does and whatever the synthesis collaborator does: a failure
    of the run reaches the turn as ordinary text, the stream's own error
    sentence, which the generator cuts into three chunks. *)
Theorem X10_turn_on_the_response_stream_never_apologises :
  forall (polly : nat -> str -> synth_result) (run_turn : result str)
         (st : AppState),
    ~ In BedrockError
        (trace (snd (invoke_bedrock polly (get_response_stream run_turn)
                       (fresh st))))
    /\ ~ In (Synthesize apology)
           (trace (snd (invoke_bedrock polly (get_response_stream run_turn)
                          (fresh st))))
    /\ chunks_of (start_bot_speech st) [stream_error]
       = [lit "I'm sorry,"; lit "I encountered an error.";
          lit "Please try again."].
Proof.
  intros polly run_turn st.
  assert (Hno : ~ In BedrockError
                  (trace (snd (invoke_bedrock polly
                                 (get_response_stream run_turn) (fresh st))))).
  { pose proof (turn_cases polly (get_response_stream run_turn) (fresh st))
      as Hcases.
    cbv zeta in Hcases.
    match type of Hcases with
      context [_to_chunk_generator _ ?s [] ?w'] =>
        destruct (generator_spec polly s [] w')
          as (r & w1 & E & (t & Et & Ht) & Hr)
    end.
    rewrite E in Hcases.
    assert (H1 : ~ In BedrockError (trace w1)).
    { rewrite Et. cbn. intros [H|H]; [discriminate|].
      rewrite forallb_forall in Ht. specialize (Ht _ H). discriminate. }
    destruct r as [c|[|]]; try rewrite Hcases.
    - intros Hin. apply in_app_or in Hin.
      destruct Hin as [Hin|[Hin|[]]]; [contradiction|discriminate].
    - intros Hin. apply in_app_or in Hin.
      destruct Hin as [Hin|[Hin|[Hin|[]]]];
        [contradiction|discriminate|discriminate].
    - exfalso. apply (response_stream_never_raises run_turn). now apply Hr. }
  split; [exact Hno|]. split.
  - intros Hin. apply Hno. revert Hin. apply apology_needs_handler.
  - destruct st as [sp ev]. reflexivity.
Qed.

(** ** The transcript handler *)

Lemma handle_transcript_event_appends (results : list transcript_result)
  (transcripts : list str) :
  handle_transcript_event results transcripts
  = transcripts ++ final_of results.
Proof.
  unfold final_of, handle_transcript_event.
  destruct results as [|first later]; [now rewrite app_nil_r|].
  destruct (alternatives first); [now rewrite app_nil_r|].
  destruct (negb (is_partial first)); [reflexivity|now rewrite app_nil_r].
Qed.

Lemma handle_events_appends (events : list (list transcript_result)) :
  forall transcripts : list str,
    handle_events events transcripts
    = transcripts ++ concat (map final_of events).
Proof.
  unfold handle_events.
  induction events as [|results events IH]; intros transcripts;
    cbn [fold_left map concat]; [now rewrite app_nil_r|].
  now rewrite IH, handle_transcript_event_appends, app_assoc.
Qed.

(** X11. The transcript handler only ever appends to its list, and an event
    adds at most one transcript: the first alternative of its first result,
    when that result is not partial.  Events that are partial, or have no
    result, or whose first result has no alternative, add nothing; later
    results and later alternatives of an event are never looked at. *)
Theorem X11_only_final_results_are_kept :
  forall (events : list (list transcript_result)) (transcripts : list str),
    handle_events events transcripts
    = transcripts ++ concat (map final_of events)
    /\ (forall results,
           final_of results = []
           \/ exists first later transcript others,
               results = first :: later
               /\ alternatives first = transcript :: others
               /\ is_partial first = false
               /\ final_of results = [transcript])
    /\ (Forall (fun results =>
                  match results with
                  | [] => True
                  | first :: _ =>
                      is_partial first = true \/ alternatives first = []
                  end) events ->
        handle_events events transcripts = transcripts).
Proof.
  intros events transcripts. split; [apply handle_events_appends|]. split.
  - intros results. unfold final_of, handle_transcript_event.
    destruct results as [|first later]; [now left|].
    destruct (alternatives first) as [|transcript others] eqn:Ha;
      [now left|].
    destruct (is_partial first) eqn:Hp; [now left|].
    right. exists first, later, transcript, others. now repeat split.
  - intros Hall. rewrite handle_events_appends.
    replace (concat (map final_of events)) with (@nil str);
      [apply app_nil_r|].
    induction Hall as [|results events Hr _ IH]; [reflexivity|].
    cbn [map concat]. rewrite <- IH.
    unfold final_of, handle_transcript_event.
    destruct results as [|first later]; [reflexivity|].
    destruct Hr as [Hp|Ha]; [|now rewrite Ha].
    rewrite Hp. now destruct (alternatives first).
Qed.

(** ** Utterances *)

Lemma feed_app (cfg : settings) (frames more : list (bytes * frame_env)) :
  forall h : handler,
    feed cfg (frames ++ more) h
    = match feed cfg frames h with
      | (h', Normal) => feed cfg more h'
      | (h', Raises) => (h', Raises)
      end.
Proof.
  induction frames as [|[chunk e] frames IH]; intros h; cbn [app feed];
    [reflexivity|].
  destruct (process_frame cfg chunk e h) as [h' [|]]; [apply IH|reflexivity].
Qed.

Lemma launches_app (l l' : list action) :
  launches (l ++ l') = launches l ++ launches l'.
Proof.
  induction l as [|a l IH]; cbn; [reflexivity|].
  destruct a; cbn; now rewrite IH.
Qed.

Section Utterance.

Variables (cfg : settings) (limit : Z).
Hypothesis limit_computed : silence_limit cfg = Some limit.

(** A run of silence that stays below the limit: every frame is forwarded
    and counted, and nothing else happens. *)
Lemma feed_silence_below (frames : list (bytes * frame_env)) :
  forall h : handler,
    is_transcribing h = true ->
    transcribe_stream h <> None ->
    (0 <= silence_frames h)%Z ->
    (silence_frames h + Z.of_nat (length frames) < Z.max 1 limit)%Z ->
    Forall (silence cfg) frames ->
    exists h',
      feed cfg frames h = (h', Normal)
      /\ is_transcribing h' = true
      /\ transcribe_stream h' <> None
      /\ silence_frames h' = (silence_frames h + Z.of_nat (length frames))%Z
      /\ launches (actions h') = launches (actions h)
      /\ detections (actions h') = detections (actions h)
      /\ (Forall (fun f => still (snd f)) frames ->
          ws_app_state h' = ws_app_state h).
Proof.
  induction frames as [|[chunk e] later IH]; intros h Hon Hstream H0 Hlt Hall.
  - exists h. cbn [length Z.of_nat]. rewrite Z.add_0_r. now repeat split.
  - inversion Hall as [|f l [Hs Ht] Hl]; subst. cbn [fst snd] in Hs, Ht.
    cbn [length] in Hlt. rewrite Nat2Z.inj_succ in Hlt.
    cbn [feed]. rewrite (process_frame_silent cfg chunk e h Hs), Hon.
    set (h1 := other_tasks (before e) h).
    assert (Hst1 : transcribe_stream h1 <> None)
      by (unfold h1; now rewrite other_tasks_stream).
    assert (Hsf1 : silence_frames h1 = silence_frames h)
      by apply other_tasks_silence_frames.
    assert (Ha1 : actions h1 = actions h) by apply other_tasks_actions.
    rewrite (listening_below cfg limit limit_computed chunk e h1 Hst1 Ht)
      by lia.
    match goal with |- context [feed cfg later ?h2] =>
      destruct (IH h2) as (h' & E & Hi & Hs' & Hc & Hl' & Hd & Hst')
    end.
    + through_awaits. unfold h1. now rewrite other_tasks_transcribing.
    + through_awaits. exact Hst1.
    + through_awaits. lia.
    + through_awaits. lia.
    + exact Hl.
    + exists h'. rewrite E. revert Hc Hl' Hd. through_awaits.
      rewrite Hsf1, Ha1, launches_app, detections_app.
      cbn [launches detections]. intros Hc Hl' Hd.
      split; [reflexivity|]. split; [exact Hi|]. split; [exact Hs'|].
      split; [rewrite Hc; cbn [length]; lia|]. split.
      { rewrite Hl'. apply app_nil_r. }
      split; [lia|].
      intros Hb. inversion Hb as [|f l [Hbe Hdu] Hbl]; subst.
      cbn [snd] in Hbe, Hdu.
      rewrite (Hst' Hbl). cbn [ws_app_state set_silence_frames act].
      unfold h1. now rewrite (Hdu 0), Hbe.
Qed.

End Utterance.

(** X12. The silence frame that ends an utterance hands the transcript
    over: the final transcripts received are joined with spaces and
    stripped, and a response task is created for that text, the only task
    created in the whole run of silence; when the text is empty, no task is
    created. *)
Theorem X12_utterance_end_launches_the_turn :
  forall (cfg : settings) (to_end : Z) (h : handler)
         (init : list (bytes * frame_env)) (chunk : bytes) (e : frame_env),
    frames_to_end cfg = Some to_end ->
    is_transcribing h = true ->
    transcribe_stream h <> None ->
    silence_frames h = 0%Z ->
    Forall (silence cfg) (init ++ [(chunk, e)]) ->
    (Z.of_nat (length init) + 1 = to_end)%Z ->
    exists h',
      feed cfg (init ++ [(chunk, e)]) h = (h', Normal)
      /\ launches (actions h')
         = launches (actions h)
           ++ (if truthy (strip (join_spaces (full_transcript e)))
               then [strip (join_spaces (full_transcript e))] else [])
      /\ (truthy (strip (join_spaces (full_transcript e))) = true ->
          bot_response_task h'
          = Some (strip (join_spaces (full_transcript e)), Running))
      /\ is_transcribing h' = false.
Proof.
  intros cfg to_end h init chunk e Hend Hon Hstream Hzero Hall Hlen.
  unfold frames_to_end in Hend.
  destruct (silence_limit cfg) as [limit|] eqn:Hlimit; [|discriminate].
  injection Hend as <-.
  apply Forall_app in Hall. destruct Hall as (Hinit & Hlast).
  inversion Hlast as [|f l [Hs Ht] _]; subst. cbn [fst snd] in Hs, Ht.
  destruct (feed_silence_below cfg limit Hlimit init h Hon Hstream)
    as (h1 & E1 & Hon1 & Hst1 & Hc1 & Hl1 & _ & _); try assumption; try lia.
  rewrite feed_app, E1. cbn [feed].
  rewrite (process_frame_silent cfg chunk e h1 Hs), Hon1.
  set (h2 := other_tasks (before e) h1).
  assert (Hst2 : transcribe_stream h2 <> None)
    by (unfold h2; now rewrite other_tasks_stream).
  destruct (listening_ends cfg limit Hlimit chunk e h2 Hst2 Ht)
    as (h' & E & Hoff & _ & _ & Ha & Htask).
  { unfold h2. rewrite other_tasks_silence_frames. lia. }
  exists h'. rewrite E. split; [reflexivity|].
  split; [|split; [exact Htask|exact Hoff]].
  rewrite Ha. unfold h2. rewrite other_tasks_actions, !launches_app, Hl1.
  destruct (truthy (strip (join_spaces (full_transcript e)))); reflexivity.
Qed.

(** An instance: the shipped configuration, 46 frames of silence, two final
    transcripts. *)
Lemma X12_two_transcripts :
  exists h',
    feed shipped
      (repeat (zero_frame, heard 0%Q) 45
       ++ [(zero_frame, silent_with [lit "turn on"; lit "the light "])])
      listening_start = (h', Normal)
    /\ launches (actions h')
       = launches (actions listening_start)
         ++ (if truthy (strip (join_spaces
                                 (full_transcript
                                    (silent_with [lit "turn on";
                                                  lit "the light "]))))
             then [strip (join_spaces
                            (full_transcript
                               (silent_with [lit "turn on";
                                             lit "the light "])))]
             else [])
    /\ (truthy (strip (join_spaces
                         (full_transcript
                            (silent_with [lit "turn on";
                                          lit "the light "])))) = true ->
        bot_response_task h'
        = Some (strip (join_spaces
                         (full_transcript
                            (silent_with [lit "turn on";
                                          lit "the light "]))), Running))
    /\ is_transcribing h' = false.
Proof.
  apply (X12_utterance_end_launches_the_turn shipped 46 listening_start
           (repeat (zero_frame, heard 0%Q) 45) zero_frame
           (silent_with [lit "turn on"; lit "the light "])).
  - vm_compute. reflexivity.
  - reflexivity.
  - discriminate.
  - reflexivity.
  - apply Forall_app. split.
    + apply silence_repeat. exact heard_nothing_is_silence.
    + constructor; [|constructor].
      split; [reflexivity|]. intros k. reflexivity.
  - reflexivity.
Defined.

(** X13. Only consecutive silence counts: while the bot is not speaking
    and the other tasks make no move, a frame of speech that follows a run
    of silence shorter than the limit is forwarded and starts the count
    again, so that the end of the utterance is detected only after a full
    run of silence that follows it. *)
Theorem X13_speech_restarts_the_silence_count :
  forall (cfg : settings) (to_end : Z) (h : handler)
         (frames more : list (bytes * frame_env))
         (chunk : bytes) (e : frame_env),
    frames_to_end cfg = Some to_end ->
    is_transcribing h = true ->
    transcribe_stream h <> None ->
    silence_frames h = 0%Z ->
    is_bot_speaking (ws_app_state h) = false ->
    Forall (silence cfg) frames ->
    Forall (fun f => still (snd f)) frames ->
    (Z.of_nat (length frames) < to_end)%Z ->
    _is_speech cfg chunk e = true ->
    transport_fails e 0 = false ->
    still e ->
    Forall (silence cfg) more ->
    exists h',
      feed cfg (frames ++ (chunk, e) :: more) h = (h', Normal)
      /\ detections (actions h')
         = detections (actions h)
           + (if (Z.of_nat (length more) <? to_end)%Z then 0 else 1)
      /\ is_transcribing h' = (Z.of_nat (length more) <? to_end)%Z.
Proof.
  intros cfg to_end h frames more chunk e Hend Hon Hstream Hzero Hquiet Hall
    Hbg Hlen Hspeech Ht [Hbe Hdu] Hmore.
  unfold frames_to_end in Hend.
  destruct (silence_limit cfg) as [limit|] eqn:Hlimit; [|discriminate].
  injection Hend as <-.
  destruct (feed_silence_below cfg limit Hlimit frames h Hon Hstream)
    as (h1 & E1 & Hon1 & Hst1 & Hc1 & _ & Hd1 & Hs1); try assumption; try lia.
  rewrite feed_app, E1. cbn [feed].
  unfold process_frame. rewrite Hbe. cbn [fold_left].
  rewrite (Hs1 Hbg), Hquiet, Hspeech, Hon1. cbn [andb].
  rewrite (listening_speech cfg chunk e h1 Hst1 Ht).
  rewrite (Hdu 0). unfold other_tasks. cbn [fold_left].
  match goal with |- context [feed cfg more ?h2] =>
    destruct (feed_silence_listening cfg limit Hlimit more h2)
      as (h' & E & Hi & Hd)
  end.
  - cbn. exact Hon1.
  - cbn. exact Hst1.
  - cbn. lia.
  - exact Hmore.
  - exists h'. rewrite E. cbn [silence_frames set_silence_frames] in Hi, Hd.
    cbn [Z.add] in Hi, Hd. split; [reflexivity|]. split; [|exact Hi].
    rewrite Hd. cbn [actions set_silence_frames act].
    rewrite detections_app, Hd1. cbn. lia.
Qed.

(** An instance: 45 frames of silence, one of speech, 45 of silence: 90
    frames of silence in all, and the utterance has not ended. *)
Lemma X13_silence_speech_silence :
  exists h',
    feed shipped
      (repeat (zero_frame, heard 0%Q) 45
       ++ (zero_frame, heard (9 # 10)%Q) :: repeat (zero_frame, heard 0%Q) 45)
      listening_start = (h', Normal)
    /\ detections (actions h')
       = detections (actions listening_start)
         + (if (Z.of_nat (length (repeat (zero_frame, heard 0%Q) 45))
                <? 46)%Z
            then 0 else 1)
    /\ is_transcribing h'
       = (Z.of_nat (length (repeat (zero_frame, heard 0%Q) 45)) <? 46)%Z.
Proof.
  apply (X13_speech_restarts_the_silence_count shipped 46 listening_start
           (repeat (zero_frame, heard 0%Q) 45)
           (repeat (zero_frame, heard 0%Q) 45)
           zero_frame (heard (9 # 10)%Q)).
  - vm_compute. reflexivity.
  - reflexivity.
  - discriminate.
  - reflexivity.
  - reflexivity.
  - apply silence_repeat. exact heard_nothing_is_silence.
  - apply Forall_forall. intros f Hf. apply repeat_spec in Hf. subst f.
    split; [reflexivity|]. intros k. reflexivity.
  - reflexivity.
  - reflexivity.
  - reflexivity.
  - split; [reflexivity|]. intros k. reflexivity.
  - apply silence_repeat. exact heard_nothing_is_silence.
Defined.

(** ** Transcription streams over a connection *)

Lemma stream_open_app (l l' : list action) :
  forall open : bool,
    stream_open (l ++ l') open
    = match stream_open l open with
      | Some open' => stream_open l' open'
      | None => None
      end.
Proof.
  induction l as [|a l IH]; intros open; cbn [app stream_open];
    [reflexivity|].
  destruct a; try apply IH; destruct open; try reflexivity; apply IH.
Qed.

Lemma tracked_held (h : handler) : tracked h -> held h.
Proof.
  intros Ht. exists (is_some (transcribe_stream h)). split; [exact Ht|].
  destruct (transcribe_stream h); [discriminate|]. discriminate.
Qed.

Lemma other_tasks_settled (moves : list background) (h : handler) :
  settled h -> settled (other_tasks moves h).
Proof.
  unfold settled, tracked.
  now rewrite other_tasks_actions, other_tasks_stream,
    other_tasks_transcribing.
Qed.

Lemma other_tasks_held (moves : list background) (h : handler) :
  held h -> held (other_tasks moves h).
Proof.
  unfold held. now rewrite other_tasks_actions, other_tasks_stream.
Qed.

Lemma request_cancellations_tracked (h : handler) :
  tracked h -> tracked (request_cancellations h).
Proof.
  unfold tracked. intros Ht.
  rewrite request_cancellations_actions, request_cancellations_stream.
  rewrite stream_open_app, Ht.
  destruct (bot_live h), (live (transcript_task h)); reflexivity.
Qed.

Lemma barge_in_tracks (e : frame_env) (h : handler) :
  settled h ->
  held (fst (barge_in e h))
  /\ (snd (barge_in e h) = Normal -> settled (fst (barge_in e h)))
  /\ (transport_fails e 0 = false -> snd (barge_in e h) = Normal).
Proof.
  intros [Ht _]. apply request_cancellations_tracked in Ht.
  unfold barge_in. set (h2 := request_cancellations h) in *.
  unfold tracked in Ht.
  destruct (transcribe_stream h2) as [rate|] eqn:Hst.
  - destruct (transport_fails e 0); cbn [fst snd].
    + split; [|split; discriminate].
      exists true. through_awaits.
      rewrite stream_open_app, Ht, Hst. split; [reflexivity|discriminate].
    + split; [|split; [|reflexivity]].
      * apply tracked_held. unfold tracked. through_awaits.
        now rewrite stream_open_app, Ht.
      * intros _. split; [|reflexivity]. unfold tracked. through_awaits.
        now rewrite stream_open_app, Ht.
  - cbn [fst snd]. split; [|split; [|reflexivity]].
    + apply tracked_held. unfold tracked. through_awaits. exact Ht.
    + intros _. split; [|reflexivity]. unfold tracked. through_awaits.
      exact Ht.
Qed.

Lemma listening_tracks (cfg : settings) (chunk : bytes) (e : frame_env)
  (speech : bool) (h : handler) :
  settled h ->
  is_transcribing h = true ->
  held (fst (listening cfg chunk e speech h))
  /\ (snd (listening cfg chunk e speech h) = Normal ->
      settled (fst (listening cfg chunk e speech h)))
  /\ (silence_limit cfg <> None -> transport_works e ->
      snd (listening cfg chunk e speech h) = Normal).
Proof.
  intros [Ht Hc] Hon. unfold tracked in Ht. unfold listening.
  destruct (transcribe_stream h) as [rate|] eqn:Hst.
  2: { cbn in Hc. congruence. }
  cbn [is_some] in Ht.
  destruct (transport_fails e 0) eqn:F0; cbn [fst snd].
  { split; [|split; [discriminate|]].
    - exists true. through_awaits. rewrite Ht, Hst.
      split; [reflexivity|discriminate].
    - intros _ Hw. now rewrite (Hw 0) in F0. }
  destruct speech; cbn [negb fst snd].
  { assert (Hs : settled
      (set_silence_frames 0%Z
         (act (SendAudioEvent chunk) (other_tasks (during e 0) h)))).
    { unfold settled, tracked. through_awaits.
      now rewrite stream_open_app, Ht, Hst, Hon. }
    split; [apply tracked_held, Hs|]. split; [intros _; exact Hs|].
    reflexivity. }
  through_awaits.
  assert (Hs : settled
    (set_silence_frames (silence_frames h + 1)%Z
       (act (SendAudioEvent chunk) (other_tasks (during e 0) h)))).
  { unfold settled, tracked. through_awaits.
    now rewrite stream_open_app, Ht, Hst, Hon. }
  destruct (silence_limit cfg) as [limit|]; cbn [fst snd].
  2: { split; [apply tracked_held, Hs|]. split; [discriminate|].
       intros H. congruence. }
  destruct (limit <=? silence_frames h + 1)%Z; cbn [fst snd].
  2: { split; [apply tracked_held, Hs|]. split; [intros _; exact Hs|].
       reflexivity. }
  destruct (transport_fails e 1) eqn:F1; cbn [fst snd].
  { split; [|split; [discriminate|]].
    - exists true. through_awaits.
      rewrite !stream_open_app, Ht, Hst. split; [reflexivity|discriminate].
    - intros _ Hw. now rewrite (Hw 1) in F1. }
  destruct (transport_fails e 2) eqn:F2; cbn [fst snd].
  { split; [|split; [discriminate|]].
    - exists false. through_awaits.
      rewrite !stream_open_app, Ht. split; [reflexivity|discriminate].
    - intros _ Hw. now rewrite (Hw 2) in F2. }
  assert (Hs' : settled
    (set_session false None false None
       (get_full_transcript (full_transcript e)
          (act AwaitTranscriptTask
             (other_tasks (during e 2)
                (act EndStream
                   (other_tasks (during e 1)
                      (act EndOfSpeech
                         (set_silence_frames (silence_frames h + 1)%Z
                            (act (SendAudioEvent chunk)
                               (other_tasks (during e 0) h))))))))))).
  { unfold settled, tracked. cbn [actions set_session is_transcribing
      transcribe_stream is_some].
    rewrite get_full_transcript_actions. through_awaits.
    rewrite !stream_open_app, Ht. cbn [stream_open].
    split; [|reflexivity].
    destruct (truthy (strip (join_spaces (full_transcript e))));
      reflexivity. }
  split; [apply tracked_held, Hs'|]. split; [intros _; exact Hs'|].
  reflexivity.
Qed.

Lemma start_listening_tracks (cfg : settings) (chunk : bytes)
  (e : frame_env) (h : handler) :
  settled h ->
  is_transcribing h = false ->
  held (fst (start_listening cfg chunk e h))
  /\ (snd (start_listening cfg chunk e h) = Normal ->
      settled (fst (start_listening cfg chunk e h)))
  /\ (transport_works e ->
      snd (start_listening cfg chunk e h) = Normal).
Proof.
  intros [Ht Hc] Hoff. unfold tracked in Ht. unfold start_listening.
  destruct (transcribe_stream h) as [rate|] eqn:Hst.
  { cbn in Hc. congruence. }
  cbn [is_some] in Ht.
  destruct (transport_fails e 0) eqn:F0; cbn [fst snd].
  { split; [|split; [discriminate|]].
    - exists false. through_awaits. rewrite Ht.
      split; [reflexivity|discriminate].
    - intros Hw. now rewrite (Hw 0) in F0. }
  destruct (transport_fails e 1) eqn:F1; cbn [fst snd].
  { split; [|split; [discriminate|]].
    - exists true. through_awaits. rewrite stream_open_app, Ht.
      split; [reflexivity|discriminate].
    - intros Hw. now rewrite (Hw 1) in F1. }
  match goal with |- held ?x /\ _ => assert (Hs : settled x) end.
  { unfold settled, tracked. through_awaits.
    rewrite !stream_open_app, Ht. now split. }
  split; [apply tracked_held, (proj1 Hs)|]. split; [intros _; exact Hs|].
  reflexivity.
Qed.

(** One frame keeps the account of the streams, settles the handler again
    unless it raises, and raises only if an awaited call raises or the
    limit cannot be computed. *)
Lemma process_frame_tracks (cfg : settings) (chunk : bytes) (e : frame_env)
  (h : handler) :
  settled h ->
  held (fst (process_frame cfg chunk e h))
  /\ (snd (process_frame cfg chunk e h) = Normal ->
      settled (fst (process_frame cfg chunk e h)))
  /\ (silence_limit cfg <> None -> transport_works e ->
      snd (process_frame cfg chunk e h) = Normal).
Proof.
  intros Hs. apply (other_tasks_settled (before e)) in Hs.
  unfold process_frame. fold (other_tasks (before e) h).
  set (h1 := other_tasks (before e) h) in *.
  destruct (is_bot_speaking (ws_app_state h1) && _is_speech cfg chunk e).
  - destruct (barge_in_tracks e h1 Hs) as (A & B & C).
    split; [exact A|]. split; [exact B|]. intros _ Hw. apply C, Hw.
  - destruct (is_transcribing h1) eqn:Hon.
    + apply listening_tracks; auto.
    + destruct (_is_speech cfg chunk e).
      * destruct (start_listening_tracks cfg chunk e h1 Hs Hon)
          as (A & B & C). auto.
      * cbn [fst snd]. split; [apply tracked_held, Hs|]. now split.
Qed.

Lemma process_frames_tracks (cfg : settings) (env : nat -> frame_env)
  (frames : list bytes) :
  forall (n : nat) (h : handler),
    settled h ->
    held (fst (fst (process_frames cfg env frames n h)))
    /\ (snd (fst (process_frames cfg env frames n h)) = Normal ->
        settled (fst (fst (process_frames cfg env frames n h))))
    /\ (silence_limit cfg <> None ->
        (forall k, transport_works (env k)) ->
        snd (fst (process_frames cfg env frames n h)) = Normal).
Proof.
  induction frames as [|chunk later IH]; intros n h Hs;
    cbn [process_frames].
  - cbn [fst snd]. split; [apply tracked_held, Hs|]. now split.
  - destruct (process_frame_tracks cfg chunk (env n) h Hs) as (A & B & C).
    destruct (process_frame cfg chunk (env n) h) as [h' [|]];
      cbn [fst snd] in *.
    + apply IH. now apply B.
    + split; [exact A|]. split; [discriminate|].
      intros Hl Hw. apply (C Hl (Hw n)).
Qed.

Lemma receive_loop_tracks (cfg : settings) (env : nat -> frame_env)
  (inbound : list message) :
  forall (n : nat) (h : handler),
    settled h ->
    held (fst (fst (receive_loop cfg env inbound n h)))
    /\ (silence_limit cfg <> None ->
        (forall k, transport_works (env k)) ->
        Forall binary inbound ->
        snd (fst (receive_loop cfg env inbound n h)) = Normal).
Proof.
  induction inbound as [|[raw|text] later IH]; intros n h Hs;
    cbn [receive_loop].
  - cbn [fst snd]. split; [apply tracked_held, Hs|]. reflexivity.
  - destruct (on_raw_chunk (VAD_CHUNK_SIZE_BYTES cfg)
                (audio_buffer (act (Receive (Binary raw)) h)) raw)
      as [frames rest].
    set (h1 := set_buffer rest (act (Receive (Binary raw)) h)).
    assert (Hs1 : settled h1).
    { destruct Hs as [Ht Hc]. unfold settled, h1. split; [|exact Hc].
      unfold tracked in *. cbn [actions set_buffer act transcribe_stream].
      now rewrite stream_open_app, Ht. }
    destruct (process_frames_tracks cfg env frames n h1 Hs1) as (A & B & C).
    destruct (process_frames cfg env frames n h1) as [[h2 [|]] n'];
      cbn [fst snd] in *.
    + destruct (IH n' h2 (B eq_refl)) as (A' & C').
      split; [exact A'|]. intros Hl Hw Hb. inversion Hb; subst.
      now apply C'.
    + split; [exact A|]. intros Hl Hw _. now apply C.
  - cbn [fst snd]. split.
    + apply other_tasks_held. destruct Hs as [Ht _].
      exists (is_some (transcribe_stream h)). unfold tracked in Ht.
      cbn [actions act transcribe_stream]. rewrite stream_open_app, Ht.
      split; [reflexivity|]. destruct (transcribe_stream h); discriminate.
    + intros _ _ Hb. inversion Hb as [|m l Hm _]; subst. destruct Hm.
Qed.

(** The [finally] ends the stream that is held; the stream stays open only
    if that call raises. *)
Lemma cleanup_closes (e : frame_env) (after : status) (h : handler) :
  held h ->
  exists open,
    stream_open (actions (cleanup e after h)) false = Some open
    /\ (open = true -> ends_with EndStreamFailed (actions (cleanup e after h)))
    /\ (transport_fails e 0 = false -> open = false).
Proof.
  intros Hh.
  assert (Hh' : held (match after with
                      | Normal => other_tasks (before e) h
                      | Raises => h
                      end))
    by (destruct after; [now apply other_tasks_held|exact Hh]).
  unfold cleanup.
  destruct (match after with
            | Normal => other_tasks (before e) h
            | Raises => h
            end)
    as [st buf [[text [| |]]|] on [rate|] th [[| |]|] n acts];
    destruct Hh' as (open & Ho & Hheld); cbn in Ho, Hheld;
    try (destruct open; [now contradiction Hheld|]);
    destruct (transport_fails e 0); cbn;
    rewrite ?stream_open_app, ?Ho; cbn;
    try (exists false; split; [reflexivity|];
         split; [discriminate|reflexivity]);
    try (exists open; split; [reflexivity|]; split; [|discriminate];
         intros _; eexists; rewrite ?app_assoc; reflexivity).
Qed.

Lemma greeting_launched_settled : settled greeting_launched.
Proof. split; reflexivity. Qed.

(** X14. Over a whole connection (the frame size is not zero), whatever
    arrives and whatever the other tasks and the transport do, a
    transcription stream is never opened while another is open, and when
    the handler returns, also on an error, no stream is left open, unless
    the last thing the handler did was an [end_stream()] that raised; none
    is left open when that call of the [finally] goes through. *)
Theorem X14_one_transcription_stream_at_a_time :
  forall (cfg : settings) (env : nat -> frame_env) (inbound : list message),
    VAD_CHUNK_SIZE_BYTES cfg <> 0 ->
    exists open,
      stream_open (actions (handle_connection cfg env inbound)) false
      = Some open
      /\ (open = true ->
          ends_with EndStreamFailed
            (actions (handle_connection cfg env inbound)))
      /\ (transport_fails
            (env (snd (receive_loop cfg env inbound 0 greeting_launched)))
            0 = false ->
          open = false).
Proof.
  intros cfg env inbound _. unfold handle_connection.
  fold greeting_launched.
  destruct (receive_loop_tracks cfg env inbound 0 greeting_launched
              greeting_launched_settled) as (Hh & _).
  destruct (receive_loop cfg env inbound 0 greeting_launched)
    as [[h' [|]] n]; cbn [fst snd] in *.
  - now apply cleanup_closes.
  - apply cleanup_closes. destruct Hh as (open & Ho & Hheld).
    exists open. cbn [actions act transcribe_stream].
    rewrite stream_open_app, Ho. now split.
Qed.

(** An instance: speech on the first frame while the transport is down.
    No stream is opened, and none is left open. *)
Lemma X14_transport_down :
  exists open,
    stream_open
      (actions (handle_connection shipped (fun _ => speech_transport_down)
                  [Binary zero_frame])) false
    = Some open
    /\ (open = true ->
        ends_with EndStreamFailed
          (actions (handle_connection shipped
                      (fun _ => speech_transport_down)
                      [Binary zero_frame])))
    /\ (transport_fails
          ((fun _ => speech_transport_down)
             (snd (receive_loop shipped (fun _ => speech_transport_down)
                     [Binary zero_frame] 0 greeting_launched)))
          0 = false ->
        open = false).
Proof.
  apply (X14_one_transcription_stream_at_a_time shipped
           (fun _ => speech_transport_down) [Binary zero_frame]).
  discriminate.
Defined.

(** X15. With a frame size that is not zero, a silence limit that can be
    computed, binary messages only and awaited calls that do not raise, no
    sequence of messages, classifier answers and moves of the other tasks
    makes the handler's loop raise: in particular the stream is never used
    while there is none.  The handler then goes to its [finally] without
    logging an error. *)
Theorem X15_loop_raises_only_on_transport_failure :
  forall (cfg : settings) (env : nat -> frame_env) (inbound : list message),
    VAD_CHUNK_SIZE_BYTES cfg <> 0 ->
    silence_limit cfg <> None ->
    Forall binary inbound ->
    (forall n, transport_works (env n)) ->
    exists h' n,
      receive_loop cfg env inbound 0 greeting_launched = (h', Normal, n)
      /\ handle_connection cfg env inbound = cleanup (env n) Normal h'.
Proof.
  intros cfg env inbound _ Hlimit Hbin Hok.
  destruct (receive_loop_tracks cfg env inbound 0 greeting_launched
              greeting_launched_settled) as (_ & Hn).
  specialize (Hn Hlimit Hok Hbin).
  unfold handle_connection. fold greeting_launched.
  destruct (receive_loop cfg env inbound 0 greeting_launched)
    as [[h' [|]] n]; cbn [fst snd] in *; [|discriminate].
  exists h', n. split; reflexivity.
Qed.

(** An instance: the shipped configuration, one message of a frame and a
    half, speech heard on every frame. *)
Lemma X15_speech_on_every_frame :
  exists h' n,
    receive_loop shipped (fun _ => heard (9 # 10)%Q)
      [Binary (zero_frame ++ repeat Byte.x00 256)] 0 greeting_launched
    = (h', Normal, n)
    /\ handle_connection shipped (fun _ => heard (9 # 10)%Q)
         [Binary (zero_frame ++ repeat Byte.x00 256)]
       = cleanup ((fun _ => heard (9 # 10)%Q) n) Normal h'.
Proof.
  apply (X15_loop_raises_only_on_transport_failure shipped
           (fun _ => heard (9 # 10)%Q)
           [Binary (zero_frame ++ repeat Byte.x00 256)]).
  - discriminate.
  - vm_compute. discriminate.
  - repeat constructor.
  - intros n k. reflexivity.
Defined.

(** ** A connection without speech *)

Lemma apply_background_idle (h : handler) (b : background) :
  idle h -> idle (apply_background h b).
Proof.
  intros (H1 & H2 & H3 & t & H4). unfold idle.
  destruct b; cbn; rewrite ?H3, ?H4; cbn; try (now repeat split; eauto).
  destruct t; cbn; repeat split; eauto.
Qed.

Lemma other_tasks_idle (moves : list background) :
  forall h : handler, idle h -> idle (other_tasks moves h).
Proof.
  unfold other_tasks.
  induction moves as [|b moves IH]; intros h Hi; cbn [fold_left];
    [exact Hi|].
  apply IH. now apply apply_background_idle.
Qed.

Lemma process_frame_deaf (cfg : settings) (chunk : bytes) (e : frame_env)
  (h : handler) :
  _is_speech cfg chunk e = false ->
  idle h ->
  process_frame cfg chunk e h = (other_tasks (before e) h, Normal).
Proof.
  intros Hdeaf (H1 & _).
  now rewrite (process_frame_silent cfg chunk e h Hdeaf), H1.
Qed.

Lemma process_frames_deaf (cfg : settings) (env : nat -> frame_env) :
  (forall n chunk, _is_speech cfg chunk (env n) = false) ->
  forall (frames : list bytes) (n : nat) (h : handler),
    idle h ->
    exists h' n',
      process_frames cfg env frames n h = (h', Normal, n')
      /\ idle h' /\ actions h' = actions h.
Proof.
  intros Hdeaf frames.
  induction frames as [|chunk later IH]; intros n h Hi;
    cbn [process_frames].
  - exists h, n. split; [reflexivity|]. split; [exact Hi|reflexivity].
  - rewrite (process_frame_deaf cfg chunk (env n) h (Hdeaf n chunk) Hi).
    destruct (IH (S n) _ (other_tasks_idle (before (env n)) h Hi))
      as (h' & n' & E & Hi' & Ha).
    exists h', n'. split; [exact E|]. split; [exact Hi'|].
    now rewrite Ha, other_tasks_actions.
Qed.

Lemma receive_loop_deaf (cfg : settings) (env : nat -> frame_env) :
  (forall n chunk, _is_speech cfg chunk (env n) = false) ->
  forall (inbound : list message) (n : nat) (h : handler),
    Forall binary inbound ->
    idle h ->
    exists h' n',
      receive_loop cfg env inbound n h = (h', Normal, n')
      /\ idle h' /\ actions h' = actions h ++ map Receive inbound.
Proof.
  intros Hdeaf inbound.
  induction inbound as [|[raw|text] later IH]; intros n h Hbin Hi;
    cbn [receive_loop].
  - exists h, n. rewrite app_nil_r.
    split; [reflexivity|]. split; [exact Hi|reflexivity].
  - inversion Hbin as [|m l _ Hlater]; subst.
    destruct (on_raw_chunk (VAD_CHUNK_SIZE_BYTES cfg)
                (audio_buffer (act (Receive (Binary raw)) h)) raw)
      as [frames rest].
    assert (Hi1 : idle (set_buffer rest (act (Receive (Binary raw)) h))).
    { destruct Hi as (H1 & H2 & H3 & H4). now repeat split. }
    destruct (process_frames_deaf cfg env Hdeaf frames n _ Hi1)
      as (h1 & n1 & E & Hi' & Ha).
    rewrite E. destruct (IH n1 h1 Hlater Hi') as (h' & n' & E' & Hi'' & Ha').
    exists h', n'. split; [exact E'|]. split; [exact Hi''|].
    rewrite Ha', Ha. cbn [actions set_buffer act map].
    now rewrite <- app_assoc.
  - inversion Hbin as [|m l Hm _]; subst. destruct Hm.
Qed.

Lemma cleanup_idle (e : frame_env) (h : handler) :
  idle h ->
  exists t,
    bot_response_task (other_tasks (before e) h) = Some (greeting, t)
    /\ actions (cleanup e Normal h)
       = actions h ++ Cleanup :: (if done t then [] else [CancelBotTask]).
Proof.
  intros Hi. apply (other_tasks_idle (before e)) in Hi.
  unfold cleanup. rewrite <- (other_tasks_actions (before e) h).
  destruct Hi as (H1 & H2 & H3 & t & H4). exists t. split; [exact H4|].
  destruct (other_tasks (before e) h)
    as [st buf task on stream th ttask n acts].
  cbn in *. subst. destruct t; cbn; rewrite <- ?app_assoc; reflexivity.
Qed.

Lemma greeting_launched_idle : idle greeting_launched.
Proof. repeat split. now exists Running. Qed.

(** X16. If the classifier never reports speech on a connection (it
    answers below the threshold, or raises, on every frame), the frame
    size is not zero and the messages are binary, the handler never opens
    a transcription and never fails, whatever the transport would do: all
    it does is launch the greeting turn, receive the messages and clean
    up, and it cancels the greeting turn there exactly when that turn is
    not done by then. *)
Theorem X16_connection_without_speech_only_greets :
  forall (cfg : settings) (env : nat -> frame_env) (inbound : list message),
    VAD_CHUNK_SIZE_BYTES cfg <> 0 ->
    Forall binary inbound ->
    (forall n chunk, _is_speech cfg chunk (env n) = false) ->
    exists h' n t,
      receive_loop cfg env inbound 0 greeting_launched = (h', Normal, n)
      /\ bot_response_task (other_tasks (before (env n)) h')
         = Some (greeting, t)
      /\ actions (handle_connection cfg env inbound)
         = CreateTask greeting :: map Receive inbound
           ++ Cleanup :: (if done t then [] else [CancelBotTask]).
Proof.
  intros cfg env inbound _ Hbin Hdeaf. unfold handle_connection.
  fold greeting_launched.
  destruct (receive_loop_deaf cfg env Hdeaf inbound 0 greeting_launched
              Hbin greeting_launched_idle) as (h' & n & E & Hi' & Ha).
  destruct (cleanup_idle (env n) h' Hi') as (t & Ht & Hc).
  exists h', n, t. rewrite E. split; [reflexivity|]. split; [exact Ht|].
  now rewrite Hc, Ha.
Qed.

(** An instance: the classifier raises on every frame, the greeting turn
    ends, and the transport is down. *)
Lemma X16_classifier_always_raises :
  exists h' n t,
    receive_loop shipped (fun _ => deaf)
      [Binary zero_frame; Binary zero_frame] 0 greeting_launched
    = (h', Normal, n)
    /\ bot_response_task (other_tasks (before ((fun _ => deaf) n)) h')
       = Some (greeting, t)
    /\ actions (handle_connection shipped (fun _ => deaf)
                  [Binary zero_frame; Binary zero_frame])
       = CreateTask greeting
         :: map Receive [Binary zero_frame; Binary zero_frame]
         ++ Cleanup :: (if done t then [] else [CancelBotTask]).
Proof.
  apply (X16_connection_without_speech_only_greets shipped (fun _ => deaf)
           [Binary zero_frame; Binary zero_frame]).
  - discriminate.
  - repeat constructor.
  - intros n chunk. unfold _is_speech.
    destruct (length chunk <? VAD_CHUNK_SIZE_BYTES shipped); reflexivity.
Defined.

(** ** Cleaning a text twice, and double asterisks *)

(** X17. Removing the starred spans is idempotent: what [speak_text]
    submits holds no span that a second removal would take away. *)
Theorem X17_removing_starred_spans_is_idempotent :
  forall text : str,
    re_sub_starred (re_sub_starred text) = re_sub_starred text.
Proof.
  intros text.
  destruct (re_sub_starred_no_span text (length text) (le_n _))
    as (before & later & E & Hb & [Hl | (rest & Hl & Hr)]).
  - rewrite E, Hl, app_nil_r. now apply re_sub_starred_plain.
  - rewrite E, Hl. now apply re_sub_starred_lone.
Qed.

(** X18. A text set between double asterisks is kept and only the
    asterisks go, whereas a text set between single asterisks goes with
    them: each pair of adjacent asterisks is itself a starred span, an
    empty one. *)
Theorem X18_double_asterisks_keep_the_text :
  forall before inside later : str,
    no_asterisk before -> no_asterisk inside ->
    re_sub_starred
      (before ++ asterisk :: asterisk :: inside
       ++ asterisk :: asterisk :: later)
    = before ++ inside ++ re_sub_starred later
    /\ re_sub_starred (before ++ asterisk :: inside ++ asterisk :: later)
       = before ++ re_sub_starred later.
Proof.
  intros before inside later Hb Hi. split.
  - pose proof (re_sub_starred_span before []
                  (inside ++ asterisk :: asterisk :: later) Hb
                  (Forall_nil _)) as Hopen.
    pose proof (re_sub_starred_span inside [] later Hi (Forall_nil _))
      as Hclose.
    cbn [app] in Hopen, Hclose. now rewrite Hopen, Hclose.
  - now apply re_sub_starred_span.
Qed.

(** An instance: a word in bold and a word in italics. *)
Lemma X18_bold_and_italic :
  re_sub_starred
    (lit "It is " ++ asterisk :: asterisk :: lit "now"
     ++ asterisk :: asterisk :: lit " noon")
  = lit "It is " ++ lit "now" ++ re_sub_starred (lit " noon")
  /\ re_sub_starred
       (lit "It is " ++ asterisk :: lit "now" ++ asterisk :: lit " noon")
     = lit "It is " ++ re_sub_starred (lit " noon").
Proof.
  apply (X18_double_asterisks_keep_the_text (lit "It is ") (lit "now")
           (lit " noon")).
  - unfold no_asterisk. repeat constructor.
  - unfold no_asterisk. repeat constructor.
Defined.

(** ** What is printed *)

Lemma str_eqb_eq (a : str) :
  forall b : str, str_eqb a b = true -> a = b.
Proof.
  induction a as [|x a IH]; intros [|y b]; cbn [str_eqb];
    try discriminate; [reflexivity|].
  intros H. apply andb_true_iff in H as [Hx Hr].
  apply Ascii.eqb_eq in Hx. now rewrite Hx, (IH b Hr).
Qed.

(** X19. [printer] prints at the levels info and debug only: a message of
    any other level, such as the level error at which the services report
    their failures, is printed under no configured log level. *)
Theorem X19_only_info_and_debug_are_printed :
  forall log_level text level : str,
    level <> lit "info" -> level <> lit "debug" ->
    printer log_level text level = [].
Proof.
  intros log_level text level Hinfo Hdebug. unfold printer.
  destruct (str_eqb level (lit "info")) eqn:Ei.
  { now apply str_eqb_eq in Ei. }
  destruct (str_eqb level (lit "debug")) eqn:Ed.
  { now apply str_eqb_eq in Ed. }
  now rewrite !andb_false_r.
Qed.

(** An instance: the level error under the shipped log level. *)
Lemma X19_error_under_debug :
  printer (lit "debug") (lit "[ERROR] Error in BedrockService invocation")
    (lit "error") = [].
Proof.
  apply (X19_only_info_and_debug_are_printed (lit "debug")
           (lit "[ERROR] Error in BedrockService invocation")
           (lit "error")).
  - intros H. vm_compute in H. discriminate H.
  - intros H. vm_compute in H. discriminate H.
Defined.
